(** * A point-cloud software renderer: the [Device] of [src/main.ts]

    The development embeds the classes [Camera], [Mesh] and [Device] of
    [src/main.ts] and states the properties of the projection and
    rasterisation engine over that embedding.

    Modelling conventions.
    - A JavaScript [number] is a rational, [NaN] or one of the two
      infinities.  The arithmetic is that of binary64: the exact result of
      [+], [*] and [/] is rounded to the nearest representable value, a tie
      going to the even significand, and overflows to an infinity.  The
      sign of zero is not modelled: a zero divisor is taken as [+0].
    - [x >> 0] is [ToInt32] of ECMA-262, and a store into [ImageData.data]
      (a [Uint8ClampedArray]) converts with [ToUint8Clamp] and ignores an
      index that is not inside the array.
    - The engine runs in a small state-and-exception monad over a [World]
      that holds the fields of the device, the typed arrays it allocated,
      the display surface, the scene objects passed to [render], and a log
      of the method calls made.
    - The display surface is the bitmap of the canvas as [getImageData]
      reads it.  It stores its pixels premultiplied by alpha, so that
      [putImageData] keeps an opaque pixel as it is, turns a fully
      transparent one into transparent black, and converts any other pixel
      as the implementation chooses, which is a parameter.
    - [math.ts] is not part of the sources at hand: its types are modelled
      from the specification and its functions are parameters. *)

From Stdlib Require Import ZArith QArith Qround Qpower Qreduction Lia Lqa String.
From Stdlib Require SpecFloat.
From stdpp Require Import base list.

Local Open Scope Z_scope.

(** ** JavaScript numbers *)

Inductive number : Type :=
| Fin (q : Q)
| NaN
| PosInf
| NegInf.

Definition of_Z (z : Z) : number := Fin (inject_Z z).
Definition of_N (n : N) : number := of_Z (Z.of_N n).

(** [p < q] on rationals, as a boolean. *)
Definition Qltb (p q : Q) : bool :=
  match (p ?= q)%Q with
  | Lt => true
  | _ => false
  end.

(** [- a] *)
Definition js_neg (a : number) : number :=
  match a with
  | Fin p => Fin (- p)
  | NaN => NaN
  | PosInf => NegInf
  | NegInf => PosInf
  end.

(** *** Rounding to binary64 *)

(** The nearest integer, a tie going to the even one. *)
Definition Qround_even (q : Q) : Z :=
  let f := Qfloor q in
  match (q ?= inject_Z f + (1 # 2))%Q with
  | Lt => f
  | Gt => f + 1
  | Eq => if Z.even f then f else f + 1
  end.

(** [floor (log2 q)] for a positive [q]. *)
Definition Qilog2 (q : Q) : Z :=
  let l := Z.log2 (Qnum q) - Z.log2 (Zpos (Qden q)) in
  if Qle_bool (2 ^ l) q then l else l - 1.

(** The exponent of the last place of the binary64 numbers around a
    positive [q]: 53 significant bits, and 2^-1074 for the subnormal
    numbers. *)
Definition exponent64 (q : Q) : Z := Z.max (Qilog2 q - 52) (-1074).

(** [q] in units of the last place, rounded. *)
Definition significand64 (q : Q) : Z := Qround_even (q / 2 ^ exponent64 q).

Definition value64 (q : Q) : Q := inject_Z (significand64 q) * 2 ^ exponent64 q.

(** The binary64 number nearest to a positive [q]; a value that rounds to
    2^1024 or more overflows. *)
Definition round64_pos (q : Q) : number :=
  let v := Qred (value64 q) in
  if Qle_bool (2 ^ 1024) v then PosInf else Fin v.

(** The binary64 number nearest to [q] (roundTiesToEven of IEEE 754). *)
Definition round64 (q : Q) : number :=
  match (q ?= 0)%Q with
  | Eq => Fin 0
  | Gt => round64_pos q
  | Lt => js_neg (round64_pos (- q))
  end.

(** *** Arithmetic *)

(** [a + b] *)
Definition js_add (a b : number) : number :=
  match a, b with
  | Fin p, Fin q => round64 (p + q)
  | NaN, _ | _, NaN => NaN
  | PosInf, NegInf | NegInf, PosInf => NaN
  | PosInf, _ | _, PosInf => PosInf
  | NegInf, _ | _, NegInf => NegInf
  end.

(** Sign of a rational as a comparison with zero. *)
Definition Qsign (q : Q) : comparison := (0 ?= q)%Q.

Definition signed_inf (positive : bool) : number :=
  if positive then PosInf else NegInf.

(** An infinity times a finite value. *)
Definition inf_times (positive : bool) (q : Q) : number :=
  match Qsign q with
  | Eq => NaN
  | Lt => signed_inf positive
  | Gt => signed_inf (negb positive)
  end.

(** [a * b] *)
Definition js_mul (a b : number) : number :=
  match a, b with
  | Fin p, Fin q => round64 (p * q)
  | NaN, _ | _, NaN => NaN
  | PosInf, Fin q | Fin q, PosInf => inf_times true q
  | NegInf, Fin q | Fin q, NegInf => inf_times false q
  | PosInf, PosInf | NegInf, NegInf => PosInf
  | PosInf, NegInf | NegInf, PosInf => NegInf
  end.

(** [a / b]; a zero divisor counts as [+0]. *)
Definition js_div (a b : number) : number :=
  match a, b with
  | NaN, _ | _, NaN => NaN
  | Fin p, Fin q =>
      match Qsign q with
      | Eq => match Qsign p with
              | Eq => NaN
              | Lt => PosInf
              | Gt => NegInf
              end
      | _ => round64 (p / q)
      end
  | Fin _, (PosInf | NegInf) => Fin 0
  | PosInf, Fin q => signed_inf (negb (Qltb q 0))
  | NegInf, Fin q => signed_inf (Qltb q 0)
  | (PosInf | NegInf), (PosInf | NegInf) => NaN
  end.

(** *** The same operations in the binary64 of [SpecFloat]

    [SpecFloat] is the specification of IEEE 754 arithmetic of the standard
    library; the operations above are compared with it on the values
    below. *)

Definition of_spec_float (x : SpecFloat.spec_float) : number :=
  match x with
  | SpecFloat.S754_zero _ => Fin 0
  | SpecFloat.S754_infinity false => PosInf
  | SpecFloat.S754_infinity true => NegInf
  | SpecFloat.S754_nan => NaN
  | SpecFloat.S754_finite s m e =>
      Fin (Qred ((if s then -1 else 1) * inject_Z (Zpos m) * 2 ^ e))
  end.

(** The integer [z] and the quotient of two integers in binary64. *)
Definition spec_of_Z (z : Z) : SpecFloat.spec_float :=
  SpecFloat.binary_normalize 53 1024 z 0 false.
Definition spec_quotient (p : Z * Z) : SpecFloat.spec_float :=
  SpecFloat.SFdiv 53 1024 (spec_of_Z (fst p)) (spec_of_Z (snd p)).
Definition js_quotient (p : Z * Z) : number :=
  js_div (round64 (inject_Z (fst p))) (round64 (inject_Z (snd p))).

Definition number_eqb (a b : number) : bool :=
  match a, b with
  | Fin p, Fin q => Qeq_bool p q
  | NaN, NaN | PosInf, PosInf | NegInf, NegInf => true
  | _, _ => false
  end.

(** Quotients that are exact, inexact, ties, larger than 2^53, negative. *)
Definition sample_quotients : list (Z * Z) :=
  list_prod [1; 3; 7; 10; 255; 800; 1000; 12345; 4503599627370497;
             9007199254740993; -5; -999; 1152921504606846975]
            [1; 3; 10; 255; 1000; 4503599627370496; 7; 2047].

(** The largest and smallest magnitudes: overflow, subnormal numbers,
    underflow. *)
Definition sample_extremes : list SpecFloat.spec_float :=
  [SpecFloat.S754_finite false 4503599627370496 971;
   SpecFloat.S754_finite false 9007199254740991 971;
   SpecFloat.S754_finite true 9007199254740991 971;
   SpecFloat.S754_finite false 1 (-1074);
   SpecFloat.S754_finite false 3 (-1074);
   SpecFloat.S754_finite true 5 (-1074);
   SpecFloat.S754_finite false 9007199254740991 (-1074);
   SpecFloat.S754_finite false 4503599627370496 (-1074);
   spec_of_Z 1; spec_of_Z 3].

(** [+], [*] and [/] agree on two values. *)
Definition agree_on (x y : SpecFloat.spec_float) : bool :=
  number_eqb (of_spec_float (SpecFloat.SFmul 53 1024 x y))
             (js_mul (of_spec_float x) (of_spec_float y))
  && number_eqb (of_spec_float (SpecFloat.SFadd 53 1024 x y))
                (js_add (of_spec_float x) (of_spec_float y))
  && number_eqb (of_spec_float (SpecFloat.SFdiv 53 1024 x y))
                (js_div (of_spec_float x) (of_spec_float y)).

(** [a < b]; every comparison with [NaN] is false. *)
Definition js_lt (a b : number) : bool :=
  match a, b with
  | NaN, _ | _, NaN => false
  | Fin p, Fin q => Qltb p q
  | NegInf, (Fin _ | PosInf) => true
  | Fin _, PosInf => true
  | _, _ => false
  end.

(** [a >= b] *)
Definition js_ge (a b : number) : bool :=
  match a, b with
  | NaN, _ | _, NaN => false
  | Fin p, Fin q => Qle_bool q p
  | PosInf, _ => true
  | _, NegInf => true
  | _, _ => false
  end.

(** ** Integer conversions of ECMA-262 *)

(** [truncate(x)]: the integral part of [x], rounding toward zero. *)
Definition truncate (q : Q) : Z := Z.quot (Qnum q) (Zpos (Qden q)).

Definition two31 : Z := 2 ^ 31.
Definition two32 : Z := 2 ^ 32.

(** [ToInt32]: not finite gives 0; otherwise truncate, reduce modulo 2^32
    and read the result as a signed 32-bit integer. *)
Definition ToInt32 (a : number) : Z :=
  match a with
  | Fin q =>
      let int := truncate q in
      let int32bit := int mod two32 in
      if two31 <=? int32bit then int32bit - two32 else int32bit
  | _ => 0
  end.

(** [x >> 0] *)
Definition shr0 (a : number) : number := of_Z (ToInt32 a).

(** [ToUint8Clamp]: [NaN] gives 0, a value at or below 0 gives 0, a value
    at or above 255 gives 255; any other value is rounded to the nearest
    integer, a tie going to the even one. *)
Definition ToUint8Clamp (a : number) : Z :=
  match a with
  | NaN => 0
  | NegInf => 0
  | PosInf => 255
  | Fin q =>
      if Qle_bool q 0 then 0
      else if Qle_bool 255 q then 255
      else
        let f := Qfloor q in
        match (q ?= inject_Z f + (1 # 2))%Q with
        | Lt => f
        | Gt => f + 1
        | Eq => if Z.even f then f else f + 1
        end
  end.

(** ** Values of the math module and scene objects *)

Module Vector2.
Record t : Type := mk { x : number; y : number }.
End Vector2.

Module Vector3.
Record t : Type := mk { x : number; y : number; z : number }.

(** Modelled from the spec: [Vector3.Zero()] of the missing [math.ts]
    returns (0,0,0). *)
Definition Zero : t := mk (of_Z 0) (of_Z 0) (of_Z 0).

(** Modelled from the spec: [Vector3.Up()] of the missing [math.ts]
    returns (0,1,0). *)
Definition Up : t := mk (of_Z 0) (of_Z 1) (of_Z 0).
End Vector3.

Module Color4.
Record t : Type := mk { r : number; g : number; b : number; a : number }.
End Color4.

Module Matrix.
(** Modelled from the spec: the [Matrix] of the missing [math.ts] is a
    4x4 real-valued array, kept here as its sixteen entries. *)
Record t : Type := mk { m : list number }.
End Matrix.

Module Camera.
Record t : Type := mk { Position : Vector3.t; Target : Vector3.t }.

(** [new Camera()] *)
Definition new : t := mk Vector3.Zero Vector3.Zero.
End Camera.

Module Mesh.
(** [Vertices] is a filled array, as its type [Vector3[]] says: the holes
    that [new Array(verticesCount)] leaves until the scene is set up are
    not part of the model. *)
Record t : Type := mk {
  name : string;
  Position : Vector3.t;
  Rotation : Vector3.t;
  Vertices : list Vector3.t
}.
End Mesh.

(** ** The device and the world it runs in *)

(** A typed array is named by the position at which it was allocated. *)
Abbreviation loc := nat (only parsing).

(** The fields of [Device].  [backbuffer] is undefined until [clear] has
    run; an [ImageData] is identified with its [data] array.  The canvas
    and its 2D context are the [canvas] component of the world. *)
Record Device : Type := mkDevice {
  workingWidth : N;
  workingHeight : N;
  backbuffer : option loc;
  backbufferdata : option loc
}.

(** [new Device(canvas)] for a canvas of the given size. *)
Definition new_Device (width height : N) : Device :=
  mkDevice width height None None.

(** The method calls that are recorded. *)
Inductive Call : Type :=
| CallClear
| CallPresent
| CallPutPixel (x y : number) (color : Color4.t)
| CallProject (coord : Vector3.t) (transMat : Matrix.t)
| CallDrawPoint (point : Vector2.t)
| CallRender
| CallUp
| CallTransformCoordinates (coord : Vector3.t) (transMat : Matrix.t)
| CallLookAtLH (eye target up : Vector3.t)
| CallPerspectiveFovLH (fov aspect znear zfar : number)
| CallRotationYawPitchRoll (yaw pitch roll : number)
| CallTranslation (x y z : number)
| CallMultiply (this other : Matrix.t).

(** [canvas] is the bitmap of the canvas as [getImageData] reads it, which
    keeps the size it had when the device was built; [arrays] are the [Uint8ClampedArray]s allocated so
    far; [mera] and [meshes] are the scene objects of the frame driver,
    which [render] receives by reference. *)
Record World : Type := mkWorld {
  canvas : list Z;
  device : Device;
  arrays : list (list Z);
  mera : Camera.t;
  meshes : list Mesh.t;
  calls : list Call
}.

Definition set_canvas (c : list Z) (w : World) : World :=
  mkWorld c (device w) (arrays w) (mera w) (meshes w) (calls w).
Definition set_device (d : Device) (w : World) : World :=
  mkWorld (canvas w) d (arrays w) (mera w) (meshes w) (calls w).
Definition set_arrays (a : list (list Z)) (w : World) : World :=
  mkWorld (canvas w) (device w) a (mera w) (meshes w) (calls w).
Definition add_call (c : Call) (w : World) : World :=
  mkWorld (canvas w) (device w) (arrays w) (mera w) (meshes w) (calls w ++ [c]).

(** Number of bytes of a [width] x [height] RGBA image. *)
Definition image_bytes (width height : N) : nat :=
  N.to_nat (width * height * 4).

(** The world once the device has been built on a blank canvas of the given
    size: no back buffer yet, no array allocated, and the scene of the frame
    driver. *)
Definition init_world (width height : N) (cam : Camera.t) (ms : list Mesh.t) : World :=
  mkWorld (replicate (image_bytes width height) 0)
          (new_Device width height) [] cam ms [].

(** ** The monad of the engine *)

Inductive exn : Type :=
| TypeError
| IndexSizeError.

(** A computation ends normally, throws, or exhausts the bound given to a
    loop. *)
Inductive result (A : Type) : Type :=
| Ok (a : A) (w : World)
| Throw (e : exn) (w : World)
| OutOfFuel.
Arguments Ok {A} a w.
Arguments Throw {A} e w.
Arguments OutOfFuel {A}.

Definition M (A : Type) : Type := World -> result A.

#[export] Instance M_ret : MRet M := fun A a w => Ok a w.
#[export] Instance M_bind : MBind M := fun A B f c w =>
  match c w with
  | Ok a w' => f a w'
  | Throw e w' => Throw e w'
  | OutOfFuel => OutOfFuel
  end.

Definition throw {A : Type} (e : exn) : M A := fun w => Throw e w.
Definition gets {A : Type} (f : World -> A) : M A := fun w => Ok (f w) w.
Definition modify (f : World -> World) : M unit := fun w => Ok tt (f w).
Definition record (c : Call) : M unit := modify (add_call c).

(** The world in which a computation stops, when it stops. *)
Definition final_world {A : Type} (r : result A) (w0 : World) : World :=
  match r with
  | Ok _ w => w
  | Throw _ w => w
  | OutOfFuel => w0
  end.

(** [for (let index = from; cond(index); index++) body(index)], for at most
    [fuel] evaluations of the condition. *)
Fixpoint for_loop (fuel : nat) (cond : nat -> M bool) (body : nat -> M unit)
    (index : nat) : M unit :=
  match fuel with
  | O => fun _ => OutOfFuel
  | S fuel' =>
      continue ← cond index;
      if continue : bool
      then body index ;; for_loop fuel' cond body (S index)
      else mret tt
  end.

(** ** Canvas context and typed arrays *)

(** [context.clearRect(0, 0, width, height)] over the whole canvas. *)
Definition clearRect : M unit :=
  modify (fun w => set_canvas (replicate (length (canvas w)) 0) w).

(** [context.getImageData(0, 0, width, height)]: a fresh image of the
    asked size; what lies outside the canvas is transparent black. *)
Definition getImageData (width height : N) : M loc :=
  fun w =>
    if ((width =? 0) || (height =? 0))%N then Throw IndexSizeError w
    else Ok (length (arrays w))
            (set_arrays (arrays w ++ [resize (image_bytes width height) 0 (canvas w)]) w).

(** A number brought into the range of a byte. *)
Definition clamp_byte (z : Z) : Z := Z.max 0 (Z.min 255 z).

(** How an implementation reads back a pixel (r, g, b, a) that is neither
    opaque nor fully transparent. *)
Definition Lossy : Type := Z -> Z -> Z -> Z -> list Z.

(** What the bitmap of a canvas keeps of a pixel put on it.  The bitmap
    stores colours premultiplied by alpha: an opaque pixel is kept as it is,
    a fully transparent one reads back as transparent black, and any other
    pixel reads back as the implementation converts it, four bytes. *)
Definition bitmap_pixel (lossy : Lossy) (r g b a : Z) : list Z :=
  if a =? 255 then [r; g; b; a]
  else if a =? 0 then [0; 0; 0; 0]
  else map clamp_byte (resize 4 0 (lossy r g b a)).

Fixpoint bitmap (lossy : Lossy) (data : list Z) : list Z :=
  match data with
  | r :: g :: b :: a :: rest => bitmap_pixel lossy r g b a ++ bitmap lossy rest
  | _ => data
  end.

(** [context.putImageData(image, 0, 0)] *)
Definition putImageData (lossy : Lossy) (image : option loc) : M unit :=
  match image with
  | None => throw TypeError
  | Some l =>
      fun w =>
        match arrays w !! l with
        | Some data =>
            Ok tt (set_canvas (bitmap lossy (resize (length (canvas w)) 0 data)) w)
        | None => Throw TypeError w
        end
  end.

(** [array[index] = value] on a [Uint8ClampedArray], the type of
    [ImageData.data]: the value is converted with [ToUint8Clamp], and an
    index outside the array is ignored. *)
Definition write_byte (index : Z) (byte : Z) (data : list Z) : list Z :=
  if index <? 0 then data else <[Z.to_nat index := byte]> data.

Definition array_store (l : loc) (index : Z) (value : number) : M unit :=
  modify (fun w =>
    set_arrays (alter (write_byte index (ToUint8Clamp value)) l (arrays w)) w).

(** [this.backbufferdata[index] = value] *)
Definition store_backbufferdata (index : Z) (value : number) : M unit :=
  d ← gets device;
  match backbufferdata d with
  | None => throw TypeError
  | Some l => array_store l index value
  end.

(** ** Methods of [Device] that do not use the math module *)

(** [this.backbuffer = image] *)
Definition assign_backbuffer (image : loc) : M unit :=
  modify (fun w =>
    set_device (mkDevice (workingWidth (device w)) (workingHeight (device w))
                         (Some image) (backbufferdata (device w))) w).

(** [this.backbufferdata = data] *)
Definition assign_backbufferdata (data : loc) : M unit :=
  modify (fun w =>
    set_device (mkDevice (workingWidth (device w)) (workingHeight (device w))
                         (backbuffer (device w)) (Some data)) w).

Definition clear : M unit :=
  record CallClear ;;
  d ← gets device;
  clearRect ;;
  image ← getImageData (workingWidth d) (workingHeight d);
  assign_backbuffer image.

Definition present (lossy : Lossy) : M unit :=
  record CallPresent ;;
  d ← gets device;
  putImageData lossy (backbuffer d).

(** The cell of the back buffer computed for [(x, y)]; the operands are
    integers, and so is the result, which binary64 arithmetic gives exactly
    as long as it is below 2^53 in magnitude, as every index inside a buffer
    is. *)
Definition pixel_index (width : N) (x y : number) : Z :=
  (ToInt32 x + ToInt32 y * Z.of_N width) * 4.

Definition putPixel (x y : number) (color : Color4.t) : M unit :=
  record (CallPutPixel x y color) ;;
  d ← gets device;
  match backbuffer d with
  | None => throw TypeError
  | Some data =>
      assign_backbufferdata data ;;
      let index := pixel_index (workingWidth d) x y in
      store_backbufferdata index (js_mul (Color4.r color) (of_Z 255)) ;;
      store_backbufferdata (index + 1) (js_mul (Color4.g color) (of_Z 255)) ;;
      store_backbufferdata (index + 2) (js_mul (Color4.b color) (of_Z 255)) ;;
      store_backbufferdata (index + 3) (js_mul (Color4.a color) (of_Z 255))
  end.

(** The colour of every point drawn: [new Color4(1, 1, 0, 1)]. *)
Definition yellow : Color4.t := Color4.mk (of_Z 1) (of_Z 1) (of_Z 0) (of_Z 1).

(** The clipping test of [drawPoint]. *)
Definition on_screen (d : Device) (point : Vector2.t) : bool :=
  js_ge (Vector2.x point) (of_Z 0) && js_ge (Vector2.y point) (of_Z 0)
  && js_lt (Vector2.x point) (of_N (workingWidth d))
  && js_lt (Vector2.y point) (of_N (workingHeight d)).

Definition drawPoint (point : Vector2.t) : M unit :=
  record (CallDrawPoint point) ;;
  d ← gets device;
  if on_screen d point
  then putPixel (Vector2.x point) (Vector2.y point) yellow
  else mret tt.

(** ** Methods of [Device] that use the math module *)

Section Engine.

(** The functions of [math.ts], which is not among the sources. *)
Variable TransformCoordinates : Vector3.t -> Matrix.t -> Vector3.t.
Variable LookAtLH : Vector3.t -> Vector3.t -> Vector3.t -> Matrix.t.
Variable PerspectiveFovLH : number -> number -> number -> number -> Matrix.t.
Variable RotationYawPitchRoll : number -> number -> number -> Matrix.t.
Variable Translation : number -> number -> number -> Matrix.t.
Variable multiply : Matrix.t -> Matrix.t -> Matrix.t.

(** Each call of the math module is recorded and returns its value. *)
Definition Vector3_Up : M Vector3.t :=
  record CallUp ;; mret Vector3.Up.
Definition Vector3_TransformCoordinates (coord : Vector3.t) (transMat : Matrix.t)
    : M Vector3.t :=
  record (CallTransformCoordinates coord transMat) ;;
  mret (TransformCoordinates coord transMat).
Definition Matrix_LookAtLH (eye target up : Vector3.t) : M Matrix.t :=
  record (CallLookAtLH eye target up) ;; mret (LookAtLH eye target up).
Definition Matrix_PerspectiveFovLH (fov aspect znear zfar : number) : M Matrix.t :=
  record (CallPerspectiveFovLH fov aspect znear zfar) ;;
  mret (PerspectiveFovLH fov aspect znear zfar).
Definition Matrix_RotationYawPitchRoll (yaw pitch roll : number) : M Matrix.t :=
  record (CallRotationYawPitchRoll yaw pitch roll) ;;
  mret (RotationYawPitchRoll yaw pitch roll).
Definition Matrix_Translation (x y z : number) : M Matrix.t :=
  record (CallTranslation x y z) ;; mret (Translation x y z).
Definition Matrix_multiply (this other : Matrix.t) : M Matrix.t :=
  record (CallMultiply this other) ;; mret (multiply this other).

(** The pixel coordinates computed by [project] from a transformed
    point. *)
Definition screen_x (width : N) (point : Vector3.t) : number :=
  js_add (js_mul (Vector3.x point) (of_N width)) (js_div (of_N width) (of_Z 2)).
Definition screen_y (height : N) (point : Vector3.t) : number :=
  js_add (js_mul (js_neg (Vector3.y point)) (of_N height))
         (js_div (of_N height) (of_Z 2)).

Definition project (coord : Vector3.t) (transMat : Matrix.t) : M Vector2.t :=
  record (CallProject coord transMat) ;;
  point ← Vector3_TransformCoordinates coord transMat;
  d ← gets device;
  let x := shr0 (screen_x (workingWidth d) point) in
  let y := shr0 (screen_y (workingHeight d) point) in
  mret (Vector2.mk x y).

(** [meshes[index]], with the error of reading a field of [undefined]. *)
Definition mesh_at (index : nat) : M Mesh.t :=
  ms ← gets meshes;
  match ms !! index with
  | Some cMesh => mret cMesh
  | None => throw TypeError
  end.

(** [cMesh.Vertices[indexVertices]] *)
Definition vertex_at (index indexVertices : nat) : M Vector3.t :=
  cMesh ← mesh_at index;
  match Mesh.Vertices cMesh !! indexVertices with
  | Some v => mret v
  | None => throw TypeError
  end.

(** The body of the loop over the vertices of [meshes[index]]. *)
Definition render_vertex (index : nat) (transformMatrix : Matrix.t)
    (indexVertices : nat) : M unit :=
  v ← vertex_at index indexVertices;
  projectedPoint ← project v transformMatrix;
  drawPoint projectedPoint.

(** The body of the loop over the meshes. *)
Definition render_mesh (viewMatrix projectionMatrix : Matrix.t) (index : nat)
    : M unit :=
  cMesh ← mesh_at index;
  rotation ← Matrix_RotationYawPitchRoll
               (Vector3.y (Mesh.Rotation cMesh))
               (Vector3.x (Mesh.Rotation cMesh))
               (Vector3.z (Mesh.Rotation cMesh));
  translation ← Matrix_Translation
                  (Vector3.x (Mesh.Position cMesh))
                  (Vector3.y (Mesh.Position cMesh))
                  (Vector3.z (Mesh.Position cMesh));
  worldMatrix ← Matrix_multiply rotation translation;
  worldView ← Matrix_multiply worldMatrix viewMatrix;
  transformMatrix ← Matrix_multiply worldView projectionMatrix;
  vertices ← (cMesh' ← mesh_at index; mret (length (Mesh.Vertices cMesh')));
  for_loop (S vertices)
    (fun indexVertices =>
       cMesh' ← mesh_at index;
       mret (indexVertices <? length (Mesh.Vertices cMesh'))%nat)
    (render_vertex index transformMatrix)
    O.

(** The constants of the projection: the literals [0.78], [0.01] and
    [1.0]. *)
Definition fov : number := round64 (78 # 100).
Definition znear : number := round64 (1 # 100).
Definition zfar : number := of_Z 1.

Definition render : M unit :=
  record CallRender ;;
  camera ← gets mera;
  up ← Vector3_Up;
  viewMatrix ← Matrix_LookAtLH (Camera.Position camera) (Camera.Target camera) up;
  d ← gets device;
  projectionMatrix ← Matrix_PerspectiveFovLH fov
                       (js_div (of_N (workingWidth d)) (of_N (workingHeight d)))
                       znear zfar;
  count ← gets (fun w => length (meshes w));
  for_loop (S count)
    (fun index => ms ← gets meshes; mret (index <? length ms)%nat)
    (render_mesh viewMatrix projectionMatrix)
    O.

End Engine.

(** ** The specification's reading of [render]

    The scene is read once; the two camera matrices are built once; the
    meshes and, inside each, the vertices are visited in sequence order. *)

Fixpoint for_each {A : Type} (f : A -> M unit) (l : list A) : M unit :=
  match l with
  | [] => mret tt
  | a :: l' => f a ;; for_each f l'
  end.

Section EngineSpec.

Variable TransformCoordinates : Vector3.t -> Matrix.t -> Vector3.t.
Variable LookAtLH : Vector3.t -> Vector3.t -> Vector3.t -> Matrix.t.
Variable PerspectiveFovLH : number -> number -> number -> number -> Matrix.t.
Variable RotationYawPitchRoll : number -> number -> number -> Matrix.t.
Variable Translation : number -> number -> number -> Matrix.t.
Variable multiply : Matrix.t -> Matrix.t -> Matrix.t.

(** Project and draw one vertex. *)
Definition draw_vertex_spec (transformMatrix : Matrix.t) (v : Vector3.t) : M unit :=
  projectedPoint ← project TransformCoordinates v transformMatrix;
  drawPoint projectedPoint.

(** world = rotation . translation; transform = world . view . projection;
    then every vertex in index order. *)
Definition draw_mesh_spec (viewMatrix projectionMatrix : Matrix.t) (mesh : Mesh.t)
    : M unit :=
  rotation ← Matrix_RotationYawPitchRoll RotationYawPitchRoll
               (Vector3.y (Mesh.Rotation mesh))
               (Vector3.x (Mesh.Rotation mesh))
               (Vector3.z (Mesh.Rotation mesh));
  translation ← Matrix_Translation Translation
                  (Vector3.x (Mesh.Position mesh))
                  (Vector3.y (Mesh.Position mesh))
                  (Vector3.z (Mesh.Position mesh));
  worldMatrix ← Matrix_multiply multiply rotation translation;
  worldView ← Matrix_multiply multiply worldMatrix viewMatrix;
  transformMatrix ← Matrix_multiply multiply worldView projectionMatrix;
  for_each (draw_vertex_spec transformMatrix) (Mesh.Vertices mesh).

Definition render_spec : M unit :=
  record CallRender ;;
  camera ← gets mera;
  up ← Vector3_Up;
  viewMatrix ← Matrix_LookAtLH LookAtLH
                 (Camera.Position camera) (Camera.Target camera) up;
  d ← gets device;
  projectionMatrix ← Matrix_PerspectiveFovLH PerspectiveFovLH fov
                       (js_div (of_N (workingWidth d)) (of_N (workingHeight d)))
                       znear zfar;
  ms ← gets meshes;
  for_each (draw_mesh_spec viewMatrix projectionMatrix) ms.

End EngineSpec.

(** ** Operations of the frame driver on a device *)

Inductive Op : Type :=
| OpClear
| OpPresent
| OpPutPixel (x y : number) (color : Color4.t)
| OpDrawPoint (point : Vector2.t)
| OpRender
| OpScene (cam : Camera.t) (ms : list Mesh.t).

(** Counting the recorded calls of one kind. *)
Definition is_LookAtLH (c : Call) : bool :=
  match c with CallLookAtLH _ _ _ => true | _ => false end.
Definition is_PerspectiveFovLH (c : Call) : bool :=
  match c with CallPerspectiveFovLH _ _ _ _ => true | _ => false end.
Definition is_PutPixel (c : Call) : bool :=
  match c with CallPutPixel _ _ _ => true | _ => false end.
Definition count_calls (p : Call -> bool) (l : list Call) : nat :=
  length (filter (fun c => p c = true) l).

(** ** Modelled from the spec: the algebraic part of [math.ts] *)

Module MathSpec.

(** Entry [i] of a matrix; a missing entry reads as [NaN]. *)
Definition entry (M : Matrix.t) (i : nat) : number :=
  default NaN (Matrix.m M !! i).

(** Modelled from the spec: [Vector3.TransformCoordinates] of the missing
    [math.ts] applies the matrix to the point taken as (x,y,z,1), a row
    vector as the order world . view . projection asks, and divides by
    the resulting w. *)
Definition TransformCoordinates (v : Vector3.t) (M : Matrix.t) : Vector3.t :=
  let along (c : nat) : number :=
    js_add (js_add (js_add (js_mul (Vector3.x v) (entry M c))
                           (js_mul (Vector3.y v) (entry M (4 + c))))
                   (js_mul (Vector3.z v) (entry M (8 + c))))
           (entry M (12 + c)) in
  let w := along 3%nat in
  Vector3.mk (js_div (along 0%nat) w) (js_div (along 1%nat) w) (js_div (along 2%nat) w).

(** Modelled from the spec: the identity matrix of the missing [math.ts],
    which leaves every point unchanged. *)
Definition Identity : Matrix.t :=
  Matrix.mk (map of_Z [1; 0; 0; 0;  0; 1; 0; 0;  0; 0; 1; 0;  0; 0; 0; 1]).

End MathSpec.

(** * Vocabulary of the properties *)

(** ** The world after [putPixel], stage by stage *)

Definition store_world (l : loc) (index byte : Z) (w : World) : World :=
  set_arrays (alter (write_byte index byte) l (arrays w)) w.

Definition assign_data_world (l : loc) (w : World) : World :=
  set_device (mkDevice (workingWidth (device w)) (workingHeight (device w))
                       (backbuffer (device w)) (Some l)) w.

(** The byte stored for a colour channel. *)
Definition channel_byte (c : number) : Z := ToUint8Clamp (js_mul c (of_Z 255)).

Definition putPixel_world (l : loc) (x y : number) (color : Color4.t) (w : World) : World :=
  let index := pixel_index (workingWidth (device w)) x y in
  store_world l (index + 3) (channel_byte (Color4.a color))
    (store_world l (index + 2) (channel_byte (Color4.b color))
      (store_world l (index + 1) (channel_byte (Color4.g color))
        (store_world l index (channel_byte (Color4.r color))
          (assign_data_world l (add_call (CallPutPixel x y color) w))))).

(** A relation between worlds that is kept by the steps of the drawing
    methods: recording a call other than the construction of a camera matrix,
    pointing [backbufferdata] at the back buffer, and storing a byte through
    [backbufferdata]. *)
Class Kept (R : World -> World -> Prop) : Prop := {
  R_refl : forall w, R w w;
  R_trans : forall w1 w2 w3, R w1 w2 -> R w2 w3 -> R w1 w3;
  R_call : forall c w,
    is_LookAtLH c = false -> is_PerspectiveFovLH c = false -> R w (add_call c w);
  R_assign_data : forall l w,
    backbuffer (device w) = Some l ->
    R w (set_device (mkDevice (workingWidth (device w)) (workingHeight (device w))
                              (backbuffer (device w)) (Some l)) w);
  R_store : forall l index byte w,
    backbufferdata (device w) = Some l ->
    R w (set_arrays (alter (write_byte index byte) l (arrays w)) w)
}.

(** A computation is stable for [R] when the world it stops in is related
    to the one it started from. *)
Definition stable (R : World -> World -> Prop) {A : Type} (c : M A) : Prop :=
  forall w, match c w with
            | Ok _ w' => R w w'
            | Throw _ w' => R w w'
            | OutOfFuel => True
            end.

(** The scene objects are the same in both worlds. *)
Definition same_scene (w w' : World) : Prop :=
  mera w' = mera w /\ meshes w' = meshes w.

(** The recorded calls of the kind [p] are as many in both worlds. *)
Definition same_count (p : Call -> bool) (w w' : World) : Prop :=
  count_calls p (calls w') = count_calls p (calls w).

(** A computation that never exhausts the bound of a loop. *)
Definition returns {A : Type} (c : M A) : Prop :=
  forall w, c w <> OutOfFuel.

(** The four stores of [putPixel] on the contents of one array. *)
Definition put4 (index : Z) (r g b a : Z) (data : list Z) : list Z :=
  write_byte (index + 3) a
    (write_byte (index + 2) b
      (write_byte (index + 1) g
        (write_byte index r data))).

(** Byte [j] of the array at [l], when both exist. *)
Definition byte_at (w : World) (l : loc) (j : nat) : option Z :=
  data ← arrays w !! l; data !! j.

(** The range in which [ToInt32] is plain truncation. *)
Definition in_int32 (q : Q) : Prop :=
  (inject_Z (- two31) - 1 < q)%Q /\ (q < inject_Z two31)%Q.

(** What [>> 0] makes of [a]: a 32-bit integer [n], which is 0 when [a] is
    not finite and otherwise the integral part of [a] up to a multiple of
    2^32, the integral part itself when [a] is of magnitude below 2^31. *)
Definition shr0_of (a : number) (n : Z) : Prop :=
  - two31 <= n < two31
  /\ match a with
     | Fin q => (exists k : Z, n = truncate q + k * two32)
                /\ (in_int32 q -> n = truncate q)
     | _ => n = 0
     end.

(** The specification's reading of the cell of [putPixel]: the coordinates
    are truncated toward zero, whatever they are. *)
Definition putPixel_by_truncation (w : World) (l : loc) (x y : number)
    (color : Color4.t) : Prop :=
  forall (qx qy : Q) (data : list Z),
    x = Fin qx -> y = Fin qy -> arrays w !! l = Some data ->
    let index := ((truncate qy * Z.of_N (workingWidth (device w))) + truncate qx) * 4 in
    exists w',
      putPixel x y color w = Ok tt w'
      /\ arrays w' !! l
         = Some (put4 index (channel_byte (Color4.r color)) (channel_byte (Color4.g color))
                      (channel_byte (Color4.b color)) (channel_byte (Color4.a color)) data).

(** A 2 x 2 device after its first [clear], used to run the methods on
    concrete inputs. *)
Definition cleared_2x2 : World :=
  final_world (clear (init_world 2 2 Camera.new [])) (init_world 2 2 Camera.new []).


(** [b] is an integer nearest to [v], the even one when two are as near. *)
Definition nearest_even (v : Q) (b : Z) : Prop :=
  (inject_Z b - (1 # 2) <= v)%Q /\ (v <= inject_Z b + (1 # 2))%Q
  /\ ((v == inject_Z b - (1 # 2))%Q \/ (v == inject_Z b + (1 # 2))%Q -> Z.even b = true).

(** [v] is the binary64 product of a channel [q] and 255, for a channel in
    [0, 1]: it lies in [0, 255], within 2^-46 of the exact product. *)
Definition channel_product (q v : Q) : Prop :=
  js_mul (Fin q) (of_Z 255) = Fin v
  /\ (0 <= v)%Q /\ (v <= 255)%Q
  /\ (q * 255 - 2 ^ (-46) <= v)%Q /\ (v <= q * 255 + 2 ^ (-46))%Q.

(** The specification's reading of the byte of a channel: the channel times
    255, truncated. *)
Definition truncated_byte (c : number) : option Z :=
  match js_mul c (of_Z 255) with
  | Fin v => Some (truncate v)
  | _ => None
  end.

(** The specification's reading of the stored bytes. *)
Definition putPixel_truncates (w : World) (l : loc) (x y : Z) (color : Color4.t) : Prop :=
  let index := Z.to_nat (((y * Z.of_N (workingWidth (device w))) + x) * 4) in
  exists w',
    putPixel (of_Z x) (of_Z y) color w = Ok tt w'
    /\ byte_at w' l index = truncated_byte (Color4.r color)
    /\ byte_at w' l (index + 1) = truncated_byte (Color4.g color)
    /\ byte_at w' l (index + 2) = truncated_byte (Color4.b color)
    /\ byte_at w' l (index + 3) = truncated_byte (Color4.a color).

(** ** The calls of one [render], as data *)

Section EngineCalls.

Variable TransformCoordinates : Vector3.t -> Matrix.t -> Vector3.t.
Variable LookAtLH : Vector3.t -> Vector3.t -> Vector3.t -> Matrix.t.
Variable PerspectiveFovLH : number -> number -> number -> number -> Matrix.t.
Variable RotationYawPitchRoll : number -> number -> number -> Matrix.t.
Variable Translation : number -> number -> number -> Matrix.t.
Variable multiply : Matrix.t -> Matrix.t -> Matrix.t.

(** rotation, from yaw = Rotation.y, pitch = Rotation.x, roll = Rotation.z *)
Definition rotation_matrix (mesh : Mesh.t) : Matrix.t :=
  RotationYawPitchRoll (Vector3.y (Mesh.Rotation mesh))
                       (Vector3.x (Mesh.Rotation mesh))
                       (Vector3.z (Mesh.Rotation mesh)).

(** translation, from Position *)
Definition translation_matrix (mesh : Mesh.t) : Matrix.t :=
  Translation (Vector3.x (Mesh.Position mesh))
              (Vector3.y (Mesh.Position mesh))
              (Vector3.z (Mesh.Position mesh)).

(** world = rotation . translation *)
Definition world_matrix (mesh : Mesh.t) : Matrix.t :=
  multiply (rotation_matrix mesh) (translation_matrix mesh).

(** transform = (world . view) . projection *)
Definition transform_matrix (viewMatrix projectionMatrix : Matrix.t) (mesh : Mesh.t)
    : Matrix.t :=
  multiply (multiply (world_matrix mesh) viewMatrix) projectionMatrix.

Definition view_matrix (camera : Camera.t) : Matrix.t :=
  LookAtLH (Camera.Position camera) (Camera.Target camera) Vector3.Up.

Definition projection_matrix (d : Device) : Matrix.t :=
  PerspectiveFovLH fov (js_div (of_N (workingWidth d)) (of_N (workingHeight d)))
                   znear zfar.

(** The point of the screen on which a vertex falls. *)
Definition screen_point (d : Device) (transformMatrix : Matrix.t) (v : Vector3.t)
    : Vector2.t :=
  Vector2.mk
    (shr0 (screen_x (workingWidth d) (TransformCoordinates v transformMatrix)))
    (shr0 (screen_y (workingHeight d) (TransformCoordinates v transformMatrix))).

(** The calls made for one vertex: it is projected, then drawn, and
    [putPixel] is reached when the point is on the screen. *)
Definition vertex_calls (d : Device) (transformMatrix : Matrix.t) (v : Vector3.t)
    : list Call :=
  let point := screen_point d transformMatrix v in
  [CallProject v transformMatrix;
   CallTransformCoordinates v transformMatrix;
   CallDrawPoint point]
  ++ (if on_screen d point
      then [CallPutPixel (Vector2.x point) (Vector2.y point) yellow]
      else []).

(** The calls made for one mesh: its matrices, then its vertices in index
    order. *)
Definition mesh_calls (d : Device) (viewMatrix projectionMatrix : Matrix.t)
    (mesh : Mesh.t) : list Call :=
  [CallRotationYawPitchRoll (Vector3.y (Mesh.Rotation mesh))
                            (Vector3.x (Mesh.Rotation mesh))
                            (Vector3.z (Mesh.Rotation mesh));
   CallTranslation (Vector3.x (Mesh.Position mesh))
                   (Vector3.y (Mesh.Position mesh))
                   (Vector3.z (Mesh.Position mesh));
   CallMultiply (rotation_matrix mesh) (translation_matrix mesh);
   CallMultiply (world_matrix mesh) viewMatrix;
   CallMultiply (multiply (world_matrix mesh) viewMatrix) projectionMatrix]
  ++ concat (map (vertex_calls d (transform_matrix viewMatrix projectionMatrix mesh))
                 (Mesh.Vertices mesh)).

(** The calls of one whole [render]: the camera matrices once, then the
    meshes in sequence order. *)
Definition render_calls (w : World) : list Call :=
  [CallRender;
   CallUp;
   CallLookAtLH (Camera.Position (mera w)) (Camera.Target (mera w)) Vector3.Up;
   CallPerspectiveFovLH fov
     (js_div (of_N (workingWidth (device w))) (of_N (workingHeight (device w))))
     znear zfar]
  ++ concat (map (mesh_calls (device w) (view_matrix (mera w))
                             (projection_matrix (device w)))
                 (meshes w)).

End EngineCalls.

(** What the drawing methods leave as it is: the size of the device, its
    back buffer reference, and the scene. *)
Definition keep (w w' : World) : Prop :=
  workingWidth (device w') = workingWidth (device w)
  /\ workingHeight (device w') = workingHeight (device w)
  /\ backbuffer (device w') = backbuffer (device w)
  /\ mera w' = mera w
  /\ meshes w' = meshes w.

(** The computation [c], started in [w], records the calls [tr] and returns,
    or stops on the way because the device has no back buffer. *)
Definition logs {A : Type} (c : M A) (w : World) (tr : list Call) : Prop :=
  match c w with
  | Ok _ w' => calls w' = calls w ++ tr /\ keep w w'
  | Throw e w' =>
      e = TypeError /\ backbuffer (device w) = None
      /\ (exists rest, calls w' ++ rest = calls w ++ tr) /\ keep w w'
  | OutOfFuel => False
  end.

(** ** Sequences of operations on a device *)

Section Driver.

Variable TransformCoordinates : Vector3.t -> Matrix.t -> Vector3.t.
Variable LookAtLH : Vector3.t -> Vector3.t -> Vector3.t -> Matrix.t.
Variable PerspectiveFovLH : number -> number -> number -> number -> Matrix.t.
Variable RotationYawPitchRoll : number -> number -> number -> Matrix.t.
Variable Translation : number -> number -> number -> Matrix.t.
Variable multiply : Matrix.t -> Matrix.t -> Matrix.t.
Variable lossy : Lossy.

Definition run_op (op : Op) : M unit :=
  match op with
  | OpClear => clear
  | OpPresent => present lossy
  | OpPutPixel x y color => putPixel x y color
  | OpDrawPoint point => drawPoint point
  | OpRender => render TransformCoordinates LookAtLH PerspectiveFovLH
                       RotationYawPitchRoll Translation multiply
  | OpScene cam ms =>
      modify (fun w => mkWorld (canvas w) (device w) (arrays w) cam ms (calls w))
  end.

(** The world after a sequence of operations, each started where the one
    before it stopped, normally or by an exception. *)
Fixpoint run_ops (ops : list Op) (w : World) : World :=
  match ops with
  | [] => w
  | op :: ops' => run_ops ops' (final_world (run_op op w) w)
  end.

End Driver.

(** The device has the given size, every array allocated for it has the
    bytes of an image of that size, and its two references name allocated
    arrays. *)
Definition sized (width height : N) (w : World) : Prop :=
  workingWidth (device w) = width
  /\ workingHeight (device w) = height
  /\ Forall (fun data => length data = image_bytes width height) (arrays w)
  /\ (forall l, backbuffer (device w) = Some l -> (l < length (arrays w))%nat)
  /\ (forall l, backbufferdata (device w) = Some l -> (l < length (arrays w))%nat).

Definition keeps_sized (width height : N) (w w' : World) : Prop :=
  sized width height w -> sized width height w'.

(** The world in which [clear] stops, when the device has no empty side. *)
Definition clear_world (w : World) : World :=
  set_device (mkDevice (workingWidth (device w)) (workingHeight (device w))
                       (Some (length (arrays w))) (backbufferdata (device w)))
    (set_arrays (arrays w ++ [replicate (image_bytes (workingWidth (device w))
                                                     (workingHeight (device w))) 0])
       (set_canvas (replicate (length (canvas w)) 0) (add_call CallClear w))).


(** * The frame driver and the picture *)

(** ** [init] and [drawingLoop] *)

(** The mesh that [init] builds: ["Cube"], its eight vertices assigned one by
    one into the array made by [new Array(8)], no rotation, at the origin. *)
Definition cube : Mesh.t :=
  Mesh.mk "Cube" Vector3.Zero Vector3.Zero
    [Vector3.mk (of_Z (-1)) (of_Z 1) (of_Z 1);
     Vector3.mk (of_Z 1) (of_Z 1) (of_Z 1);
     Vector3.mk (of_Z (-1)) (of_Z (-1)) (of_Z 1);
     Vector3.mk (of_Z (-1)) (of_Z (-1)) (of_Z (-1));
     Vector3.mk (of_Z (-1)) (of_Z 1) (of_Z (-1));
     Vector3.mk (of_Z 1) (of_Z 1) (of_Z (-1));
     Vector3.mk (of_Z 1) (of_Z (-1)) (of_Z 1);
     Vector3.mk (of_Z 1) (of_Z (-1)) (of_Z (-1))].

(** The world that [init] leaves for a canvas of the given size: the cube as
    only mesh, the camera at (0, 0, 10) looking at the origin, and a device
    that has not cleared yet. *)
Definition init (width height : N) : World :=
  init_world width height
    (Camera.mk (Vector3.mk (of_Z 0) (of_Z 0) (of_Z 10))
               (Vector3.mk (of_Z 0) (of_Z 0) (of_Z 0)))
    [cube].

(** The literal [0.01]. *)
Definition rotation_step : number := round64 (1 # 100).

(** [mesh.Rotation.x += 0.01; mesh.Rotation.y += 0.01] on one mesh. *)
Definition rotate (mesh : Mesh.t) : Mesh.t :=
  Mesh.mk (Mesh.name mesh) (Mesh.Position mesh)
    (Vector3.mk (js_add (Vector3.x (Mesh.Rotation mesh)) rotation_step)
                (js_add (Vector3.y (Mesh.Rotation mesh)) rotation_step)
                (Vector3.z (Mesh.Rotation mesh)))
    (Mesh.Vertices mesh).

(** The global [mesh] is the object that [init] pushed on [meshes], its
    first element; before [init] it is undefined, and reading its
    [Rotation] throws. *)
Definition rotate_mesh : M unit :=
  ms ← gets meshes;
  match ms with
  | [] => throw TypeError
  | mesh :: rest =>
      modify (fun w => mkWorld (canvas w) (device w) (arrays w) (mera w)
                               (rotate mesh :: rest) (calls w))
  end.

Section Frames.

Variable TransformCoordinates : Vector3.t -> Matrix.t -> Vector3.t.
Variable LookAtLH : Vector3.t -> Vector3.t -> Vector3.t -> Matrix.t.
Variable PerspectiveFovLH : number -> number -> number -> number -> Matrix.t.
Variable RotationYawPitchRoll : number -> number -> number -> Matrix.t.
Variable Translation : number -> number -> number -> Matrix.t.
Variable multiply : Matrix.t -> Matrix.t -> Matrix.t.
Variable lossy : Lossy.

(** One run of [drawingLoop], up to its [requestAnimationFrame]. *)
Definition drawingLoop : M unit :=
  clear ;;
  rotate_mesh ;;
  render TransformCoordinates LookAtLH PerspectiveFovLH RotationYawPitchRoll
         Translation multiply ;;
  present lossy.

(** The first [n] frames: [requestAnimationFrame(drawingLoop)] is the last
    statement of a frame, so the next frame is asked for only when this one
    has ended normally. *)
Fixpoint animation (n : nat) : M unit :=
  match n with
  | O => mret tt
  | S n' => drawingLoop ;; animation n'
  end.

End Frames.

(** ** Pixels of a buffer *)

(** The four cells of pixel [k] of a buffer. *)
Definition pixel (data : list Z) (k : nat) : list (option Z) :=
  [data !! (4 * k)%nat; data !! (4 * k + 1)%nat;
   data !! (4 * k + 2)%nat; data !! (4 * k + 3)%nat].

Definition blank_pixel : list (option Z) := [Some 0; Some 0; Some 0; Some 0].
Definition yellow_pixel : list (option Z) := [Some 255; Some 255; Some 0; Some 255].

(** Every pixel of [data'] is the one of [data] or is yellow. *)
Definition painted (data data' : list Z) : Prop :=
  length data' = length data
  /\ forall k : nat, pixel data' k = pixel data k \/ pixel data' k = yellow_pixel.

(** A relation between worlds that is kept by recording any call and by one
    whole [putPixel] of a yellow point with integer coordinates on the screen
    of a device that has a back buffer. *)
Class KeptDraw (R : World -> World -> Prop) : Prop := {
  D_refl : forall w, R w w;
  D_trans : forall w1 w2 w3, R w1 w2 -> R w2 w3 -> R w1 w3;
  D_call : forall c w, R w (add_call c w);
  D_pixel : forall (l : loc) (x y : Z) (w : World),
    backbuffer (device w) = Some l ->
    0 <= x < Z.of_N (workingWidth (device w)) ->
    0 <= y < Z.of_N (workingHeight (device w)) ->
    x < two31 -> y < two31 ->
    R w (putPixel_world l (of_Z x) (of_Z y) yellow w)
}.

(** What drawing does between two worlds: the canvas, the scene, the size of
    the device and its back buffer reference are the same; every array but
    the back buffer is the same; and a back buffer of the size of the device
    is painted. *)
Definition drawn (w w' : World) : Prop :=
  canvas w' = canvas w
  /\ mera w' = mera w
  /\ meshes w' = meshes w
  /\ workingWidth (device w') = workingWidth (device w)
  /\ workingHeight (device w') = workingHeight (device w)
  /\ backbuffer (device w') = backbuffer (device w)
  /\ length (arrays w') = length (arrays w)
  /\ (forall l' : loc, backbuffer (device w) <> Some l' ->
        arrays w' !! l' = arrays w !! l')
  /\ (forall (l : loc) (data : list Z),
        backbuffer (device w) = Some l ->
        arrays w !! l = Some data ->
        length data = image_bytes (workingWidth (device w)) (workingHeight (device w)) ->
        exists data', arrays w' !! l = Some data' /\ painted data data').

(** The world in which a computation started in [w] stops. *)
Definition after {A : Type} (c : M A) (w : World) : World :=
  final_world (c w) w.

(** The world after [init] on a 2 x 2 canvas and a first [clear], used to
    run the frame driver on concrete inputs. *)
Definition cleared_cube_2x2 : World := after clear (init 2 2).

(** What [drawPoint] of [point] does to the contents of the back buffer of a
    device like [d]. *)
Definition point_stores (d : Device) (point : Vector2.t) (data : list Z) : list Z :=
  if on_screen d point
  then put4 (pixel_index (workingWidth d) (Vector2.x point) (Vector2.y point))
            (channel_byte (Color4.r yellow)) (channel_byte (Color4.g yellow))
            (channel_byte (Color4.b yellow)) (channel_byte (Color4.a yellow)) data
  else data.

(** A number that is neither [NaN] nor an infinity. *)
Definition is_finite (a : number) : bool :=
  match a with
  | Fin _ => true
  | _ => false
  end.

(** The canvas has as many cells in both worlds. *)
Definition same_canvas_length (w w' : World) : Prop :=
  length (canvas w') = length (canvas w).

(** ** Bytes *)

(** Every cell holds a value of a byte. *)
Definition bytes (data : list Z) : Prop :=
  Forall (fun b => 0 <= b <= 255) data.

(** Every array of the world and its canvas hold bytes. *)
Definition all_bytes (w : World) : Prop :=
  Forall bytes (arrays w) /\ bytes (canvas w).

Definition keeps_bytes (w w' : World) : Prop :=
  all_bytes w -> all_bytes w'.

(** The byte [b] stored for the channel [c]: in 0..255, with channels out of
    [0, 1] saturated and [NaN] turned into 0. *)
Definition saturated (c : number) (b : Z) : Prop :=
  0 <= b <= 255
  /\ match c with
     | Fin q => ((q <= 0)%Q -> b = 0) /\ ((1 <= q)%Q -> b = 255)
     | NaN => b = 0
     | PosInf => b = 255
     | NegInf => b = 0
     end.

(** ** The picture of a scene *)

Section Picture.

Variable TransformCoordinates : Vector3.t -> Matrix.t -> Vector3.t.
Variable LookAtLH : Vector3.t -> Vector3.t -> Vector3.t -> Matrix.t.
Variable PerspectiveFovLH : number -> number -> number -> number -> Matrix.t.
Variable RotationYawPitchRoll : number -> number -> number -> Matrix.t.
Variable Translation : number -> number -> number -> Matrix.t.
Variable multiply : Matrix.t -> Matrix.t -> Matrix.t.

(** The points of the screen on which the vertices of a mesh fall, in index
    order. *)
Definition mesh_points (d : Device) (viewMatrix projectionMatrix : Matrix.t)
    (mesh : Mesh.t) : list Vector2.t :=
  map (screen_point TransformCoordinates d
         (transform_matrix RotationYawPitchRoll Translation multiply
                           viewMatrix projectionMatrix mesh))
      (Mesh.Vertices mesh).

(** The points of the screen on which the vertices of the scene fall, mesh
    after mesh. *)
Definition scene_points (w : World) : list Vector2.t :=
  concat (map (mesh_points (device w) (view_matrix LookAtLH (mera w))
                           (projection_matrix PerspectiveFovLH (device w)))
              (meshes w)).

End Picture.

(** The point passes the test of [drawPoint] and the cell that [putPixel]
    computes for it is the first one of pixel [k]. *)
Definition hits (d : Device) (k : nat) (point : Vector2.t) : bool :=
  on_screen d point
  && (pixel_index (workingWidth d) (Vector2.x point) (Vector2.y point)
      =? Z.of_nat (4 * k)).

(** The stores of a sequence of points, first to last. *)
Definition stores_of (d : Device) (points : list Vector2.t) (data : list Z) : list Z :=
  fold_left (fun acc point => point_stores d point acc) points data.

(** The computation [c], started in [w] on a device whose back buffer is [l],
    returns, and the back buffer gets the stores of [points]. *)
Definition draws (c : M unit) (w : World) (l : loc) (points : list Vector2.t) : Prop :=
  exists w',
    c w = Ok tt w' /\ keep w w'
    /\ arrays w' = alter (stores_of (device w) points) l (arrays w).

(** A point whose coordinates are 32-bit integers. *)
Definition int_point (point : Vector2.t) : Prop :=
  exists nx ny : Z,
    point = Vector2.mk (of_Z nx) (of_Z ny)
    /\ - two31 <= nx < two31 /\ - two31 <= ny < two31.

(** The scene with its meshes replaced. *)
Definition with_meshes (ms : list Mesh.t) (w : World) : World :=
  mkWorld (canvas w) (device w) (arrays w) (mera w) ms (calls w).

(** ** Drawing without a back buffer *)

(** Only the recorded calls differ between the two worlds. *)
Definition only_calls (w w' : World) : Prop :=
  canvas w' = canvas w /\ device w' = device w /\ arrays w' = arrays w
  /\ mera w' = mera w /\ meshes w' = meshes w.

(** The computation [c], started in [w], returns when none of [points] passes
    the test of [drawPoint] and throws a TypeError when one does, in its
    [putPixel]; either way only the recorded calls change. *)
Definition stops_at (c : M unit) (w : World) (points : list Vector2.t) : Prop :=
  match c w with
  | Ok _ w' => existsb (on_screen (device w)) points = false /\ only_calls w w'
  | Throw e w' =>
      e = TypeError /\ existsb (on_screen (device w)) points = true /\ only_calls w w'
      /\ exists x y, last (calls w') = Some (CallPutPixel x y yellow)
  | OutOfFuel => False
  end.

(** * Properties *)

(** ** Numbers and conversions *)

Example ToInt32_rounds_toward_zero : ToInt32 (Fin (-1 # 2)) = 0 /\ ToInt32 (Fin (-7 # 2)) = -3.
Proof. split; reflexivity. Qed.

Example ToInt32_wraps : ToInt32 (of_Z (2 ^ 32 + 5)) = 5 /\ ToInt32 (of_Z (2 ^ 31)) = - 2 ^ 31.
Proof. split; reflexivity. Qed.

Example ToInt32_not_finite : ToInt32 NaN = 0 /\ ToInt32 PosInf = 0.
Proof. split; reflexivity. Qed.

Example ToUint8Clamp_rounds :
  ToUint8Clamp (Fin (1019 # 4)) = 255
  /\ ToUint8Clamp (Fin (5 # 2)) = 2 /\ ToUint8Clamp (Fin (7 # 2)) = 4
  /\ ToUint8Clamp (Fin (-3)) = 0 /\ ToUint8Clamp (Fin 300) = 255.
Proof. repeat split; reflexivity. Qed.

Example division_by_zero :
  js_div (of_Z 800) (of_Z 0) = PosInf /\ js_div (of_Z 0) (of_Z 0) = NaN.
Proof. split; reflexivity. Qed.

(** ** Rounding to binary64 *)

Example round64_literals :
  round64 (1 # 10) = Fin (3602879701896397 # 36028797018963968)
  /\ round64 (1 # 2) = Fin (1 # 2)
  /\ round64 (inject_Z (2 ^ 53 + 1)) = Fin (inject_Z (2 ^ 53))
  /\ round64 (inject_Z (2 ^ 1024)) = PosInf
  /\ round64 (1 # 2 ^ 1075) = Fin 0.
Proof. repeat split; vm_compute; reflexivity. Qed.

(** [0.1 + 0.2] is [0.30000000000000004]; [-0.4 * 800 + 800 / 2] is [80];
    [1.5 / 255 * 255] is [1.5]; six additions of [0.01] to [0] give
    [0.060000000000000005], which is not the literal [0.06]. *)
Example binary64_arithmetic :
  js_add (round64 (1 # 10)) (round64 (2 # 10))
  = round64 (30000000000000004 # 100000000000000000)
  /\ js_add (js_mul (round64 (-4 # 10)) (of_Z 800)) (js_div (of_Z 800) (of_Z 2))
     = of_Z 80
  /\ js_mul (js_div (Fin (3 # 2)) (of_Z 255)) (of_Z 255) = Fin (3 # 2)
  /\ Nat.iter 6 (fun a => js_add a (round64 (1 # 100))) (of_Z 0)
     = round64 (60000000000000005 # 1000000000000000000)
  /\ Nat.iter 6 (fun a => js_add a (round64 (1 # 100))) (of_Z 0)
     <> round64 (6 # 100).
Proof. repeat split; vm_compute; try reflexivity. discriminate. Qed.

(** On the sample values the quotients, and the sums, products and quotients
    of any two of them, are those of [SpecFloat]. *)
Example round64_agrees_with_SpecFloat :
  forallb (fun p => number_eqb (of_spec_float (spec_quotient p)) (js_quotient p))
          sample_quotients = true
  /\ (let values := map spec_quotient (firstn 30 sample_quotients) ++ sample_extremes in
      forallb (fun x => forallb (agree_on x) values) values = true).
Proof. split; vm_compute; reflexivity. Qed.

Lemma Qfloor_bounds (v : Q) :
  (inject_Z (Qfloor v) <= v)%Q /\ (v < inject_Z (Qfloor v) + 1)%Q.
Proof.
  split; [apply Qfloor_le |].
  pose proof (Qlt_floor v) as H. rewrite inject_Z_plus in H. exact H.
Qed.

Lemma Qround_even_comp (p q : Q) : (p == q)%Q -> Qround_even p = Qround_even q.
Proof.
  intros H. unfold Qround_even. rewrite (Qfloor_comp _ _ H).
  rewrite H. reflexivity.
Qed.

Lemma Qround_even_Z (k : Z) : Qround_even (inject_Z k) = k.
Proof.
  unfold Qround_even. rewrite Qfloor_Z.
  assert (inject_Z k < inject_Z k + (1 # 2))%Q as H by lra.
  rewrite (proj1 (Qlt_alt _ _) H). reflexivity.
Qed.

Lemma Qround_even_near (q : Q) :
  (inject_Z (Qround_even q) - (1 # 2) <= q)%Q
  /\ (q <= inject_Z (Qround_even q) + (1 # 2))%Q.
Proof.
  destruct (Qfloor_bounds q) as [H1 H2]. unfold Qround_even.
  destruct (q ?= inject_Z (Qfloor q) + (1 # 2))%Q eqn:E.
  - apply <- Qeq_alt in E. destruct (Z.even (Qfloor q)).
    + split; lra.
    + rewrite inject_Z_plus. change (inject_Z 1) with 1%Q. split; lra.
  - apply <- Qlt_alt in E. split; lra.
  - apply <- Qgt_alt in E. rewrite inject_Z_plus. change (inject_Z 1) with 1%Q. split; lra.
Qed.

Lemma Qround_even_mono (p q : Q) : (p <= q)%Q -> Qround_even p <= Qround_even q.
Proof.
  intros H. pose proof (Qfloor_resp_le p q H) as Hf.
  destruct (Qfloor_bounds p) as [P1 P2]. destruct (Qfloor_bounds q) as [Q1 Q2].
  unfold Qround_even.
  destruct (Z.eq_dec (Qfloor p) (Qfloor q)) as [E | N].
  - rewrite E in *.
    destruct (p ?= inject_Z (Qfloor q) + (1 # 2))%Q eqn:Ep;
      destruct (q ?= inject_Z (Qfloor q) + (1 # 2))%Q eqn:Eq;
      first [apply <- Qeq_alt in Ep | apply <- Qlt_alt in Ep | apply <- Qgt_alt in Ep];
      first [apply <- Qeq_alt in Eq | apply <- Qlt_alt in Eq | apply <- Qgt_alt in Eq];
      try (exfalso; lra); destruct (Z.even (Qfloor q)); lia.
  - destruct (p ?= inject_Z (Qfloor p) + (1 # 2))%Q;
      destruct (q ?= inject_Z (Qfloor q) + (1 # 2))%Q;
      destruct (Z.even (Qfloor p)); destruct (Z.even (Qfloor q)); lia.
Qed.

(** Powers of two. *)
Lemma pow2_pos (e : Z) : (0 < 2 ^ e)%Q.
Proof. apply Qpower_0_lt. reflexivity. Qed.

Lemma pow2_plus (a b : Z) : (2 ^ (a + b) == 2 ^ a * 2 ^ b)%Q.
Proof. apply Qpower_plus. discriminate. Qed.

Lemma pow2_le (a b : Z) : a <= b -> (2 ^ a <= 2 ^ b)%Q.
Proof. intros H. apply Qpower_le_compat_l; [exact H | discriminate]. Qed.

Lemma pow2_lt_inv (a b : Z) : (2 ^ a < 2 ^ b)%Q -> a < b.
Proof. intros H. apply (Qpower_lt_compat_l_inv 2); [exact H | reflexivity]. Qed.

Lemma pow2_Z (a : Z) : 0 <= a -> (2 ^ a == inject_Z (2 ^ a))%Q.
Proof. intros H. rewrite (Zpower_Qpower 2 a H). reflexivity. Qed.

Lemma Qle_frac (A B : Z) (q : Q) :
  0 < B -> A * Zpos (Qden q) <= Qnum q * B -> (inject_Z A / inject_Z B <= q)%Q.
Proof.
  intros HB H. apply Qle_shift_div_r.
  - change 0%Q with (inject_Z 0). rewrite <- Zlt_Qlt. exact HB.
  - destruct q as [n d]. unfold Qle, Qmult, inject_Z. simpl in *. lia.
Qed.

Lemma Qlt_frac (A B : Z) (q : Q) :
  0 < B -> Qnum q * B < A * Zpos (Qden q) -> (q < inject_Z A / inject_Z B)%Q.
Proof.
  intros HB H. apply Qlt_shift_div_l.
  - change 0%Q with (inject_Z 0). rewrite <- Zlt_Qlt. exact HB.
  - destruct q as [n d]. unfold Qlt, Qmult, inject_Z. simpl in *. lia.
Qed.

Lemma pow2_frac (a b : Z) :
  0 <= a -> 0 <= b -> (2 ^ (a - b) == inject_Z (2 ^ a) / inject_Z (2 ^ b))%Q.
Proof.
  intros Ha Hb. rewrite <- !pow2_Z by assumption.
  apply Qpower_minus. discriminate.
Qed.

Lemma Qilog2_spec (q : Q) :
  (0 < q)%Q -> (2 ^ Qilog2 q <= q)%Q /\ (q < 2 ^ (Qilog2 q + 1))%Q.
Proof.
  intros Hq. unfold Qilog2.
  assert (0 < Qnum q) as Hn.
  { destruct q as [n d]. unfold Qlt in Hq. simpl in *. lia. }
  set (a := Z.log2 (Qnum q)). set (b := Z.log2 (Zpos (Qden q))).
  destruct (Z.log2_spec (Qnum q) Hn) as [A1 A2].
  destruct (Z.log2_spec (Zpos (Qden q)) ltac:(lia)) as [B1 B2].
  fold a in A1, A2. fold b in B1, B2.
  assert (0 <= a) as Ha by apply Z.log2_nonneg.
  assert (0 <= b) as Hb by apply Z.log2_nonneg.
  assert (0 < 2 ^ a) as Pa by (apply Z.pow_pos_nonneg; lia).
  assert (0 < 2 ^ b) as Pb by (apply Z.pow_pos_nonneg; lia).
  assert (q < 2 ^ (a - b + 1))%Q as Hup.
  { replace (a - b + 1) with (Z.succ a - b) by lia.
    rewrite pow2_frac by lia. apply Qlt_frac; [exact Pb |]. nia. }
  assert (2 ^ (a - b - 1) <= q)%Q as Hlo.
  { replace (a - b - 1) with (a - Z.succ b) by lia.
    rewrite pow2_frac by lia. apply Qle_frac; [lia |]. nia. }
  destruct (Qle_bool (2 ^ (a - b)) q) eqn:E.
  - apply Qle_bool_iff in E. split; assumption.
  - replace (a - b - 1 + 1) with (a - b) by lia. split; [exact Hlo |].
    apply Qnot_le_lt. intros H. apply Qle_bool_iff in H. congruence.
Qed.

Lemma Qilog2_mono (p q : Q) : (0 < p)%Q -> (p <= q)%Q -> Qilog2 p <= Qilog2 q.
Proof.
  intros Hp H.
  destruct (Qilog2_spec p Hp) as [P1 _].
  destruct (Qilog2_spec q ltac:(lra)) as [_ Q2].
  assert (2 ^ Qilog2 p < 2 ^ (Qilog2 q + 1))%Q as Hlt by lra.
  apply pow2_lt_inv in Hlt. lia.
Qed.

Lemma Qilog2_comp (p q : Q) : (0 < p)%Q -> (p == q)%Q -> Qilog2 p = Qilog2 q.
Proof.
  intros Hp H. apply Z.le_antisymm; apply Qilog2_mono; lra.
Qed.

Lemma exponent64_mono (p q : Q) : (0 < p)%Q -> (p <= q)%Q -> exponent64 p <= exponent64 q.
Proof.
  intros Hp H. unfold exponent64. pose proof (Qilog2_mono p q Hp H). lia.
Qed.

Lemma scaled_lt (q : Q) :
  (0 < q)%Q -> (q / 2 ^ exponent64 q < inject_Z (2 ^ 53))%Q.
Proof.
  intros Hq. destruct (Qilog2_spec q Hq) as [_ H2].
  apply Qlt_shift_div_r; [apply pow2_pos |].
  rewrite <- pow2_Z by lia. rewrite <- pow2_plus.
  eapply Qlt_le_trans; [exact H2 |]. apply pow2_le. unfold exponent64. lia.
Qed.

Lemma scaled_ge (q : Q) :
  (0 < q)%Q -> -1074 < exponent64 q ->
  (inject_Z (2 ^ 52) <= q / 2 ^ exponent64 q)%Q.
Proof.
  intros Hq He. destruct (Qilog2_spec q Hq) as [H1 _].
  apply Qle_shift_div_l; [apply pow2_pos |].
  rewrite <- pow2_Z by lia. rewrite <- pow2_plus.
  eapply Qle_trans; [| exact H1]. apply pow2_le. unfold exponent64 in *. lia.
Qed.

Lemma scaled_pos (q : Q) : (0 < q)%Q -> (0 < q / 2 ^ exponent64 q)%Q.
Proof.
  intros Hq. apply Qlt_shift_div_l; [apply pow2_pos |]. lra.
Qed.

Lemma significand64_bounds (q : Q) :
  (0 < q)%Q ->
  0 <= significand64 q <= 2 ^ 53
  /\ (-1074 < exponent64 q -> 2 ^ 52 <= significand64 q).
Proof.
  intros Hq. unfold significand64. split; [split |].
  - rewrite <- (Qround_even_Z 0). apply Qround_even_mono.
    apply Qlt_le_weak, scaled_pos, Hq.
  - rewrite <- (Qround_even_Z (2 ^ 53)). apply Qround_even_mono.
    apply Qlt_le_weak, scaled_lt, Hq.
  - intros He. rewrite <- (Qround_even_Z (2 ^ 52)). apply Qround_even_mono.
    apply scaled_ge; assumption.
Qed.

Lemma value64_nonneg (q : Q) : (0 < q)%Q -> (0 <= value64 q)%Q.
Proof.
  intros Hq. unfold value64. apply Qmult_le_0_compat.
  - change 0%Q with (inject_Z 0). rewrite <- Zle_Qle.
    apply significand64_bounds, Hq.
  - apply Qlt_le_weak, pow2_pos.
Qed.

Lemma value64_mono (p q : Q) : (0 < p)%Q -> (p <= q)%Q -> (value64 p <= value64 q)%Q.
Proof.
  intros Hp H. assert (0 < q)%Q as Hq by lra.
  pose proof (exponent64_mono p q Hp H) as He.
  destruct (significand64_bounds p Hp) as [[_ Pu] _].
  destruct (significand64_bounds q Hq) as [_ Ql].
  unfold value64.
  destruct (Z.eq_dec (exponent64 p) (exponent64 q)) as [E | N].
  - unfold significand64. rewrite E.
    apply Qmult_le_compat_r; [| apply Qlt_le_weak, pow2_pos].
    rewrite <- Zle_Qle.
    apply Qround_even_mono. apply Qmult_le_compat_r; [exact H |].
    apply Qlt_le_weak, Qinv_lt_0_compat, pow2_pos.
  - specialize (Ql ltac:(unfold exponent64 in *; lia)).
    apply Qle_trans with (inject_Z (2 ^ 53) * 2 ^ exponent64 p)%Q.
    { apply Qmult_le_compat_r; [| apply Qlt_le_weak, pow2_pos].
      rewrite <- Zle_Qle. exact Pu. }
    apply Qle_trans with (inject_Z (2 ^ 52) * 2 ^ exponent64 q)%Q.
    { rewrite <- !pow2_Z by lia. rewrite <- !pow2_plus. apply pow2_le. lia. }
    apply Qmult_le_compat_r; [| apply Qlt_le_weak, pow2_pos].
    rewrite <- Zle_Qle. exact Ql.
Qed.

Lemma round64_pos_value (q : Q) :
  round64_pos q
  = if Qle_bool (2 ^ 1024) (Qred (value64 q)) then PosInf else Fin (Qred (value64 q)).
Proof. reflexivity. Qed.

Lemma round64_pos_mono (p q : Q) :
  (0 < p)%Q -> (p <= q)%Q -> js_ge (round64_pos q) (round64_pos p) = true.
Proof.
  intros Hp H. pose proof (value64_mono p q Hp H) as Hv.
  rewrite !round64_pos_value.
  destruct (Qle_bool (2 ^ 1024) (Qred (value64 q))) eqn:Eq;
    destruct (Qle_bool (2 ^ 1024) (Qred (value64 p))) eqn:Ep; cbn [js_ge];
    try reflexivity.
  - pose proof (proj1 (Qle_bool_iff _ _) Ep) as Ep'. rewrite Qred_correct in Ep'.
    assert (Qle_bool (2 ^ 1024) (Qred (value64 q)) = true) as C.
    { apply (proj2 (Qle_bool_iff _ _)). rewrite Qred_correct. lra. }
    congruence.
  - apply (proj2 (Qle_bool_iff _ _)). rewrite !Qred_correct. exact Hv.
Qed.

Lemma round64_pos_nonneg (q : Q) :
  (0 < q)%Q -> js_ge (round64_pos q) (Fin 0) = true.
Proof.
  intros Hq. rewrite round64_pos_value.
  destruct (Qle_bool (2 ^ 1024) (Qred (value64 q))); [reflexivity |].
  cbn [js_ge]. apply (proj2 (Qle_bool_iff _ _)). rewrite Qred_correct.
  apply value64_nonneg, Hq.
Qed.

Lemma js_ge_neg (a b : number) : js_ge (js_neg a) (js_neg b) = js_ge b a.
Proof.
  destruct a, b; simpl; try reflexivity.
  destruct (Qle_bool (- q0) (- q)) eqn:E; symmetry.
  - apply Qle_bool_iff in E. apply Qle_bool_iff. lra.
  - destruct (Qle_bool q q0) eqn:E'; [| reflexivity].
    apply Qle_bool_iff in E'.
    assert (Qle_bool (- q0) (- q) = true) by (apply Qle_bool_iff; lra). congruence.
Qed.

Lemma js_ge_trans (a b c : number) :
  js_ge a b = true -> js_ge b c = true -> js_ge a c = true.
Proof.
  destruct a, b, c; simpl; try congruence; intros H1 H2.
  apply Qle_bool_iff in H1, H2. apply Qle_bool_iff. lra.
Qed.

Lemma round64_cases (q : Q) :
  ((q == 0)%Q /\ round64 q = Fin 0)
  \/ ((0 < q)%Q /\ round64 q = round64_pos q)
  \/ ((q < 0)%Q /\ round64 q = js_neg (round64_pos (- q))).
Proof.
  unfold round64. destruct (q ?= 0)%Q eqn:E.
  - left. split; [apply Qeq_alt; exact E | reflexivity].
  - right. right. split; [apply Qlt_alt; exact E | reflexivity].
  - right. left. split; [apply Qgt_alt; exact E | reflexivity].
Qed.

(** Rounding to binary64 keeps the order. *)
Lemma round64_mono (p q : Q) : (p <= q)%Q -> js_ge (round64 q) (round64 p) = true.
Proof.
  intros H.
  destruct (round64_cases p) as [[Hp ->] | [[Hp ->] | [Hp ->]]];
    destruct (round64_cases q) as [[Hq ->] | [[Hq ->] | [Hq ->]]]; try lra.
  - reflexivity.
  - apply round64_pos_nonneg, Hq.
  - apply round64_pos_mono; assumption.
  - change (Fin 0) with (js_neg (Fin 0)). rewrite js_ge_neg.
    apply round64_pos_nonneg. lra.
  - apply js_ge_trans with (Fin 0).
    + apply round64_pos_nonneg, Hq.
    + change (Fin 0) with (js_neg (Fin 0)). rewrite js_ge_neg.
      apply round64_pos_nonneg. lra.
  - rewrite js_ge_neg. apply round64_pos_mono; lra.
Qed.

(** A value that binary64 represents is not changed. *)
Lemma round64_pos_exact (q : Q) (m e : Z) :
  (0 < q)%Q -> (q == inject_Z m * 2 ^ e)%Q ->
  m < 2 ^ 53 -> -1074 <= e -> (q < 2 ^ 1024)%Q ->
  round64_pos q = Fin (Qred q).
Proof.
  intros Hq Hv Hm He Hmax.
  destruct (Qilog2_spec q Hq) as [L1 _].
  assert (exponent64 q <= e) as Hle.
  { assert (q < 2 ^ (53 + e))%Q as Hlt.
    { rewrite Hv, pow2_plus, (pow2_Z 53) by lia.
      apply Qmult_lt_compat_r; [apply pow2_pos |]. rewrite <- Zlt_Qlt. exact Hm. }
    assert (2 ^ Qilog2 q < 2 ^ (53 + e))%Q as Hl by lra.
    apply pow2_lt_inv in Hl. unfold exponent64. lia. }
  assert (value64 q == q)%Q as Hval.
  { unfold value64, significand64. set (x := exponent64 q) in *.
    assert (q / 2 ^ x == inject_Z (m * 2 ^ (e - x)))%Q as Hs.
    { rewrite inject_Z_mult, <- pow2_Z by lia. rewrite Hv.
      replace e with ((e - x) + x) at 1 by lia.
      rewrite pow2_plus. field.
      pose proof (pow2_pos (x)). lra. }
    rewrite (Qround_even_comp _ _ Hs), Qround_even_Z.
    rewrite inject_Z_mult, <- pow2_Z by lia.
    rewrite <- Qmult_assoc, <- pow2_plus.
    replace (e - x + x) with e by lia.
    symmetry. exact Hv. }
  rewrite round64_pos_value. rewrite (Qred_complete _ _ Hval).
  destruct (Qle_bool (2 ^ 1024) (Qred q)) eqn:E; [| reflexivity].
  pose proof (proj1 (Qle_bool_iff _ _) E) as E'. rewrite Qred_correct in E'. lra.
Qed.

Lemma round64_exact (q : Q) (m e : Z) :
  (q == inject_Z m * 2 ^ e)%Q ->
  Z.abs m < 2 ^ 53 -> -1074 <= e -> (- 2 ^ 1024 < q)%Q -> (q < 2 ^ 1024)%Q ->
  round64 q = Fin (Qred q).
Proof.
  intros Hv Hm He Hlo Hhi.
  destruct (round64_cases q) as [[Hq ->] | [[Hq ->] | [Hq ->]]].
  - rewrite (Qred_complete q 0 Hq). reflexivity.
  - apply (round64_pos_exact q m e); try assumption. lia.
  - rewrite (round64_pos_exact (- q) (- m) e); try lra; try lia.
    + cbn [js_neg]. rewrite Qred_opp. f_equal.
      destruct (Qred q) as [n d]. unfold Qopp. simpl. rewrite Z.opp_involutive.
      reflexivity.
    + rewrite Hv, inject_Z_opp. ring.
Qed.

(** Between two values that binary64 represents, the rounded value is
    finite and between them. *)
Lemma round64_between (q a b : Q) :
  (a <= q)%Q -> (q <= b)%Q -> round64 a = Fin a -> round64 b = Fin b ->
  exists v : Q, round64 q = Fin v /\ (a <= v)%Q /\ (v <= b)%Q.
Proof.
  intros Ha Hb Ea Eb.
  pose proof (round64_mono a q Ha) as H1. pose proof (round64_mono q b Hb) as H2.
  rewrite Ea in H1. rewrite Eb in H2.
  destruct (round64 q) as [v | | |]; simpl in H1, H2; try discriminate.
  exists v. split; [reflexivity |].
  split; apply Qle_bool_iff; assumption.
Qed.

(** The rounded value is within half a unit of the last place. *)
Lemma round64_pos_error (q v : Q) :
  (0 < q)%Q -> round64_pos q = Fin v ->
  (q - 2 ^ (exponent64 q - 1) <= v)%Q /\ (v <= q + 2 ^ (exponent64 q - 1))%Q.
Proof.
  intros Hq Hr. rewrite round64_pos_value in Hr.
  destruct (Qle_bool (2 ^ 1024) (Qred (value64 q))); [discriminate |].
  injection Hr as <-. rewrite Qred_correct. unfold value64, significand64.
  set (e := exponent64 q).
  pose proof (pow2_pos e) as HP.
  destruct (Qround_even_near (q / 2 ^ e)) as [N1 N2].
  set (m := inject_Z (Qround_even (q / 2 ^ e))) in *.
  assert (2 ^ (e - 1) == 2 ^ e * (1 # 2))%Q as Hhalf.
  { unfold Z.sub. rewrite pow2_plus. reflexivity. }
  assert (q == q / 2 ^ e * 2 ^ e)%Q as Hs by (field; lra).
  rewrite Hhalf.
  pose proof (Qmult_le_compat_r _ _ (2 ^ e) N1 ltac:(lra)) as M1.
  pose proof (Qmult_le_compat_r _ _ (2 ^ e) N2 ltac:(lra)) as M2.
  rewrite <- Hs in M2.
  assert ((m - (1 # 2)) * 2 ^ e <= q)%Q as M1' by (rewrite Hs; exact M1).
  split; lra.
Qed.

Lemma exponent64_below (q : Q) (k : Z) :
  (0 < q)%Q -> (q < 2 ^ k)%Q -> -1074 <= k - 53 -> exponent64 q <= k - 53.
Proof.
  intros Hq Hlt Hk. destruct (Qilog2_spec q Hq) as [L1 _].
  assert (2 ^ Qilog2 q < 2 ^ k)%Q as H by lra.
  apply pow2_lt_inv in H. unfold exponent64. lia.
Qed.

(** ** Integer conversions *)

Lemma truncate_inject_Z (z : Z) : truncate (inject_Z z) = z.
Proof. unfold truncate; simpl. apply Z.quot_1_r. Qed.

Lemma truncate_nonneg_floor (q : Q) : (0 <= q)%Q -> truncate q = Qfloor q.
Proof.
  destruct q as [n d]. unfold Qle, truncate, Qfloor; simpl. intros H.
  apply Z.quot_div_nonneg; lia.
Qed.

Lemma truncate_nonpos_ceiling (q : Q) : (q <= 0)%Q -> truncate q = Qceiling q.
Proof.
  destruct q as [n d]. unfold Qle, truncate, Qceiling, Qfloor; simpl. intros H.
  replace n with (- - n) at 1 by lia.
  rewrite Z.quot_opp_l by lia.
  rewrite Z.quot_div_nonneg by lia. reflexivity.
Qed.

Lemma ToInt32_small (q : Q) :
  - two31 <= truncate q < two31 -> ToInt32 (Fin q) = truncate q.
Proof.
  unfold ToInt32, two31, two32. intros H.
  destruct (Z_lt_le_dec (truncate q) 0) as [Hneg | Hpos].
  - replace (truncate q mod 2 ^ 32) with (truncate q + 2 ^ 32).
    + destruct (Z.leb_spec (2 ^ 31) (truncate q + 2 ^ 32)); lia.
    + apply Z.mod_unique with (q := -1); lia.
  - rewrite Z.mod_small by lia.
    destruct (Z.leb_spec (2 ^ 31) (truncate q)); lia.
Qed.

Lemma ToInt32_of_Z (z : Z) : - two31 <= z < two31 -> ToInt32 (of_Z z) = z.
Proof.
  intros H. unfold of_Z. rewrite ToInt32_small; rewrite truncate_inject_Z; auto.
Qed.

Lemma ToInt32_range (a : number) : - two31 <= ToInt32 a < two31.
Proof.
  destruct a; simpl; unfold two31, two32; try lia.
  pose proof (Z.mod_pos_bound (truncate q) (2 ^ 32) ltac:(lia)) as Hm.
  destruct (Z.leb_spec (2 ^ 31) (truncate q mod 2 ^ 32)); lia.
Qed.

(** Truncation of a rational inside an integer interval. *)
Lemma truncate_bounds (q : Q) (lo hi : Z) :
  lo <= 0 -> 0 <= hi ->
  (inject_Z lo - 1 < q)%Q -> (q < inject_Z hi)%Q ->
  lo <= truncate q < Z.max hi 1.
Proof.
  intros Hlo Hhi Hl Hh.
  destruct (Qlt_le_dec q 0) as [Hneg | Hpos].
  - rewrite truncate_nonpos_ceiling by (apply Qlt_le_weak; exact Hneg).
    split.
    + assert (inject_Z (lo - 1) < inject_Z (Qceiling q))%Q as Hc.
      { eapply Qlt_le_trans; [| apply Qle_ceiling].
        unfold Z.sub. rewrite inject_Z_plus. exact Hl. }
      rewrite <- Zlt_Qlt in Hc. lia.
    + assert (Qceiling q <= 0); [| lia].
      apply (Qceiling_resp_le q 0). apply Qlt_le_weak; exact Hneg.
  - rewrite truncate_nonneg_floor by exact Hpos.
    split.
    + assert (0 <= Qfloor q); [| lia].
      apply (Qfloor_resp_le 0 q). exact Hpos.
    + assert (inject_Z (Qfloor q) < inject_Z hi)%Q as Hc.
      { eapply Qle_lt_trans; [apply Qfloor_le | exact Hh]. }
      rewrite <- Zlt_Qlt in Hc. lia.
Qed.

Lemma Qltb_lt (p q : Q) : Qltb p q = true <-> (p < q)%Q.
Proof.
  unfold Qltb. rewrite Qlt_alt. destruct (p ?= q)%Q; split; congruence.
Qed.

Lemma js_ge_Fin (p q : Q) : js_ge (Fin p) (Fin q) = true <-> (q <= p)%Q.
Proof. simpl. apply Qle_bool_iff. Qed.

Lemma js_lt_Fin (p q : Q) : js_lt (Fin p) (Fin q) = true <-> (p < q)%Q.
Proof. simpl. apply Qltb_lt. Qed.

(** [>=] and [<] never hold together. *)
Lemma js_lt_not_ge (a b : number) : js_lt a b = true -> js_ge a b = false.
Proof.
  destruct a, b; simpl; try congruence.
  rewrite Qltb_lt. intros H.
  destruct (Qle_bool q0 q) eqn:E; [| reflexivity].
  apply Qle_bool_iff in E. exfalso. eapply Qlt_not_le; eauto.
Qed.

Lemma js_ge_not_lt (a b : number) : js_ge a b = true -> js_lt a b = false.
Proof.
  intros H. destruct (js_lt a b) eqn:E; [| reflexivity].
  apply js_lt_not_ge in E. congruence.
Qed.

(** ** Running computations *)

Lemma bind_run {A B : Type} (c : M A) (f : A -> M B) (w : World) :
  (c ≫= f) w = match c w with
               | Ok a w' => f a w'
               | Throw e w' => Throw e w'
               | OutOfFuel => OutOfFuel
               end.
Proof. reflexivity. Qed.

Lemma bind_Ok {A B : Type} (c : M A) (f : A -> M B) (w w' : World) (a : A) :
  c w = Ok a w' -> (c ≫= f) w = f a w'.
Proof. intros H. rewrite bind_run, H. reflexivity. Qed.

Lemma record_ret_bind {A B : Type} (c : Call) (x : A) (f : A -> M B) (w : World) :
  ((record c ;; mret x) ≫= f) w = f x (add_call c w).
Proof. reflexivity. Qed.

Lemma record_bind {B : Type} (c : Call) (f : unit -> M B) (w : World) :
  (record c ≫= f) w = f tt (add_call c w).
Proof. reflexivity. Qed.

Lemma gets_bind {A B : Type} (g : World -> A) (f : A -> M B) (w : World) :
  (gets g ≫= f) w = f (g w) w.
Proof. reflexivity. Qed.

(** ** The world after [putPixel] *)

Lemma putPixel_Some (x y : number) (color : Color4.t) (w : World) (l : loc) :
  backbuffer (device w) = Some l ->
  putPixel x y color w = Ok tt (putPixel_world l x y color w).
Proof.
  intros H. unfold putPixel. rewrite bind_run. simpl.
  rewrite bind_run. simpl. rewrite H. reflexivity.
Qed.

Lemma putPixel_None (x y : number) (color : Color4.t) (w : World) :
  backbuffer (device w) = None ->
  putPixel x y color w = Throw TypeError (add_call (CallPutPixel x y color) w).
Proof.
  intros H. unfold putPixel. rewrite bind_run. simpl.
  rewrite bind_run. simpl. rewrite H. reflexivity.
Qed.

(** ** Relations kept by every step of a computation *)

Section Stable.

Context (R : World -> World -> Prop) `{!Kept R}.

Lemma stable_ret {A : Type} (a : A) : stable R (mret a).
Proof. intros w. apply R_refl. Qed.

Lemma stable_throw {A : Type} (e : exn) : stable R (@throw A e).
Proof. intros w. apply R_refl. Qed.

Lemma stable_gets {A : Type} (f : World -> A) : stable R (gets f).
Proof. intros w. apply R_refl. Qed.

Lemma stable_modify (f : World -> World) :
  (forall w, R w (f w)) -> stable R (modify f).
Proof. intros H w. apply H. Qed.

Lemma stable_bind {A B : Type} (c : M A) (f : A -> M B) :
  stable R c -> (forall a, stable R (f a)) -> stable R (c ≫= f).
Proof.
  intros Hc Hf w. rewrite bind_run. specialize (Hc w).
  destruct (c w) as [a w' | e w' |]; auto.
  specialize (Hf a w').
  destruct (f a w') as [b w'' | e w'' |]; auto; apply R_trans with w'; assumption.
Qed.

Lemma stable_for_loop (cond : nat -> M bool) (body : nat -> M unit) :
  (forall i, stable R (cond i)) -> (forall i, stable R (body i)) ->
  forall fuel index, stable R (for_loop fuel cond body index).
Proof.
  intros Hc Hb fuel. induction fuel as [| fuel IH]; intros index.
  - intros w. exact I.
  - simpl. apply stable_bind; [apply Hc |].
    intros [|]; [| apply stable_ret].
    apply stable_bind; [apply Hb | intros _; apply IH].
Qed.

Lemma stable_for_each {A : Type} (f : A -> M unit) (l : list A) :
  (forall a, stable R (f a)) -> stable R (for_each f l).
Proof.
  intros Hf. induction l as [| a l IH]; simpl.
  - apply stable_ret.
  - apply stable_bind; [apply Hf | intros _; exact IH].
Qed.

Lemma stable_record (c : Call) :
  is_LookAtLH c = false -> is_PerspectiveFovLH c = false -> stable R (record c).
Proof. intros H1 H2. apply stable_modify. intros w. apply R_call; assumption. Qed.

Lemma stable_store_backbufferdata (index : Z) (value : number) :
  stable R (store_backbufferdata index value).
Proof.
  intros w. unfold store_backbufferdata. rewrite bind_run. simpl.
  destruct (backbufferdata (device w)) as [l |] eqn:E; simpl.
  - apply R_store. exact E.
  - apply R_refl.
Qed.

Lemma stable_putPixel (x y : number) (color : Color4.t) : stable R (putPixel x y color).
Proof.
  intros w. destruct (backbuffer (device w)) as [l |] eqn:E.
  - rewrite (putPixel_Some _ _ _ _ _ E). unfold putPixel_world.
    repeat (eapply R_trans; [| apply R_store; reflexivity]).
    apply R_trans with (add_call (CallPutPixel x y color) w);
      [apply R_call; reflexivity | apply R_assign_data; exact E].
  - rewrite (putPixel_None _ _ _ _ E). apply R_call; reflexivity.
Qed.

Lemma stable_drawPoint (point : Vector2.t) : stable R (drawPoint point).
Proof.
  unfold drawPoint.
  apply stable_bind; [apply stable_record; reflexivity | intros _].
  apply stable_bind; [apply stable_gets | intros d].
  destruct (on_screen d point); [apply stable_putPixel | apply stable_ret].
Qed.

Section StableEngine.

Variable TransformCoordinates : Vector3.t -> Matrix.t -> Vector3.t.
Variable LookAtLH : Vector3.t -> Vector3.t -> Vector3.t -> Matrix.t.
Variable PerspectiveFovLH : number -> number -> number -> number -> Matrix.t.
Variable RotationYawPitchRoll : number -> number -> number -> Matrix.t.
Variable Translation : number -> number -> number -> Matrix.t.
Variable multiply : Matrix.t -> Matrix.t -> Matrix.t.

Lemma stable_project (coord : Vector3.t) (transMat : Matrix.t) :
  stable R (project TransformCoordinates coord transMat).
Proof.
  unfold project, Vector3_TransformCoordinates.
  repeat first
    [ apply stable_record; reflexivity | apply stable_gets | apply stable_ret
    | apply stable_bind; [| intros ?] ].
Qed.

Lemma stable_mesh_at (index : nat) : stable R (mesh_at index).
Proof.
  unfold mesh_at. apply stable_bind; [apply stable_gets | intros ms].
  destruct (ms !! index); [apply stable_ret | apply stable_throw].
Qed.

Lemma stable_vertex_at (index indexVertices : nat) :
  stable R (vertex_at index indexVertices).
Proof.
  unfold vertex_at. apply stable_bind; [apply stable_mesh_at | intros cMesh].
  destruct (Mesh.Vertices cMesh !! indexVertices);
    [apply stable_ret | apply stable_throw].
Qed.

Lemma stable_render_vertex (index : nat) (T : Matrix.t) (indexVertices : nat) :
  stable R (render_vertex TransformCoordinates index T indexVertices).
Proof.
  unfold render_vertex.
  apply stable_bind; [apply stable_vertex_at | intros v].
  apply stable_bind; [apply stable_project | intros p].
  apply stable_drawPoint.
Qed.

Lemma stable_render_mesh (V P : Matrix.t) (index : nat) :
  stable R (render_mesh TransformCoordinates RotationYawPitchRoll Translation
                      multiply V P index).
Proof.
  unfold render_mesh, Matrix_RotationYawPitchRoll, Matrix_Translation,
    Matrix_multiply.
  repeat first
    [ apply stable_record; reflexivity | apply stable_gets | apply stable_ret
    | apply stable_mesh_at
    | apply stable_for_loop; intros ?
    | apply stable_render_vertex
    | apply stable_bind; [| intros ?] ].
Qed.

Lemma stable_draw_mesh_spec (V P : Matrix.t) (mesh : Mesh.t) :
  stable R (draw_mesh_spec TransformCoordinates RotationYawPitchRoll Translation
                         multiply V P mesh).
Proof.
  unfold draw_mesh_spec, draw_vertex_spec, Matrix_RotationYawPitchRoll,
    Matrix_Translation, Matrix_multiply.
  repeat first
    [ apply stable_record; reflexivity | apply stable_gets | apply stable_ret
    | apply stable_for_each; intros ?
    | apply stable_project | apply stable_drawPoint
    | apply stable_bind; [| intros ?] ].
Qed.

Lemma stable_render :
  (forall c w, R w (add_call c w)) ->
  stable R (render TransformCoordinates LookAtLH PerspectiveFovLH
                 RotationYawPitchRoll Translation multiply).
Proof.
  intros R_any.
  unfold render, Vector3_Up, Matrix_LookAtLH, Matrix_PerspectiveFovLH.
  repeat first
    [ apply stable_modify; intros ?; apply R_any
    | apply stable_gets | apply stable_ret
    | apply stable_for_loop; intros ?
    | apply stable_render_mesh
    | apply stable_bind; [| intros ?] ].
Qed.

End StableEngine.

End Stable.


(** ** The scene is only read *)

#[export] Instance same_scene_kept : Kept same_scene.
Proof.
  split.
  - intros w. split; reflexivity.
  - intros w1 w2 w3 [H1 H2] [H3 H4]. split; congruence.
  - intros c w _ _. split; reflexivity.
  - intros l w _. split; reflexivity.
  - intros l index byte w _. split; reflexivity.
Qed.

(** ** [render] against its specification *)

Section Refinement.

Variable TransformCoordinates : Vector3.t -> Matrix.t -> Vector3.t.
Variable LookAtLH : Vector3.t -> Vector3.t -> Vector3.t -> Matrix.t.
Variable PerspectiveFovLH : number -> number -> number -> number -> Matrix.t.
Variable RotationYawPitchRoll : number -> number -> number -> Matrix.t.
Variable Translation : number -> number -> number -> Matrix.t.
Variable multiply : Matrix.t -> Matrix.t -> Matrix.t.

Local Abbreviation render_mesh' :=
  (render_mesh TransformCoordinates RotationYawPitchRoll Translation multiply).
Local Abbreviation draw_mesh_spec' :=
  (draw_mesh_spec TransformCoordinates RotationYawPitchRoll Translation multiply).
Local Abbreviation render' :=
  (render TransformCoordinates LookAtLH PerspectiveFovLH RotationYawPitchRoll
          Translation multiply).
Local Abbreviation render_spec' :=
  (render_spec TransformCoordinates LookAtLH PerspectiveFovLH RotationYawPitchRoll
               Translation multiply).

Lemma stable_draw_vertex_spec (R : World -> World -> Prop) `{!Kept R}
    (T : Matrix.t) (v : Vector3.t) :
  stable R (draw_vertex_spec TransformCoordinates T v).
Proof.
  unfold draw_vertex_spec. apply stable_bind; [exact _ | |].
  - apply stable_project. exact _.
  - intros p. apply stable_drawPoint. exact _.
Qed.

Lemma mesh_at_run (index : nat) (w : World) (mesh : Mesh.t) :
  meshes w !! index = Some mesh -> mesh_at index w = Ok mesh w.
Proof. intros H. unfold mesh_at. rewrite bind_run. simpl. rewrite H. reflexivity. Qed.

(** The loop over the vertices of one mesh visits them in index order. *)
Lemma vertices_loop (index : nat) (T : Matrix.t) (mesh : Mesh.t) (rest : list Vector3.t) :
  forall (indexVertices fuel : nat) (w : World),
    meshes w !! index = Some mesh ->
    drop indexVertices (Mesh.Vertices mesh) = rest ->
    (length rest < fuel)%nat ->
    for_loop fuel
      (fun indexVertices =>
         cMesh' ← mesh_at index;
         mret (indexVertices <? length (Mesh.Vertices cMesh'))%nat)
      (render_vertex TransformCoordinates index T) indexVertices w
    = for_each (draw_vertex_spec TransformCoordinates T) rest w.
Proof.
  induction rest as [| v rest IH]; intros iv fuel w Hm Hd Hf.
  - destruct fuel as [| fuel]; [simpl in Hf; lia |].
    simpl. rewrite bind_run, (bind_Ok _ _ _ _ _ (mesh_at_run _ _ _ Hm)). simpl.
    apply drop_nil_inv in Hd.
    destruct (Nat.ltb_spec iv (length (Mesh.Vertices mesh))); [lia | reflexivity].
  - destruct fuel as [| fuel]; [simpl in Hf; lia |].
    assert (Mesh.Vertices mesh !! iv = Some v) as Hv.
    { rewrite <- (Nat.add_0_r iv), <- lookup_drop, Hd. reflexivity. }
    pose proof (lookup_lt_Some _ _ _ Hv) as Hlt.
    simpl for_loop. rewrite bind_run, (bind_Ok _ _ _ _ _ (mesh_at_run _ _ _ Hm)).
    simpl. destruct (Nat.ltb_spec iv (length (Mesh.Vertices mesh))); [| lia].
    rewrite !bind_run.
    assert (render_vertex TransformCoordinates index T iv w
            = draw_vertex_spec TransformCoordinates T v w) as ->.
    { unfold render_vertex, vertex_at. rewrite !bind_run.
      rewrite (mesh_at_run _ _ _ Hm), Hv. reflexivity. }
    pose proof (stable_draw_vertex_spec same_scene T v w) as Hs.
    destruct (draw_vertex_spec TransformCoordinates T v w) as [[] w' | e w' |];
      try reflexivity.
    destruct Hs as [_ Hs].
    apply IH.
    + rewrite Hs. exact Hm.
    + rewrite (drop_S _ _ _ Hv) in Hd. congruence.
    + simpl in Hf. lia.
Qed.

(** One turn of the loop over the meshes is the drawing of that mesh. *)
Lemma render_mesh_run (V P : Matrix.t) (index : nat) (mesh : Mesh.t) (w : World) :
  meshes w !! index = Some mesh ->
  render_mesh' V P index w = draw_mesh_spec' V P mesh w.
Proof.
  intros Hm. unfold render_mesh, draw_mesh_spec.
  rewrite (bind_Ok _ _ _ _ _ (mesh_at_run _ _ _ Hm)).
  unfold Matrix_RotationYawPitchRoll, Matrix_Translation, Matrix_multiply.
  rewrite !record_ret_bind.
  match goal with |- _ ?w5 = _ => set (w' := w5) end.
  assert (meshes w' !! index = Some mesh) as Hm' by exact Hm.
  rewrite (bind_Ok _ _ w' w' (length (Mesh.Vertices mesh))).
  - apply vertices_loop with (mesh := mesh); [exact Hm' | reflexivity | lia].
  - rewrite (bind_Ok _ _ _ _ _ (mesh_at_run _ _ _ Hm')). reflexivity.
Qed.

Lemma meshes_cond_run (index : nat) (w : World) :
  (ms ← gets meshes; mret (index <? length ms)%nat) w
  = Ok (index <? length (meshes w))%nat w.
Proof. reflexivity. Qed.

(** The loop over the meshes visits them in index order. *)
Lemma meshes_loop (V P : Matrix.t) (rest : list Mesh.t) :
  forall (index fuel : nat) (w : World),
    drop index (meshes w) = rest ->
    (length rest < fuel)%nat ->
    for_loop fuel
      (fun index => ms ← gets meshes; mret (index <? length ms)%nat)
      (render_mesh' V P) index w
    = for_each (draw_mesh_spec' V P) rest w.
Proof.
  induction rest as [| mesh rest IH]; intros index fuel w Hd Hf.
  - destruct fuel as [| fuel]; [simpl in Hf; lia |].
    simpl for_loop. rewrite (bind_Ok _ _ _ _ _ (meshes_cond_run index w)).
    apply drop_nil_inv in Hd.
    destruct (Nat.ltb_spec index (length (meshes w))); [lia | reflexivity].
  - destruct fuel as [| fuel]; [simpl in Hf; lia |].
    assert (meshes w !! index = Some mesh) as Hm.
    { rewrite <- (Nat.add_0_r index), <- lookup_drop, Hd. reflexivity. }
    pose proof (lookup_lt_Some _ _ _ Hm) as Hlt.
    simpl for_loop. rewrite (bind_Ok _ _ _ _ _ (meshes_cond_run index w)).
    destruct (Nat.ltb_spec index (length (meshes w))); [| lia].
    simpl for_each. rewrite !bind_run, (render_mesh_run _ _ _ _ _ Hm).
    pose proof (stable_draw_mesh_spec same_scene TransformCoordinates
                  RotationYawPitchRoll Translation multiply V P mesh w) as Hs.
    destruct (draw_mesh_spec' V P mesh w) as [[] w' | e w' |]; try reflexivity.
    destruct Hs as [_ Hs].
    apply IH.
    + rewrite Hs. rewrite (drop_S _ _ _ Hm) in Hd. congruence.
    + simpl in Hf. lia.
Qed.

(** [render] and its specification are the same computation. *)
Lemma render_refines (w : World) : render' w = render_spec' w.
Proof.
  unfold render, render_spec.
  unfold Vector3_Up, Matrix_LookAtLH, Matrix_PerspectiveFovLH.
  repeat first [rewrite record_bind | rewrite gets_bind | rewrite record_ret_bind].
  apply meshes_loop; [reflexivity | simpl; lia].
Qed.

End Refinement.

(** ** Computations without loops return *)

Lemma returns_ret {A : Type} (a : A) : returns (mret a).
Proof. intros w. discriminate. Qed.

Lemma returns_throw {A : Type} (e : exn) : returns (@throw A e).
Proof. intros w. discriminate. Qed.

Lemma returns_gets {A : Type} (f : World -> A) : returns (gets f).
Proof. intros w. discriminate. Qed.

Lemma returns_modify (f : World -> World) : returns (modify f).
Proof. intros w. discriminate. Qed.

Lemma returns_bind {A B : Type} (c : M A) (f : A -> M B) :
  returns c -> (forall a, returns (f a)) -> returns (c ≫= f).
Proof.
  intros Hc Hf w. rewrite bind_run. specialize (Hc w).
  destruct (c w) as [a w' | e w' |]; [apply Hf | discriminate | congruence].
Qed.

Lemma returns_for_each {A : Type} (f : A -> M unit) (l : list A) :
  (forall a, returns (f a)) -> returns (for_each f l).
Proof.
  intros Hf. induction l as [| a l IH]; simpl.
  - apply returns_ret.
  - apply returns_bind; [apply Hf | intros _; exact IH].
Qed.

Lemma returns_putPixel (x y : number) (color : Color4.t) : returns (putPixel x y color).
Proof.
  intros w. destruct (backbuffer (device w)) as [l |] eqn:E.
  - rewrite (putPixel_Some _ _ _ _ _ E). discriminate.
  - rewrite (putPixel_None _ _ _ _ E). discriminate.
Qed.

Lemma returns_drawPoint (point : Vector2.t) : returns (drawPoint point).
Proof.
  unfold drawPoint.
  apply returns_bind; [apply returns_modify | intros _].
  apply returns_bind; [apply returns_gets | intros d].
  destruct (on_screen d point); [apply returns_putPixel | apply returns_ret].
Qed.

Ltac returns_steps :=
  repeat first
    [ apply returns_modify | apply returns_gets | apply returns_ret
    | apply returns_drawPoint
    | apply returns_for_each; intros ?
    | apply returns_bind; [| intros ?] ].

Lemma returns_project (TransformCoordinates : Vector3.t -> Matrix.t -> Vector3.t)
    (coord : Vector3.t) (transMat : Matrix.t) :
  returns (project TransformCoordinates coord transMat).
Proof. unfold project, Vector3_TransformCoordinates, record. returns_steps. Qed.

Lemma returns_render_spec TransformCoordinates LookAtLH PerspectiveFovLH
    RotationYawPitchRoll Translation multiply :
  returns (render_spec TransformCoordinates LookAtLH PerspectiveFovLH
                       RotationYawPitchRoll Translation multiply).
Proof.
  unfold render_spec, draw_mesh_spec, draw_vertex_spec, Vector3_Up, Matrix_LookAtLH,
    Matrix_PerspectiveFovLH, Matrix_RotationYawPitchRoll, Matrix_Translation,
    Matrix_multiply, project, Vector3_TransformCoordinates, record.
  returns_steps.
Qed.

(** ** Counting the constructions of the camera matrices *)

Lemma count_calls_add (p : Call -> bool) (c : Call) (l : list Call) :
  count_calls p (l ++ [c]) = (count_calls p l + (if p c then 1 else 0))%nat.
Proof.
  unfold count_calls. rewrite filter_app, length_app.
  destruct (p c) eqn:E.
  - rewrite filter_cons_True by exact E. reflexivity.
  - rewrite filter_cons_False by congruence. reflexivity.
Qed.

Lemma same_count_kept (p : Call -> bool) :
  (forall c, is_LookAtLH c = false -> is_PerspectiveFovLH c = false -> p c = false) ->
  Kept (same_count p).
Proof.
  intros Hp. unfold same_count. split.
  - reflexivity.
  - intros w1 w2 w3 H1 H2. congruence.
  - intros c w H1 H2. simpl. rewrite count_calls_add, (Hp c H1 H2). lia.
  - reflexivity.
  - reflexivity.
Qed.

#[export] Instance same_count_LookAtLH : Kept (same_count is_LookAtLH).
Proof. apply same_count_kept. auto. Qed.

#[export] Instance same_count_PerspectiveFovLH : Kept (same_count is_PerspectiveFovLH).
Proof. apply same_count_kept. auto. Qed.

(** The camera matrices are built before the loops and never inside. *)
Lemma render_spec_counts TransformCoordinates LookAtLH PerspectiveFovLH
    RotationYawPitchRoll Translation multiply (w : World) :
  let r := render_spec TransformCoordinates LookAtLH PerspectiveFovLH
                       RotationYawPitchRoll Translation multiply w in
  count_calls is_LookAtLH (calls (final_world r w))
    = S (count_calls is_LookAtLH (calls w))
  /\ count_calls is_PerspectiveFovLH (calls (final_world r w))
    = S (count_calls is_PerspectiveFovLH (calls w)).
Proof.
  pose proof (returns_render_spec TransformCoordinates LookAtLH PerspectiveFovLH
                RotationYawPitchRoll Translation multiply w) as Hret.
  revert Hret. unfold render_spec, Vector3_Up, Matrix_LookAtLH, Matrix_PerspectiveFovLH.
  repeat first [rewrite record_bind | rewrite gets_bind | rewrite record_ret_bind].
  match goal with |- for_each ?f ?l ?w0 <> _ -> _ => set (body := f); set (w' := w0) end.
  intros Hret.
  assert (forall p, Kept (same_count p) -> stable (same_count p) (for_each body (meshes w')))
    as Hst.
  { intros p Hp. apply stable_for_each; [exact Hp |]. intros mesh.
    apply stable_draw_mesh_spec. exact Hp. }
  pose proof (Hst is_LookAtLH _ w') as H1.
  pose proof (Hst is_PerspectiveFovLH _ w') as H2.
  unfold same_count in H1, H2.
  destruct (for_each body (meshes w') w') as [[] w'' | e w'' |]; [| | congruence];
    simpl final_world; rewrite H1, H2; unfold w'; simpl;
    rewrite !count_calls_add; simpl; split; lia.
Qed.

(** ** The bytes written by [putPixel] *)

Lemma write_byte_length (index byte : Z) (data : list Z) :
  length (write_byte index byte data) = length data.
Proof. unfold write_byte. destruct (index <? 0); [reflexivity | apply length_insert]. Qed.

Lemma write_byte_lookup (index byte : Z) (data : list Z) :
  0 <= index < Z.of_nat (length data) ->
  write_byte index byte data !! Z.to_nat index = Some byte.
Proof.
  intros H. unfold write_byte. destruct (Z.ltb_spec index 0); [lia |].
  apply list_lookup_insert_eq. lia.
Qed.

Lemma write_byte_lookup_ne (index byte : Z) (data : list Z) (j : nat) :
  Z.of_nat j <> index -> write_byte index byte data !! j = data !! j.
Proof.
  intros H. unfold write_byte. destruct (Z.ltb_spec index 0); [reflexivity |].
  apply list_lookup_insert_ne. lia.
Qed.

Lemma put4_length (index r g b a : Z) (data : list Z) :
  length (put4 index r g b a data) = length data.
Proof. unfold put4. rewrite !write_byte_length. reflexivity. Qed.

Lemma put4_lookup (index r g b a : Z) (data : list Z) :
  0 <= index -> index + 3 < Z.of_nat (length data) ->
  put4 index r g b a data !! Z.to_nat index = Some r
  /\ put4 index r g b a data !! Z.to_nat (index + 1) = Some g
  /\ put4 index r g b a data !! Z.to_nat (index + 2) = Some b
  /\ put4 index r g b a data !! Z.to_nat (index + 3) = Some a.
Proof.
  intros H0 H3. unfold put4. repeat split.
  - rewrite !write_byte_lookup_ne by lia. apply write_byte_lookup. lia.
  - rewrite !write_byte_lookup_ne by lia.
    apply write_byte_lookup. rewrite write_byte_length. lia.
  - rewrite write_byte_lookup_ne by lia.
    apply write_byte_lookup. rewrite !write_byte_length. lia.
  - apply write_byte_lookup. rewrite !write_byte_length. lia.
Qed.

Lemma put4_lookup_other (index r g b a : Z) (data : list Z) (j : nat) :
  Z.of_nat j < index \/ index + 3 < Z.of_nat j ->
  put4 index r g b a data !! j = data !! j.
Proof. intros H. unfold put4. rewrite !write_byte_lookup_ne by lia. reflexivity. Qed.

Lemma alter_twice {A : Type} (f g : A -> A) (i : nat) (l : list A) :
  alter f i (alter g i l) = alter (fun a => f (g a)) i l.
Proof.
  apply list_eq. intros j. destruct (decide (i = j)) as [<- | Hne].
  - rewrite !list_lookup_alter_eq. destruct (l !! i); reflexivity.
  - rewrite !list_lookup_alter_ne by exact Hne. reflexivity.
Qed.

Lemma putPixel_world_arrays (l : loc) (x y : number) (color : Color4.t) (w : World) :
  arrays (putPixel_world l x y color w)
  = alter (put4 (pixel_index (workingWidth (device w)) x y)
                (channel_byte (Color4.r color)) (channel_byte (Color4.g color))
                (channel_byte (Color4.b color)) (channel_byte (Color4.a color)))
          l (arrays w).
Proof.
  unfold putPixel_world, store_world, put4. simpl.
  rewrite !alter_twice. reflexivity.
Qed.

Lemma putPixel_world_calls (l : loc) (x y : number) (color : Color4.t) (w : World) :
  calls (putPixel_world l x y color w) = calls w ++ [CallPutPixel x y color].
Proof. reflexivity. Qed.

Lemma byte_at_putPixel_other (l l' : loc) (x y : number) (color : Color4.t)
    (w : World) (j : nat) :
  l' <> l \/ Z.of_nat j < pixel_index (workingWidth (device w)) x y
          \/ pixel_index (workingWidth (device w)) x y + 3 < Z.of_nat j ->
  byte_at (putPixel_world l x y color w) l' j = byte_at w l' j.
Proof.
  intros H. unfold byte_at. rewrite putPixel_world_arrays.
  destruct (decide (l' = l)) as [-> | Hne].
  - rewrite list_lookup_alter_eq. destruct (arrays w !! l) as [data |]; simpl;
      [| reflexivity].
    apply put4_lookup_other. destruct H as [H | H]; [congruence | exact H].
  - rewrite list_lookup_alter_ne by congruence. reflexivity.
Qed.

(** Pixel coordinates that pass the clipping test of a canvas-sized device
    are converted by plain truncation. *)
Lemma pixel_index_truncate (width : N) (qx qy : Q) :
  in_int32 qx -> in_int32 qy ->
  pixel_index width (Fin qx) (Fin qy)
  = (truncate qy * Z.of_N width + truncate qx) * 4.
Proof.
  intros [Hx1 Hx2] [Hy1 Hy2]. unfold pixel_index.
  pose proof (truncate_bounds qx (- two31) two31 ltac:(unfold two31; lia)
                ltac:(unfold two31; lia) Hx1 Hx2) as Hx.
  pose proof (truncate_bounds qy (- two31) two31 ltac:(unfold two31; lia)
                ltac:(unfold two31; lia) Hy1 Hy2) as Hy.
  rewrite !ToInt32_small by (unfold two31 in *; lia). lia.
Qed.

Lemma write_byte_lookup_full (index byte : Z) (data : list Z) (k : nat) :
  write_byte index byte data !! k
  = if decide (Z.of_nat k = index /\ (k < length data)%nat) then Some byte else data !! k.
Proof.
  unfold write_byte. destruct (Z.ltb_spec index 0).
  - rewrite decide_False by lia. reflexivity.
  - rewrite list_lookup_insert.
    destruct (decide (Z.to_nat index = k /\ (Z.to_nat index < length data)%nat)) as [[<- H1] | Hn].
    + rewrite decide_True by lia. reflexivity.
    + rewrite decide_False by lia. reflexivity.
Qed.

Lemma put4_outside (index r g b a : Z) (data : list Z) :
  index + 3 < 0 \/ Z.of_nat (length data) <= index ->
  put4 index r g b a data = data.
Proof.
  intros H. apply list_eq. intros k. unfold put4.
  rewrite !write_byte_lookup_full, !write_byte_length.
  repeat case_decide; try reflexivity; lia.
Qed.

Lemma shr0_of_ToInt32 (a : number) : shr0_of a (ToInt32 a).
Proof.
  split; [apply ToInt32_range |].
  destruct a as [q | | |]; try reflexivity. split.
  - unfold ToInt32, two32.
    pose proof (Z.div_mod (truncate q) (2 ^ 32) ltac:(lia)) as Hdm.
    destruct (two31 <=? truncate q mod 2 ^ 32).
    + exists (- (truncate q / 2 ^ 32) - 1). lia.
    + exists (- (truncate q / 2 ^ 32)). lia.
  - intros [H1 H2]. apply ToInt32_small.
    pose proof (truncate_bounds q (- two31) two31 ltac:(unfold two31; lia)
                  ltac:(unfold two31; lia) H1 H2) as H.
    unfold two31 in *. lia.
Qed.

(** C5, as the code has it: on a device with a back buffer, [putPixel]
    converts [x] and [y] with [>> 0] and computes the cell
    [((y * width) + x) * 4] from the converted values.  The conversion is
    truncation toward zero for a finite value of magnitude below 2^31; a
    larger value is truncated and wrapped modulo 2^32 into the signed 32-bit
    range, and [NaN] and the infinities give 0.  When the four cells from
    the index on are inside the buffer they get the bytes of the red, green,
    blue and alpha channels, in that order; when the index is before or
    after the buffer nothing is written. *)
Theorem C5_putPixel_index_and_bytes :
  forall (w : World) (l : loc) (data : list Z) (x y : number) (color : Color4.t),
    backbuffer (device w) = Some l ->
    arrays w !! l = Some data ->
    exists (nx ny : Z) (w' : World),
      shr0_of x nx /\ shr0_of y ny
      /\ let index := (ny * Z.of_N (workingWidth (device w)) + nx) * 4 in
         let data' := put4 index (channel_byte (Color4.r color))
                           (channel_byte (Color4.g color))
                           (channel_byte (Color4.b color))
                           (channel_byte (Color4.a color)) data in
         pixel_index (workingWidth (device w)) x y = index
         /\ putPixel x y color w = Ok tt w'
         /\ arrays w' !! l = Some data'
         /\ (0 <= index -> index + 3 < Z.of_nat (length data) ->
             data' !! Z.to_nat index = Some (channel_byte (Color4.r color))
             /\ data' !! Z.to_nat (index + 1) = Some (channel_byte (Color4.g color))
             /\ data' !! Z.to_nat (index + 2) = Some (channel_byte (Color4.b color))
             /\ data' !! Z.to_nat (index + 3) = Some (channel_byte (Color4.a color)))
         /\ (index + 3 < 0 \/ Z.of_nat (length data) <= index -> data' = data).
Proof.
  intros w l data x y color Hb Hd.
  exists (ToInt32 x), (ToInt32 y), (putPixel_world l x y color w).
  split; [apply shr0_of_ToInt32 |]. split; [apply shr0_of_ToInt32 |].
  cbv zeta.
  assert (pixel_index (workingWidth (device w)) x y
          = (ToInt32 y * Z.of_N (workingWidth (device w)) + ToInt32 x) * 4) as Hi
    by (unfold pixel_index; lia).
  split; [exact Hi |].
  split; [apply putPixel_Some; exact Hb |].
  split.
  - rewrite putPixel_world_arrays, list_lookup_alter_eq, Hd, Hi. reflexivity.
  - split.
    + intros H0 H3. apply put4_lookup; assumption.
    + apply put4_outside.
Qed.

(** The pair (2^32 + 1, 0) on a 2 x 2 device: [>> 0] turns the abscissa
    into 1, and the second pixel of the first row becomes yellow. *)
Lemma C5_putPixel_index_and_bytes_witness :
  exists w',
    putPixel (of_Z (2 ^ 32 + 1)) (of_Z 0) yellow cleared_2x2 = Ok tt w'
    /\ pixel_index 2 (of_Z (2 ^ 32 + 1)) (of_Z 0) = 4
    /\ arrays w' !! 0%nat
       = Some [0; 0; 0; 0; 255; 255; 0; 255; 0; 0; 0; 0; 0; 0; 0; 0].
Proof.
  destruct (C5_putPixel_index_and_bytes cleared_2x2 0%nat (replicate 16 0)
              (of_Z (2 ^ 32 + 1)) (of_Z 0) yellow eq_refl eq_refl)
    as (nx & ny & w' & _ & _ & H1 & H2 & H3 & _).
  exists w'. split; [exact H2 |]. split; [reflexivity |].
  rewrite H3, <- H1. vm_compute. reflexivity.
Defined.

(** Truncation alone would put the pair (2^32 + 1, 0) far after the buffer
    of a 2 x 2 device and write nothing; the code writes the pixel (1, 0). *)
Lemma C5_putPixel_wraps_coordinates :
  ~ putPixel_by_truncation cleared_2x2 0%nat (of_Z (2 ^ 32 + 1)) (of_Z 0) yellow.
Proof.
  intros H.
  destruct (H (inject_Z (2 ^ 32 + 1)) (inject_Z 0) (replicate 16 0)
              eq_refl eq_refl eq_refl) as (w' & Hr & Ha).
  cbv zeta in Ha.
  rewrite put4_outside in Ha by (right; vm_compute; discriminate).
  rewrite (putPixel_Some _ _ _ cleared_2x2 0%nat eq_refl) in Hr.
  injection Hr as <-.
  vm_compute in Ha. discriminate Ha.
Qed.

(** ** [drawPoint] *)

Lemma drawPoint_off (point : Vector2.t) (w : World) :
  on_screen (device w) point = false ->
  drawPoint point w = Ok tt (add_call (CallDrawPoint point) w).
Proof.
  intros H. unfold drawPoint. rewrite record_bind, gets_bind.
  change (device (add_call (CallDrawPoint point) w)) with (device w).
  rewrite H. reflexivity.
Qed.

Lemma drawPoint_on (point : Vector2.t) (w : World) :
  on_screen (device w) point = true ->
  drawPoint point w
  = putPixel (Vector2.x point) (Vector2.y point) yellow
             (add_call (CallDrawPoint point) w).
Proof.
  intros H. unfold drawPoint. rewrite record_bind, gets_bind.
  change (device (add_call (CallDrawPoint point) w)) with (device w).
  rewrite H. reflexivity.
Qed.

(** C3: a point with [x < 0], [x >= width], [y < 0] or [y >= height] is
    discarded by [drawPoint]: the call returns normally, [putPixel] is not
    called, and the world is the one before the call with only the call of
    [drawPoint] itself recorded, so no byte of any buffer has changed. *)
Theorem C3_drawPoint_discards_outside :
  forall (point : Vector2.t) (w : World),
    js_lt (Vector2.x point) (of_Z 0) = true
    \/ js_ge (Vector2.x point) (of_N (workingWidth (device w))) = true
    \/ js_lt (Vector2.y point) (of_Z 0) = true
    \/ js_ge (Vector2.y point) (of_N (workingHeight (device w))) = true ->
    exists w',
      drawPoint point w = Ok tt w'
      /\ w' = add_call (CallDrawPoint point) w
      /\ arrays w' = arrays w
      /\ device w' = device w
      /\ canvas w' = canvas w
      /\ count_calls is_PutPixel (calls w') = count_calls is_PutPixel (calls w).
Proof.
  intros point w H. exists (add_call (CallDrawPoint point) w).
  split; [| repeat split; simpl; rewrite ?count_calls_add; simpl; lia].
  apply drawPoint_off. unfold on_screen.
  destruct H as [H | [H | [H | H]]].
  - rewrite (js_lt_not_ge _ _ H). reflexivity.
  - rewrite (js_ge_not_lt _ _ H). rewrite !andb_false_r. reflexivity.
  - rewrite (js_lt_not_ge _ _ H). rewrite !andb_false_r. reflexivity.
  - rewrite (js_ge_not_lt _ _ H). rewrite !andb_false_r. reflexivity.
Qed.

Lemma C3_drawPoint_discards_outside_witness :
  exists w',
    drawPoint (Vector2.mk (of_Z 1) (of_Z 2)) cleared_2x2 = Ok tt w'
    /\ arrays w' = arrays cleared_2x2.
Proof.
  destruct (C3_drawPoint_discards_outside (Vector2.mk (of_Z 1) (of_Z 2)) cleared_2x2
              (or_intror (or_intror (or_intror eq_refl))))
    as (w' & H1 & _ & H2 & _).
  exists w'. split; [exact H1 | exact H2].
Defined.

(** Truncation of a coordinate that passed the clipping test. *)
Lemma truncate_on_screen (q : Q) (size : N) :
  (0 <= q)%Q -> (q < inject_Z (Z.of_N size))%Q ->
  truncate q = Qfloor q /\ 0 <= Qfloor q < Z.of_N size.
Proof.
  intros H0 H1. split; [apply truncate_nonneg_floor; exact H0 |].
  split.
  - apply (Qfloor_resp_le 0 q). exact H0.
  - assert (inject_Z (Qfloor q) < inject_Z (Z.of_N size))%Q as Hc.
    { eapply Qle_lt_trans; [apply Qfloor_le | exact H1]. }
    rewrite <- Zlt_Qlt in Hc. exact Hc.
Qed.

Lemma in_int32_on_screen (q : Q) (size : N) :
  Z.of_N size <= two31 ->
  (0 <= q)%Q -> (q < inject_Z (Z.of_N size))%Q -> in_int32 q.
Proof.
  intros Hs H0 H1. split.
  - eapply Qlt_le_trans; [| exact H0]. reflexivity.
  - eapply Qlt_le_trans; [exact H1 |]. rewrite <- Zle_Qle. exact Hs.
Qed.

Lemma image_bytes_Z (width height : N) :
  Z.of_nat (image_bytes width height) = Z.of_N width * Z.of_N height * 4.
Proof. unfold image_bytes. lia. Qed.

(** The cell of an on-screen pixel lies inside an image of the size of the
    device. *)
Lemma cell_inside (width height : N) (x y : Z) :
  0 <= x < Z.of_N width -> 0 <= y < Z.of_N height ->
  0 <= (y * Z.of_N width + x) * 4
  /\ (y * Z.of_N width + x) * 4 + 3 < Z.of_nat (image_bytes width height).
Proof. intros Hx Hy. rewrite image_bytes_Z. nia. Qed.

(** C4: a point with [0 <= x < width] and [0 <= y < height] makes
    [drawPoint] call [putPixel] at that point with the colour (1, 1, 0, 1),
    and the four bytes of its pixel become 255, 255, 0, 255.  The device has
    a back buffer of its own size and the size of a canvas, at most 2^31. *)
Theorem C4_drawPoint_draws_yellow :
  forall (w : World) (l : loc) (data : list Z) (qx qy : Q),
    backbuffer (device w) = Some l ->
    arrays w !! l = Some data ->
    length data = image_bytes (workingWidth (device w)) (workingHeight (device w)) ->
    Z.of_N (workingWidth (device w)) <= two31 ->
    Z.of_N (workingHeight (device w)) <= two31 ->
    (0 <= qx)%Q -> (qx < inject_Z (Z.of_N (workingWidth (device w))))%Q ->
    (0 <= qy)%Q -> (qy < inject_Z (Z.of_N (workingHeight (device w))))%Q ->
    let point := Vector2.mk (Fin qx) (Fin qy) in
    let index := Z.to_nat ((Qfloor qy * Z.of_N (workingWidth (device w)) + Qfloor qx) * 4) in
    exists w' data',
      drawPoint point w = Ok tt w'
      /\ calls w' = calls w ++ [CallDrawPoint point;
                                CallPutPixel (Fin qx) (Fin qy)
                                  (Color4.mk (of_Z 1) (of_Z 1) (of_Z 0) (of_Z 1))]
      /\ arrays w' !! l = Some data'
      /\ data' !! index = Some 255
      /\ data' !! (index + 1)%nat = Some 255
      /\ data' !! (index + 2)%nat = Some 0
      /\ data' !! (index + 3)%nat = Some 255.
Proof.
  intros w l data qx qy Hb Hd Hlen Hw Hh Hx0 Hx1 Hy0 Hy1 point index.
  set (w1 := add_call (CallDrawPoint point) w).
  assert (on_screen (device w) point = true) as Hon.
  { unfold on_screen, point, of_N, of_Z. simpl Vector2.x. simpl Vector2.y.
    rewrite !andb_true_iff. repeat split.
    - apply js_ge_Fin. exact Hx0.
    - apply js_ge_Fin. exact Hy0.
    - apply js_lt_Fin. exact Hx1.
    - apply js_lt_Fin. exact Hy1. }
  destruct (truncate_on_screen qx _ Hx0 Hx1) as [Htx Hfx].
  destruct (truncate_on_screen qy _ Hy0 Hy1) as [Hty Hfy].
  pose proof (pixel_index_truncate (workingWidth (device w)) qx qy
                (in_int32_on_screen _ _ Hw Hx0 Hx1) (in_int32_on_screen _ _ Hh Hy0 Hy1))
    as Hi.
  rewrite Htx, Hty in Hi.
  destruct (cell_inside _ _ _ _ Hfx Hfy) as [Hi0 Hi3].
  rewrite <- Hlen in Hi3.
  destruct (put4_lookup _ (channel_byte (Color4.r yellow)) (channel_byte (Color4.g yellow))
              (channel_byte (Color4.b yellow)) (channel_byte (Color4.a yellow))
              data Hi0 Hi3) as (Br & Bg & Bb & Ba).
  set (w' := putPixel_world l (Fin qx) (Fin qy) yellow w1).
  assert (putPixel (Fin qx) (Fin qy) yellow w1 = Ok tt w') as Hrun
    by (apply putPixel_Some; exact Hb).
  assert (arrays w' !! l
          = Some (put4 ((Qfloor qy * Z.of_N (workingWidth (device w)) + Qfloor qx) * 4)
                       (channel_byte (Color4.r yellow)) (channel_byte (Color4.g yellow))
                       (channel_byte (Color4.b yellow)) (channel_byte (Color4.a yellow))
                       data)) as Harr.
  { unfold w'. rewrite putPixel_world_arrays, list_lookup_alter_eq.
    change (arrays w1) with (arrays w). rewrite Hd.
    change (workingWidth (device w1)) with (workingWidth (device w)).
    rewrite Hi. reflexivity. }
  eexists w', _. split; [rewrite (drawPoint_on _ _ Hon); exact Hrun |].
  split.
  { unfold w'. rewrite putPixel_world_calls. unfold w1. simpl.
    rewrite <- app_assoc. reflexivity. }
  split; [exact Harr |].
  unfold index.
  replace (Z.to_nat ((Qfloor qy * Z.of_N (workingWidth (device w)) + Qfloor qx) * 4) + 1)%nat
    with (Z.to_nat ((Qfloor qy * Z.of_N (workingWidth (device w)) + Qfloor qx) * 4 + 1)) by lia.
  replace (Z.to_nat ((Qfloor qy * Z.of_N (workingWidth (device w)) + Qfloor qx) * 4) + 2)%nat
    with (Z.to_nat ((Qfloor qy * Z.of_N (workingWidth (device w)) + Qfloor qx) * 4 + 2)) by lia.
  replace (Z.to_nat ((Qfloor qy * Z.of_N (workingWidth (device w)) + Qfloor qx) * 4) + 3)%nat
    with (Z.to_nat ((Qfloor qy * Z.of_N (workingWidth (device w)) + Qfloor qx) * 4 + 3)) by lia.
  repeat split; assumption.
Qed.

Lemma C4_drawPoint_draws_yellow_witness :
  exists w' data',
    drawPoint (Vector2.mk (Fin (3 # 2)) (Fin 1)) cleared_2x2 = Ok tt w'
    /\ arrays w' !! 0%nat = Some data'
    /\ data' !! 12%nat = Some 255
    /\ data' !! 13%nat = Some 255
    /\ data' !! 14%nat = Some 0
    /\ data' !! 15%nat = Some 255.
Proof.
  destruct (C4_drawPoint_draws_yellow cleared_2x2 0%nat (replicate 16 0) (3 # 2) 1
              eq_refl eq_refl eq_refl
              ltac:(vm_compute; discriminate) ltac:(vm_compute; discriminate)
              ltac:(vm_compute; discriminate) eq_refl
              ltac:(vm_compute; discriminate) eq_refl)
    as (w' & data' & H1 & _ & H2 & H3).
  exists w', data'. split; [exact H1 |]. split; [exact H2 | exact H3].
Defined.

(** C10: for in-bounds integer coordinates, [putPixel] changes no byte
    other than the four of pixel [(x, y)], at cells [((y * width) + x) * 4]
    to that plus 3 of the back buffer: every other byte of the back buffer,
    and every byte of any other array, is what it was, no array changes its
    length, and the canvas is not touched.  The device has the size of a
    canvas, at most 2^31. *)
Theorem C10_putPixel_changes_four_bytes :
  forall (w : World) (x y : Z) (color : Color4.t),
    0 <= x < Z.of_N (workingWidth (device w)) ->
    0 <= y < Z.of_N (workingHeight (device w)) ->
    Z.of_N (workingWidth (device w)) <= two31 ->
    Z.of_N (workingHeight (device w)) <= two31 ->
    let index := ((y * Z.of_N (workingWidth (device w))) + x) * 4 in
    let w' := final_world (putPixel (of_Z x) (of_Z y) color w) w in
    (forall (l' : loc) (j : nat),
       backbuffer (device w) <> Some l'
       \/ Z.of_nat j < index \/ index + 3 < Z.of_nat j ->
       byte_at w' l' j = byte_at w l' j)
    /\ (forall l' : loc, length <$> arrays w' !! l' = length <$> arrays w !! l')
    /\ length (arrays w') = length (arrays w)
    /\ canvas w' = canvas w
    /\ (forall l : loc, backbuffer (device w) = Some l ->
          putPixel (of_Z x) (of_Z y) color w = Ok tt w').
Proof.
  intros w x y color Hx Hy Hw Hh index w'.
  assert (pixel_index (workingWidth (device w)) (of_Z x) (of_Z y) = index) as Hi.
  { unfold pixel_index. rewrite !ToInt32_of_Z by (unfold two31 in *; lia).
    unfold index. lia. }
  destruct (backbuffer (device w)) as [l |] eqn:Hb.
  - assert (w' = putPixel_world l (of_Z x) (of_Z y) color w) as ->
      by (unfold w'; rewrite (putPixel_Some _ _ _ _ _ Hb); reflexivity).
    split; [| split; [| split; [| split]]].
    + intros l' j H. apply byte_at_putPixel_other. rewrite Hi.
      destruct H as [H | H]; [left; congruence | right; exact H].
    + intros l'. rewrite putPixel_world_arrays, list_lookup_alter.
      destruct (decide (l = l')) as [<- | Hne]; [| reflexivity].
      destruct (arrays w !! l) as [data |]; simpl; [| reflexivity].
      rewrite put4_length. reflexivity.
    + rewrite putPixel_world_arrays. apply length_alter.
    + reflexivity.
    + intros l0 [= <-]. apply putPixel_Some. exact Hb.
  - assert (w' = add_call (CallPutPixel (of_Z x) (of_Z y) color) w) as ->
      by (unfold w'; rewrite (putPixel_None _ _ _ _ Hb); reflexivity).
    repeat split; intros; try reflexivity. discriminate.
Qed.

Lemma C10_putPixel_changes_four_bytes_witness :
  let w' := final_world (putPixel (of_Z 1) (of_Z 0) yellow cleared_2x2) cleared_2x2 in
  byte_at w' 0%nat 3%nat = byte_at cleared_2x2 0%nat 3%nat
  /\ byte_at w' 0%nat 8%nat = byte_at cleared_2x2 0%nat 8%nat
  /\ byte_at w' 0%nat 4%nat = Some 255.
Proof.
  destruct (C10_putPixel_changes_four_bytes cleared_2x2 1 0 yellow
              ltac:(vm_compute; split; [discriminate | reflexivity])
              ltac:(vm_compute; split; [discriminate | reflexivity])
              ltac:(vm_compute; discriminate) ltac:(vm_compute; discriminate))
    as (H & _).
  split; [| split].
  - apply H. right. left. reflexivity.
  - apply H. right. right. reflexivity.
  - reflexivity.
Defined.

(** ** [project] *)

Lemma project_run (TransformCoordinates : Vector3.t -> Matrix.t -> Vector3.t)
    (coord : Vector3.t) (transMat : Matrix.t) (w : World) :
  project TransformCoordinates coord transMat w
  = Ok (Vector2.mk
          (shr0 (screen_x (workingWidth (device w)) (TransformCoordinates coord transMat)))
          (shr0 (screen_y (workingHeight (device w)) (TransformCoordinates coord transMat))))
       (add_call (CallTransformCoordinates coord transMat)
          (add_call (CallProject coord transMat) w)).
Proof. reflexivity. Qed.

Lemma screen_x_Fin (width : N) (px : Q) (py pz : number) :
  screen_x width (Vector3.mk (Fin px) py pz)
  = js_add (js_mul (Fin px) (of_N width)) (js_div (of_N width) (of_Z 2)).
Proof. reflexivity. Qed.

Lemma screen_y_Fin (height : N) (py : Q) (px pz : number) :
  screen_y height (Vector3.mk px (Fin py) pz)
  = js_add (js_mul (js_neg (Fin py)) (of_N height)) (js_div (of_N height) (of_Z 2)).
Proof. reflexivity. Qed.

Lemma in_int32_truncate (q : Q) : in_int32 q -> - two31 <= truncate q < two31.
Proof.
  intros [H1 H2].
  pose proof (truncate_bounds q (- two31) two31 ltac:(unfold two31; lia)
                ltac:(unfold two31; lia) H1 H2) as H.
  unfold two31 in *. lia.
Qed.




Lemma on_screen_integers (d : Device) (nx ny : Z) :
  on_screen d (Vector2.mk (of_Z nx) (of_Z ny)) = true ->
  0 <= nx < Z.of_N (workingWidth d) /\ 0 <= ny < Z.of_N (workingHeight d).
Proof.
  unfold on_screen, of_N, of_Z. simpl Vector2.x. simpl Vector2.y.
  rewrite !andb_true_iff, !js_ge_Fin, !js_lt_Fin, <- !Zle_Qle, <- !Zlt_Qlt. lia.
Qed.

(** C8: the point returned by [project] has integer coordinates, and when
    it passes the clipping test of [drawPoint] the cell computed by
    [putPixel] for it satisfies [0 <= index] and
    [index + 3 < width * height * 4]: the four stores are inside a back
    buffer of the size of the device. *)
Theorem C8_projected_point_cell_in_buffer :
  forall (TransformCoordinates : Vector3.t -> Matrix.t -> Vector3.t)
         (coord : Vector3.t) (transMat : Matrix.t) (w w' : World) (p : Vector2.t),
    project TransformCoordinates coord transMat w = Ok p w' ->
    on_screen (device w') p = true ->
    let width := Z.of_N (workingWidth (device w')) in
    let height := Z.of_N (workingHeight (device w')) in
    let index := pixel_index (workingWidth (device w')) (Vector2.x p) (Vector2.y p) in
    (exists nx ny : Z, p = Vector2.mk (of_Z nx) (of_Z ny)
                       /\ index = (ny * width + nx) * 4)
    /\ 0 <= index
    /\ index + 3 < width * height * 4
    /\ (forall (l : loc) (data : list Z),
          backbuffer (device w') = Some l ->
          arrays w' !! l = Some data ->
          length data = image_bytes (workingWidth (device w')) (workingHeight (device w')) ->
          index + 3 < Z.of_nat (length data)).
Proof.
  intros TC coord M w w' p Hrun Hon width height index.
  rewrite project_run in Hrun. injection Hrun as <- <-.
  change (device (add_call _ (add_call _ w))) with (device w) in *.
  set (nx := ToInt32 (screen_x (workingWidth (device w)) (TC coord M))) in *.
  set (ny := ToInt32 (screen_y (workingHeight (device w)) (TC coord M))) in *.
  unfold shr0 in *. fold nx ny in Hon, index.
  destruct (on_screen_integers _ _ _ Hon) as [Hx Hy].
  assert (index = (ny * Z.of_N (workingWidth (device w)) + nx) * 4) as Hi.
  { unfold index, pixel_index. simpl Vector2.x. simpl Vector2.y.
    rewrite !ToInt32_of_Z by apply ToInt32_range. lia. }
  destruct (cell_inside _ _ _ _ Hx Hy) as [H0 H3].
  rewrite image_bytes_Z in H3. rewrite <- Hi in H0, H3.
  split; [exists nx, ny; split; [reflexivity | exact Hi] |].
  split; [exact H0 |]. split; [exact H3 |].
  intros l data _ _ Hlen. rewrite Hlen, image_bytes_Z. exact H3.
Qed.

Lemma C8_projected_point_cell_in_buffer_witness :
  0 <= pixel_index 2 (of_Z 1) (of_Z 1)
  /\ pixel_index 2 (of_Z 1) (of_Z 1) + 3 < 2 * 2 * 4.
Proof.
  destruct (C8_projected_point_cell_in_buffer MathSpec.TransformCoordinates
              (Vector3.mk (of_Z 0) (of_Z 0) (of_Z 0)) MathSpec.Identity
              cleared_2x2 _ _ eq_refl eq_refl)
    as (_ & H0 & H3 & _).
  split; [exact H0 | exact H3].
Defined.

(** ** The byte stored for a channel *)

Lemma channel_byte_Fin (q : Q) :
  channel_byte (Fin q) = ToUint8Clamp (js_mul (Fin q) (of_Z 255)).
Proof. reflexivity. Qed.

(** [ToUint8Clamp] of a value between 0 and 255 rounds to the nearest
    integer, a tie going to the even one. *)
Lemma ToUint8Clamp_nearest (v : Q) :
  (0 <= v)%Q -> (v <= 255)%Q ->
  0 <= ToUint8Clamp (Fin v) <= 255 /\ nearest_even v (ToUint8Clamp (Fin v)).
Proof.
  intros H0 H255. unfold ToUint8Clamp, nearest_even.
  destruct (Qle_bool v 0) eqn:E0.
  { apply Qle_bool_iff in E0. split; [lia |].
    change (inject_Z 0) with 0%Q.
    split; [lra |]. split; [lra |]. intros [H | H]; lra. }
  destruct (Qle_bool 255 v) eqn:E255.
  { apply Qle_bool_iff in E255. split; [lia |].
    change (inject_Z 255) with 255%Q.
    split; [lra |]. split; [lra |]. intros [H | H]; lra. }
  assert (0 < v)%Q as Hpos.
  { destruct (Qlt_le_dec 0 v) as [H | H]; [exact H |].
    apply Qle_bool_iff in H. congruence. }
  assert (v < 255)%Q as Hlt.
  { destruct (Qlt_le_dec v 255) as [H | H]; [exact H |].
    apply Qle_bool_iff in H. congruence. }
  destruct (Qfloor_bounds v) as [Hf1 Hf2].
  assert (0 <= Qfloor v <= 254) as Hrange.
  { split.
    - apply (Qfloor_resp_le 0 v), Qlt_le_weak, Hpos.
    - assert (inject_Z (Qfloor v) < inject_Z 255)%Q as Hc
        by (change (inject_Z 255) with 255%Q; lra).
      rewrite <- Zlt_Qlt in Hc. lia. }
  destruct (v ?= inject_Z (Qfloor v) + (1 # 2))%Q eqn:Ec.
  - apply Qeq_alt in Ec. destruct (Z.even (Qfloor v)) eqn:Ev.
    + split; [lia |]. split; [lra |]. split; [lra |]. intros _. exact Ev.
    + split; [lia |]. rewrite inject_Z_plus. change (inject_Z 1) with 1%Q.
      split; [lra |]. split; [lra |]. intros _.
      rewrite Z.even_add, Ev. reflexivity.
  - apply Qlt_alt in Ec. split; [lia |].
    split; [lra |]. split; [lra |]. intros [H | H]; lra.
  - apply Qgt_alt in Ec. split; [lia |]. rewrite inject_Z_plus.
    change (inject_Z 1) with 1%Q.
    split; [lra |]. split; [lra |]. intros [H | H]; lra.
Qed.

(** The binary64 product of a channel in [0, 1] and 255. *)
Lemma channel_product_exists (q : Q) :
  (0 <= q)%Q -> (q <= 1)%Q -> exists v : Q, channel_product q v.
Proof.
  intros H0 H1. unfold channel_product, of_Z. cbn [js_mul].
  destruct (round64_between (q * inject_Z 255) 0 (inject_Z 255)) as (v & Hv & V0 & V255).
  { change (inject_Z 255) with 255%Q. lra. }
  { change (inject_Z 255) with 255%Q. lra. }
  { reflexivity. }
  { vm_compute. reflexivity. }
  change (inject_Z 255) with 255%Q in *.
  exists v. split; [exact Hv |]. split; [exact V0 |]. split; [exact V255 |].
  destruct (round64_cases (q * 255)) as [[Hq E] | [[Hq E] | [Hq E]]];
    rewrite E in Hv.
  - injection Hv as <-.
    assert (0 < 2 ^ (-46))%Q by reflexivity. split; lra.
  - destruct (round64_pos_error _ _ Hq Hv) as [E1 E2].
    assert (exponent64 (q * 255) <= -45) as He.
    { apply (exponent64_below _ 8); [exact Hq | | lia].
      assert (255 < 2 ^ 8)%Q by reflexivity. lra. }
    pose proof (pow2_le (exponent64 (q * 255) - 1) (-46) ltac:(lia)).
    split; lra.
  - lra.
Qed.

Lemma channel_byte_nearest (q v : Q) :
  channel_product q v ->
  0 <= channel_byte (Fin q) <= 255 /\ nearest_even v (channel_byte (Fin q)).
Proof.
  intros (Hv & H0 & H255 & _). rewrite channel_byte_Fin, Hv.
  apply ToUint8Clamp_nearest; assumption.
Qed.

(** The literal [0.999] as a channel: the product is near 254.745, and the
    byte stored is 255. *)
Example channel_byte_0_999 : channel_byte (round64 (999 # 1000)) = 255.
Proof. vm_compute. reflexivity. Qed.

(** C6, as the code has it: for a colour with channels in [0, 1] and an
    in-bounds pixel, [putPixel] multiplies each channel by 255, in binary64
    arithmetic, and stores the product into the [Uint8ClampedArray] of the
    back buffer, which keeps the nearest integer in 0..255, the even one on
    a tie.  The product is within 2^-46 of 255 times the channel. *)
Theorem C6_putPixel_rounds_channels :
  forall (w : World) (l : loc) (data : list Z) (x y : Z) (qr qg qb qa : Q),
    backbuffer (device w) = Some l ->
    arrays w !! l = Some data ->
    length data = image_bytes (workingWidth (device w)) (workingHeight (device w)) ->
    0 <= x < Z.of_N (workingWidth (device w)) ->
    0 <= y < Z.of_N (workingHeight (device w)) ->
    Z.of_N (workingWidth (device w)) <= two31 ->
    Z.of_N (workingHeight (device w)) <= two31 ->
    (0 <= qr <= 1)%Q -> (0 <= qg <= 1)%Q -> (0 <= qb <= 1)%Q -> (0 <= qa <= 1)%Q ->
    let index := ((y * Z.of_N (workingWidth (device w))) + x) * 4 in
    exists (w' : World) (vr vg vb va : Q) (br bg bb ba : Z),
      putPixel (of_Z x) (of_Z y) (Color4.mk (Fin qr) (Fin qg) (Fin qb) (Fin qa)) w
      = Ok tt w'
      /\ byte_at w' l (Z.to_nat index) = Some br
      /\ byte_at w' l (Z.to_nat (index + 1)) = Some bg
      /\ byte_at w' l (Z.to_nat (index + 2)) = Some bb
      /\ byte_at w' l (Z.to_nat (index + 3)) = Some ba
      /\ (channel_product qr vr /\ 0 <= br <= 255 /\ nearest_even vr br)
      /\ (channel_product qg vg /\ 0 <= bg <= 255 /\ nearest_even vg bg)
      /\ (channel_product qb vb /\ 0 <= bb <= 255 /\ nearest_even vb bb)
      /\ (channel_product qa va /\ 0 <= ba <= 255 /\ nearest_even va ba).
Proof.
  intros w l data x y qr qg qb qa Hb Hd Hlen Hx Hy Hw Hh Hr Hg Hbl Ha index.
  set (color := Color4.mk (Fin qr) (Fin qg) (Fin qb) (Fin qa)).
  assert (pixel_index (workingWidth (device w)) (of_Z x) (of_Z y) = index) as Hi.
  { unfold pixel_index. rewrite !ToInt32_of_Z by (unfold two31 in *; lia).
    unfold index. lia. }
  destruct (cell_inside _ _ _ _ Hx Hy) as [H0 H3]. fold index in H0, H3.
  rewrite <- Hlen in H3.
  destruct (put4_lookup index (channel_byte (Fin qr)) (channel_byte (Fin qg))
              (channel_byte (Fin qb)) (channel_byte (Fin qa)) data H0 H3)
    as (Lr & Lg & Lb & La).
  destruct Hr as [Hr0 Hr1], Hg as [Hg0 Hg1], Hbl as [Hb0 Hb1], Ha as [Ha0 Ha1].
  destruct (channel_product_exists qr Hr0 Hr1) as [vr Pr].
  destruct (channel_product_exists qg Hg0 Hg1) as [vg Pg].
  destruct (channel_product_exists qb Hb0 Hb1) as [vb Pb].
  destruct (channel_product_exists qa Ha0 Ha1) as [va Pa].
  exists (putPixel_world l (of_Z x) (of_Z y) color w), vr, vg, vb, va,
    (channel_byte (Fin qr)), (channel_byte (Fin qg)),
    (channel_byte (Fin qb)), (channel_byte (Fin qa)).
  split; [apply putPixel_Some; exact Hb |].
  unfold byte_at. rewrite putPixel_world_arrays, list_lookup_alter_eq, Hd, Hi.
  cbn [mbind option_bind color Color4.r Color4.g Color4.b Color4.a].
  repeat (split; [assumption |]).
  split; [split; [exact Pr | exact (channel_byte_nearest _ _ Pr)] |].
  split; [split; [exact Pg | exact (channel_byte_nearest _ _ Pg)] |].
  split; [split; [exact Pb | exact (channel_byte_nearest _ _ Pb)] |].
  split; [exact Pa | exact (channel_byte_nearest _ _ Pa)].
Qed.

(** The colour (1/2, 1/4, 0, 1) at pixel (0, 1) of a cleared 2 x 2 device:
    127.5 is stored as 128, the even neighbour, and 63.75 as 64. *)
Lemma C6_putPixel_rounds_channels_witness :
  exists w',
    putPixel (of_Z 0) (of_Z 1)
      (Color4.mk (Fin (1 # 2)) (Fin (1 # 4)) (Fin 0) (Fin 1)) cleared_2x2
    = Ok tt w'
    /\ byte_at w' 0%nat 8%nat = Some 128
    /\ byte_at w' 0%nat 9%nat = Some 64
    /\ byte_at w' 0%nat 10%nat = Some 0
    /\ byte_at w' 0%nat 11%nat = Some 255.
Proof.
  destruct (C6_putPixel_rounds_channels cleared_2x2 0%nat (replicate 16 0) 0 1
              (1 # 2) (1 # 4) 0 1 eq_refl eq_refl eq_refl
              ltac:(vm_compute; split; discriminate || reflexivity)
              ltac:(vm_compute; split; discriminate || reflexivity)
              ltac:(vm_compute; discriminate) ltac:(vm_compute; discriminate)
              ltac:(split; vm_compute; discriminate)
              ltac:(split; vm_compute; discriminate)
              ltac:(split; vm_compute; discriminate)
              ltac:(split; vm_compute; discriminate))
    as (w' & vr & vg & vb & va & br & bg & bb & ba & Hrun & Hr & Hg & Hb & Ha & _).
  exists w'. split; [exact Hrun |].
  rewrite (putPixel_Some _ _ _ cleared_2x2 0%nat eq_refl) in Hrun. injection Hrun as <-.
  repeat split; vm_compute; reflexivity.
Defined.

(** The colour (0.999, 0, 0, 1) at pixel (0, 0) of a cleared 2 x 2 device:
    the red byte stored is 255, and 254 is the truncation of the product. *)
Lemma C6_putPixel_does_not_truncate :
  ~ putPixel_truncates cleared_2x2 0%nat 0 0
      (Color4.mk (round64 (999 # 1000)) (of_Z 0) (of_Z 0) (of_Z 1)).
Proof.
  intros (w' & Hrun & Hr & _).
  rewrite (putPixel_Some _ _ _ cleared_2x2 0%nat eq_refl) in Hrun. injection Hrun as <-.
  vm_compute in Hr. discriminate Hr.
Qed.

(** ** The size of the device and of its buffers *)

Lemma clear_run (w : World) :
  clear w
  = if ((workingWidth (device w) =? 0) || (workingHeight (device w) =? 0))%N
    then Throw IndexSizeError
           (set_canvas (replicate (length (canvas w)) 0) (add_call CallClear w))
    else Ok tt (clear_world w).
Proof.
  unfold clear, clear_world, clearRect, assign_backbuffer.
  rewrite record_bind, gets_bind, !bind_run. simpl.
  unfold getImageData. simpl.
  destruct ((workingWidth (device w) =? 0) || (workingHeight (device w) =? 0))%N;
    [reflexivity |].
  rewrite bind_run. cbn beta. unfold modify. cbn [set_canvas canvas].
  rewrite resize_replicate. reflexivity.
Qed.

#[export] Instance keeps_sized_kept (width height : N) : Kept (keeps_sized width height).
Proof.
  unfold keeps_sized. split.
  - auto.
  - auto.
  - intros c w _ _ H. exact H.
  - intros l w Hb (Hw & Hh & Hall & Hbb & Hbd).
    repeat split; simpl; auto.
    intros l' [= <-]. apply Hbb. exact Hb.
  - intros l index byte w _ (Hw & Hh & Hall & Hbb & Hbd).
    repeat split; simpl; auto.
    + apply Forall_alter; [exact Hall |].
      intros data _ Hlen. rewrite write_byte_length. exact Hlen.
    + intros l' H. rewrite length_alter. apply Hbb. exact H.
    + intros l' H. rewrite length_alter. apply Hbd. exact H.
Qed.

Lemma sized_clear_world (width height : N) (w : World) :
  sized width height w -> sized width height (clear_world w).
Proof.
  intros (Hw & Hh & Hall & Hbb & Hbd). unfold clear_world.
  repeat split; simpl; auto.
  - apply Forall_app. split; [exact Hall |].
    constructor; [| constructor]. rewrite length_replicate, Hw, Hh. reflexivity.
  - intros l [= <-]. rewrite length_app. simpl. lia.
  - intros l H. rewrite length_app. specialize (Hbd l H). lia.
Qed.

Lemma stable_clear (width height : N) : stable (keeps_sized width height) clear.
Proof.
  intros w. rewrite clear_run.
  destruct ((workingWidth (device w) =? 0) || (workingHeight (device w) =? 0))%N.
  - intros H. exact H.
  - exact (sized_clear_world width height w).
Qed.

Lemma stable_present (width height : N) (lossy : Lossy) :
  stable (keeps_sized width height) (present lossy).
Proof.
  intros w. unfold present, putImageData. rewrite record_bind, gets_bind. simpl.
  destruct (backbuffer (device w)) as [l |]; simpl; [| intros H; exact H].
  destruct (arrays w !! l); intros H; exact H.
Qed.

Section DriverSized.

Variable TransformCoordinates : Vector3.t -> Matrix.t -> Vector3.t.
Variable LookAtLH : Vector3.t -> Vector3.t -> Vector3.t -> Matrix.t.
Variable PerspectiveFovLH : number -> number -> number -> number -> Matrix.t.
Variable RotationYawPitchRoll : number -> number -> number -> Matrix.t.
Variable Translation : number -> number -> number -> Matrix.t.
Variable multiply : Matrix.t -> Matrix.t -> Matrix.t.
Variable lossy : Lossy.

Local Abbreviation run_op' :=
  (run_op TransformCoordinates LookAtLH PerspectiveFovLH RotationYawPitchRoll
          Translation multiply lossy).
Local Abbreviation run_ops' :=
  (run_ops TransformCoordinates LookAtLH PerspectiveFovLH RotationYawPitchRoll
           Translation multiply lossy).

Lemma stable_run_op (width height : N) (op : Op) :
  stable (keeps_sized width height) (run_op' op).
Proof.
  destruct op; simpl.
  - apply stable_clear.
  - apply stable_present.
  - apply stable_putPixel. exact _.
  - apply stable_drawPoint. exact _.
  - apply stable_render; [exact _ |]. intros c w H. exact H.
  - intros w H. exact H.
Qed.

Lemma sized_run_ops (width height : N) (ops : list Op) :
  forall w, sized width height w -> sized width height (run_ops' ops w).
Proof.
  induction ops as [| op ops IH]; intros w H; simpl; [exact H |].
  apply IH. pose proof (stable_run_op width height op w) as Hs.
  destruct (run_op' op w); simpl; auto.
Qed.

End DriverSized.

Lemma sized_init_world (width height : N) (cam : Camera.t) (ms : list Mesh.t) :
  sized width height (init_world width height cam ms).
Proof.
  repeat split; simpl; auto; intros l H; discriminate H.
Qed.

(** C7: the width and the height of the device are those given at
    construction whatever operations have run since ([clear], [present],
    [putPixel], [drawPoint], [render], changes of the scene), every buffer of
    the device has exactly [width * height * 4] bytes, the back buffer
    included, and [clear] makes the back buffer a newly allocated array of
    that size filled with zero, leaving the arrays allocated before as they
    are; it throws only for a device with an empty side. *)
Theorem C7_size_fixed_and_buffer_length :
  forall TransformCoordinates LookAtLH PerspectiveFovLH RotationYawPitchRoll
         Translation multiply (lossy : Lossy)
         (width height : N) (cam : Camera.t) (ms : list Mesh.t) (ops : list Op),
    let w := run_ops TransformCoordinates LookAtLH PerspectiveFovLH
                     RotationYawPitchRoll Translation multiply lossy ops
                     (init_world width height cam ms) in
    workingWidth (device w) = width
    /\ workingHeight (device w) = height
    /\ Forall (fun data => length data = N.to_nat (width * height * 4)) (arrays w)
    /\ match backbuffer (device w) with
       | Some l => exists data, arrays w !! l = Some data
                                /\ length data = N.to_nat (width * height * 4)
       | None => True
       end
    /\ match clear w with
       | Ok _ w' =>
           backbuffer (device w') = Some (length (arrays w))
           /\ arrays w' = arrays w ++ [replicate (N.to_nat (width * height * 4)) 0]
           /\ workingWidth (device w') = width
           /\ workingHeight (device w') = height
       | Throw e _ => e = IndexSizeError /\ (width = 0%N \/ height = 0%N)
       | OutOfFuel => False
       end.
Proof.
  intros TC LA PF RY TR MU LO width height cam ms ops w.
  pose proof (sized_run_ops TC LA PF RY TR MU LO width height ops _
                (sized_init_world width height cam ms)) as Hs.
  fold w in Hs. destruct Hs as (Hw & Hh & Hall & Hbb & Hbd).
  split; [exact Hw |]. split; [exact Hh |]. split; [exact Hall |]. split.
  - destruct (backbuffer (device w)) as [l |] eqn:E; [| exact I].
    destruct (lookup_lt_is_Some_2 (arrays w) l (Hbb l eq_refl)) as [data Hd].
    exists data. split; [exact Hd |].
    rewrite Forall_lookup in Hall. exact (Hall l data Hd).
  - rewrite clear_run, Hw, Hh.
    destruct ((width =? 0) || (height =? 0))%N eqn:E.
    + split; [reflexivity |]. apply orb_true_iff in E.
      destruct E as [E | E]; apply N.eqb_eq in E; auto.
    + unfold clear_world. simpl. rewrite Hw, Hh. auto.
Qed.

(** ** The calls of [render], in order *)

Lemma keep_refl (w : World) : keep w w.
Proof. repeat split. Qed.

Lemma keep_trans (w1 w2 w3 : World) : keep w1 w2 -> keep w2 w3 -> keep w1 w3.
Proof.
  intros (A1 & A2 & A3 & A4 & A5) (B1 & B2 & B3 & B4 & B5).
  repeat split; congruence.
Qed.

Lemma keep_add_call (c : Call) (w : World) : keep w (add_call c w).
Proof. repeat split. Qed.

Lemma on_screen_keep (w w' : World) (point : Vector2.t) :
  keep w w' -> on_screen (device w') point = on_screen (device w) point.
Proof. intros (H1 & H2 & _). unfold on_screen. rewrite H1, H2. reflexivity. Qed.

Lemma vertex_calls_keep TransformCoordinates (w w' : World) (T : Matrix.t) (v : Vector3.t) :
  keep w w' ->
  vertex_calls TransformCoordinates (device w') T v
  = vertex_calls TransformCoordinates (device w) T v.
Proof.
  intros H. unfold vertex_calls.
  assert (screen_point TransformCoordinates (device w') T v
          = screen_point TransformCoordinates (device w) T v) as ->.
  { destruct H as (H1 & H2 & _). unfold screen_point. rewrite H1, H2. reflexivity. }
  rewrite (on_screen_keep _ _ _ H). reflexivity.
Qed.

(** Calls recorded before a computation are put in front of its own. *)
Lemma logs_shift {A : Type} (c c1 : M A) (w w1 : World) (pre tr : list Call) :
  calls w1 = calls w ++ pre -> keep w w1 -> c w = c1 w1 ->
  logs c1 w1 tr -> logs c w (pre ++ tr).
Proof.
  intros Hc Hk Heq H. unfold logs in *. rewrite Heq.
  destruct (c1 w1) as [a w' | e w' |]; [| | exact H].
  - destruct H as [H1 H2]. split; [| eapply keep_trans; eassumption].
    rewrite H1, Hc, <- app_assoc. reflexivity.
  - destruct H as (He & Hb & [rest Hr] & H2).
    split; [exact He |]. split.
    { destruct Hk as (_ & _ & Hk & _). congruence. }
    split; [| eapply keep_trans; eassumption].
    exists rest. rewrite Hr, Hc, <- app_assoc. reflexivity.
Qed.

Lemma logs_for_each {A : Type} (f : A -> M unit) (t : A -> list Call) (w0 : World) :
  (forall a w, keep w0 w -> logs (f a) w (t a)) ->
  forall l w, keep w0 w -> logs (for_each f l) w (concat (map t l)).
Proof.
  intros Hf. induction l as [| a l IH]; intros w Hk.
  - unfold logs. simpl. rewrite app_nil_r. split; [reflexivity | apply keep_refl].
  - specialize (Hf a w Hk). unfold logs in *. simpl for_each. rewrite bind_run.
    simpl map. simpl concat.
    destruct (f a w) as [[] w1 | e w1 |]; [| | exact Hf].
    + destruct Hf as [H1 H2].
      specialize (IH w1 (keep_trans _ _ _ Hk H2)).
      destruct (for_each f l w1) as [[] w2 | e w2 |]; [| | exact IH].
      * destruct IH as [I1 I2]. split; [| eapply keep_trans; eassumption].
        rewrite I1, H1, <- app_assoc. reflexivity.
      * destruct IH as (He & Hb & [rest Hr] & I2).
        split; [exact He |]. split.
        { destruct H2 as (_ & _ & H2 & _). congruence. }
        split; [| eapply keep_trans; eassumption].
        exists rest. rewrite Hr, H1, <- app_assoc. reflexivity.
    + destruct Hf as (He & Hb & [rest Hr] & H2).
      split; [exact He |]. split; [exact Hb |]. split; [| exact H2].
      exists (rest ++ concat (map t l)). rewrite app_assoc, Hr, <- app_assoc. reflexivity.
Qed.

Section RenderCalls.

Variable TransformCoordinates : Vector3.t -> Matrix.t -> Vector3.t.
Variable LookAtLH : Vector3.t -> Vector3.t -> Vector3.t -> Matrix.t.
Variable PerspectiveFovLH : number -> number -> number -> number -> Matrix.t.
Variable RotationYawPitchRoll : number -> number -> number -> Matrix.t.
Variable Translation : number -> number -> number -> Matrix.t.
Variable multiply : Matrix.t -> Matrix.t -> Matrix.t.

Lemma logs_draw_vertex_spec (T : Matrix.t) (v : Vector3.t) (w : World) :
logs (draw_vertex_spec TransformCoordinates T v) w
     (vertex_calls TransformCoordinates (device w) T v).
Proof.
unfold logs, draw_vertex_spec, vertex_calls. rewrite bind_run, project_run.
fold (screen_point TransformCoordinates (device w) T v).
set (p := screen_point TransformCoordinates (device w) T v).
set (w1 := add_call (CallTransformCoordinates v T) (add_call (CallProject v T) w)).
destruct (on_screen (device w) p) eqn:Hon.
- rewrite (drawPoint_on p w1 Hon).
  destruct (backbuffer (device w)) as [l |] eqn:Hb.
  + rewrite (putPixel_Some _ _ _ (add_call (CallDrawPoint p) w1) l Hb).
    split; [| repeat split].
    rewrite putPixel_world_calls. unfold w1. simpl.
    rewrite <- !app_assoc. reflexivity.
  + rewrite (putPixel_None _ _ _ (add_call (CallDrawPoint p) w1) Hb).
    split; [reflexivity |]. split; [reflexivity |]. split; [| repeat split].
    exists []. unfold w1. simpl. rewrite <- !app_assoc. reflexivity.
- rewrite (drawPoint_off p w1 Hon). split; [| repeat split].
  unfold w1. simpl. rewrite <- !app_assoc. reflexivity.
Qed.

Lemma logs_draw_mesh_spec (V P : Matrix.t) (mesh : Mesh.t) (w : World) :
logs (draw_mesh_spec TransformCoordinates RotationYawPitchRoll Translation multiply
                     V P mesh) w
     (mesh_calls TransformCoordinates RotationYawPitchRoll Translation multiply
                 (device w) V P mesh).
Proof.
unfold mesh_calls.
set (rot := rotation_matrix RotationYawPitchRoll mesh).
set (tra := translation_matrix Translation mesh).
set (wor := world_matrix RotationYawPitchRoll Translation multiply mesh).
set (T := transform_matrix RotationYawPitchRoll Translation multiply V P mesh).
set (w5 :=
  add_call (CallMultiply (multiply wor V) P)
    (add_call (CallMultiply wor V)
      (add_call (CallMultiply rot tra)
        (add_call (CallTranslation (Vector3.x (Mesh.Position mesh))
                                   (Vector3.y (Mesh.Position mesh))
                                   (Vector3.z (Mesh.Position mesh)))
          (add_call (CallRotationYawPitchRoll (Vector3.y (Mesh.Rotation mesh))
                                              (Vector3.x (Mesh.Rotation mesh))
                                              (Vector3.z (Mesh.Rotation mesh)))
             w))))).
apply logs_shift with
  (c1 := for_each (draw_vertex_spec TransformCoordinates T) (Mesh.Vertices mesh))
  (w1 := w5).
- unfold w5. simpl. rewrite <- !app_assoc. reflexivity.
- repeat split.
- unfold draw_mesh_spec, Matrix_RotationYawPitchRoll, Matrix_Translation,
    Matrix_multiply.
  rewrite !record_ret_bind. reflexivity.
- apply logs_for_each with (w0 := w); [| repeat split].
  intros v w' Hk.
  rewrite <- (vertex_calls_keep TransformCoordinates w w' _ v Hk).
  apply logs_draw_vertex_spec.
Qed.

Lemma logs_render_spec (w : World) :
logs (render_spec TransformCoordinates LookAtLH PerspectiveFovLH
                  RotationYawPitchRoll Translation multiply) w
     (render_calls TransformCoordinates LookAtLH PerspectiveFovLH
                   RotationYawPitchRoll Translation multiply w).
Proof.
unfold render_calls.
set (V := view_matrix LookAtLH (mera w)).
set (P := projection_matrix PerspectiveFovLH (device w)).
set (w4 :=
  add_call (CallPerspectiveFovLH fov
              (js_div (of_N (workingWidth (device w))) (of_N (workingHeight (device w))))
              znear zfar)
    (add_call (CallLookAtLH (Camera.Position (mera w)) (Camera.Target (mera w))
                            Vector3.Up)
      (add_call CallUp (add_call CallRender w)))).
apply logs_shift with
  (c1 := for_each (draw_mesh_spec TransformCoordinates RotationYawPitchRoll
                                  Translation multiply V P) (meshes w))
  (w1 := w4).
- unfold w4. simpl. rewrite <- !app_assoc. reflexivity.
- repeat split.
- unfold render_spec, Vector3_Up, Matrix_LookAtLH, Matrix_PerspectiveFovLH.
  repeat first [rewrite record_bind | rewrite gets_bind | rewrite record_ret_bind].
  reflexivity.
- apply logs_for_each with (w0 := w); [| repeat split].
  intros mesh w' Hk.
  assert (mesh_calls TransformCoordinates RotationYawPitchRoll Translation multiply
                     (device w) V P mesh
          = mesh_calls TransformCoordinates RotationYawPitchRoll Translation multiply
                       (device w') V P mesh) as ->.
  { unfold mesh_calls. f_equal. f_equal. apply map_ext. intros v.
    symmetry. apply vertex_calls_keep. exact Hk. }
  apply logs_draw_mesh_spec.
Qed.

End RenderCalls.

(** C1: [render] builds the view and the projection matrix once per call,
    before its loops, and then, for each mesh in sequence order, composes
    rotation . translation, then world . view . projection, and projects and
    draws each vertex in index order.  It is the same computation as
    [render_spec]; it always returns or throws; the calls it records are
    exactly [render_calls], in that order, unless it stops at a [putPixel]
    for want of a back buffer, and then they are the beginning of that list;
    and one call adds exactly one [LookAtLH] and one [PerspectiveFovLH] to
    the recorded calls. *)
Theorem C1_render_is_render_spec :
  forall TransformCoordinates LookAtLH PerspectiveFovLH RotationYawPitchRoll
         Translation multiply (w : World),
    let r := render TransformCoordinates LookAtLH PerspectiveFovLH
                    RotationYawPitchRoll Translation multiply w in
    r = render_spec TransformCoordinates LookAtLH PerspectiveFovLH
                    RotationYawPitchRoll Translation multiply w
    /\ r <> OutOfFuel
    /\ logs (render TransformCoordinates LookAtLH PerspectiveFovLH
                    RotationYawPitchRoll Translation multiply) w
            (render_calls TransformCoordinates LookAtLH PerspectiveFovLH
                          RotationYawPitchRoll Translation multiply w)
    /\ count_calls is_LookAtLH (calls (final_world r w))
       = S (count_calls is_LookAtLH (calls w))
    /\ count_calls is_PerspectiveFovLH (calls (final_world r w))
       = S (count_calls is_PerspectiveFovLH (calls w)).
Proof.
  intros TC LA PF RY TR MU w r. subst r.
  split; [apply render_refines |].
  split; [rewrite render_refines; apply returns_render_spec |].
  split.
  - unfold logs. rewrite render_refines. apply logs_render_spec.
  - rewrite render_refines. apply render_spec_counts.
Qed.

(** C9: [render] never changes its inputs: when it has returned or thrown,
    the camera (Position and Target) and the sequence of meshes (the name,
    Position, Rotation and Vertices of each) are what they were before the
    call. *)
Theorem C9_render_keeps_scene :
  forall TransformCoordinates LookAtLH PerspectiveFovLH RotationYawPitchRoll
         Translation multiply (w : World),
    let r := render TransformCoordinates LookAtLH PerspectiveFovLH
                    RotationYawPitchRoll Translation multiply w in
    r <> OutOfFuel
    /\ Camera.Position (mera (final_world r w)) = Camera.Position (mera w)
    /\ Camera.Target (mera (final_world r w)) = Camera.Target (mera w)
    /\ meshes (final_world r w) = meshes w.
Proof.
  intros TC LA PF RY TR MU w r.
  assert (r <> OutOfFuel) as Hret.
  { subst r. rewrite render_refines. apply returns_render_spec. }
  split; [exact Hret |].
  pose proof (stable_render same_scene TC LA PF RY TR MU) as Hs.
  specialize (Hs (fun c w0 => conj eq_refl eq_refl) w).
  fold r in Hs.
  destruct r as [[] w' | e w' |]; [| | congruence];
    destruct Hs as [Hc Hm]; simpl; rewrite Hc, Hm; auto.
Qed.


(** * The frame driver and the picture: properties *)

(** ** Induction over the pixels drawn by [render] *)

Lemma stable_for_each_draw (R : World -> World -> Prop) `{!KeptDraw R}
    {A : Type} (f : A -> M unit) (l : list A) :
  (forall a, stable R (f a)) -> stable R (for_each f l).
Proof.
  intros Hf. induction l as [| a l IH]; intros w; simpl.
  - apply D_refl.
  - rewrite bind_run. specialize (Hf a w).
    destruct (f a w) as [[] w1 | e w1 |]; [| exact Hf | exact I].
    specialize (IH w1).
    destruct (for_each f l w1) as [[] w2 | e w2 |]; [| | exact I];
      apply D_trans with w1; assumption.
Qed.

(** Calls recorded before a stable computation keep it stable. *)
Lemma stable_shift (R : World -> World -> Prop) `{!KeptDraw R}
    {A : Type} (c c1 : M A) (w w1 : World) :
  R w w1 -> c w = c1 w1 -> stable R c1 ->
  match c w with
  | Ok _ w' => R w w'
  | Throw _ w' => R w w'
  | OutOfFuel => True
  end.
Proof.
  intros H1 Heq Hs. rewrite Heq. specialize (Hs w1).
  destruct (c1 w1); [| | exact I]; apply D_trans with w1; assumption.
Qed.

Section DrawInduction.

Variable TransformCoordinates : Vector3.t -> Matrix.t -> Vector3.t.
Variable LookAtLH : Vector3.t -> Vector3.t -> Vector3.t -> Matrix.t.
Variable PerspectiveFovLH : number -> number -> number -> number -> Matrix.t.
Variable RotationYawPitchRoll : number -> number -> number -> Matrix.t.
Variable Translation : number -> number -> number -> Matrix.t.
Variable multiply : Matrix.t -> Matrix.t -> Matrix.t.

Context (R : World -> World -> Prop) `{!KeptDraw R}.

Lemma stable_draw_vertex_draw (T : Matrix.t) (v : Vector3.t) :
  stable R (draw_vertex_spec TransformCoordinates T v).
Proof.
  intros w. unfold draw_vertex_spec. rewrite bind_run, project_run.
  set (nx := ToInt32 (screen_x (workingWidth (device w)) (TransformCoordinates v T))).
  set (ny := ToInt32 (screen_y (workingHeight (device w)) (TransformCoordinates v T))).
  unfold shr0. fold nx ny.
  set (p := Vector2.mk (of_Z nx) (of_Z ny)).
  set (w1 := add_call (CallTransformCoordinates v T) (add_call (CallProject v T) w)).
  assert (R w w1) as H1.
  { apply D_trans with (add_call (CallProject v T) w); apply D_call. }
  assert (R w (add_call (CallDrawPoint p) w1)) as H2.
  { apply D_trans with w1; [exact H1 | apply D_call]. }
  destruct (on_screen (device w) p) eqn:Hon.
  - rewrite (drawPoint_on p w1 Hon).
    destruct (backbuffer (device w)) as [l |] eqn:Hb.
    + rewrite (putPixel_Some _ _ _ (add_call (CallDrawPoint p) w1) l Hb).
      apply D_trans with (add_call (CallDrawPoint p) w1); [exact H2 |].
      destruct (on_screen_integers _ _ _ Hon) as [Hx Hy].
      apply D_pixel; try assumption.
      * apply ToInt32_range.
      * apply ToInt32_range.
    + rewrite (putPixel_None _ _ _ (add_call (CallDrawPoint p) w1) Hb).
      apply D_trans with (add_call (CallDrawPoint p) w1); [exact H2 | apply D_call].
  - rewrite (drawPoint_off p w1 Hon). exact H2.
Qed.

Lemma stable_draw_mesh_draw (V P : Matrix.t) (mesh : Mesh.t) :
  stable R (draw_mesh_spec TransformCoordinates RotationYawPitchRoll Translation
                           multiply V P mesh).
Proof.
  intros w.
  set (rot := rotation_matrix RotationYawPitchRoll mesh).
  set (tra := translation_matrix Translation mesh).
  set (wor := world_matrix RotationYawPitchRoll Translation multiply mesh).
  set (w5 :=
    add_call (CallMultiply (multiply wor V) P)
      (add_call (CallMultiply wor V)
        (add_call (CallMultiply rot tra)
          (add_call (CallTranslation (Vector3.x (Mesh.Position mesh))
                                     (Vector3.y (Mesh.Position mesh))
                                     (Vector3.z (Mesh.Position mesh)))
            (add_call (CallRotationYawPitchRoll (Vector3.y (Mesh.Rotation mesh))
                                                (Vector3.x (Mesh.Rotation mesh))
                                                (Vector3.z (Mesh.Rotation mesh)))
               w))))).
  apply (stable_shift R _
           (for_each (draw_vertex_spec TransformCoordinates
                        (transform_matrix RotationYawPitchRoll Translation multiply
                                          V P mesh))
                     (Mesh.Vertices mesh)) w w5).
  - unfold w5. repeat (eapply D_trans; [| apply D_call]). apply D_refl.
  - unfold draw_mesh_spec, Matrix_RotationYawPitchRoll, Matrix_Translation,
      Matrix_multiply.
    rewrite !record_ret_bind. reflexivity.
  - apply stable_for_each_draw; [exact _ |]. intros v. apply stable_draw_vertex_draw.
Qed.

Lemma stable_render_draw :
  stable R (render TransformCoordinates LookAtLH PerspectiveFovLH
                   RotationYawPitchRoll Translation multiply).
Proof.
  intros w. rewrite render_refines.
  set (w4 :=
    add_call (CallPerspectiveFovLH fov
                (js_div (of_N (workingWidth (device w))) (of_N (workingHeight (device w))))
                znear zfar)
      (add_call (CallLookAtLH (Camera.Position (mera w)) (Camera.Target (mera w))
                              Vector3.Up)
        (add_call CallUp (add_call CallRender w)))).
  apply (stable_shift R _
           (for_each (draw_mesh_spec TransformCoordinates RotationYawPitchRoll
                        Translation multiply
                        (view_matrix LookAtLH (mera w))
                        (projection_matrix PerspectiveFovLH (device w)))
                     (meshes w)) w w4).
  - unfold w4. repeat (eapply D_trans; [| apply D_call]). apply D_refl.
  - unfold render_spec, Vector3_Up, Matrix_LookAtLH, Matrix_PerspectiveFovLH.
    repeat first [rewrite record_bind | rewrite gets_bind | rewrite record_ret_bind].
    reflexivity.
  - apply stable_for_each_draw; [exact _ |]. intros mesh. apply stable_draw_mesh_draw.
Qed.

End DrawInduction.

(** ** [putPixel] without the guard of [drawPoint] *)

Lemma alter_fixed {A : Type} (f : A -> A) (i : nat) (l : list A) :
  (forall x, l !! i = Some x -> f x = x) -> alter f i l = l.
Proof.
  intros H. apply list_eq. intros j. rewrite list_lookup_alter.
  case_decide as E; [| reflexivity]. subst j.
  destruct (l !! i) as [x |] eqn:Hx; [| reflexivity].
  simpl. rewrite (H x eq_refl). reflexivity.
Qed.

(** A [putPixel] whose cell lies before or after the back buffer returns
    normally and changes no byte: the stores are dropped, nothing is thrown. *)
Theorem putPixel_outside_buffer_is_dropped :
  forall (w : World) (l : loc) (data : list Z) (x y : number) (color : Color4.t),
    backbuffer (device w) = Some l ->
    arrays w !! l = Some data ->
    pixel_index (workingWidth (device w)) x y + 3 < 0
    \/ Z.of_nat (length data) <= pixel_index (workingWidth (device w)) x y ->
    exists w',
      putPixel x y color w = Ok tt w'
      /\ arrays w' = arrays w
      /\ canvas w' = canvas w
      /\ calls w' = calls w ++ [CallPutPixel x y color].
Proof.
  intros w l data x y color Hb Hd Hout.
  exists (putPixel_world l x y color w).
  split; [apply putPixel_Some; exact Hb |].
  split; [| split; reflexivity].
  rewrite putPixel_world_arrays. apply alter_fixed.
  intros d Hd'. rewrite Hd in Hd'. injection Hd' as <-.
  apply put4_outside. exact Hout.
Qed.

Lemma putPixel_outside_buffer_is_dropped_witness :
  exists w',
    putPixel (of_Z 0) (of_Z 2) yellow cleared_2x2 = Ok tt w'
    /\ arrays w' = arrays cleared_2x2.
Proof.
  destruct (putPixel_outside_buffer_is_dropped cleared_2x2 0%nat (replicate 16 0)
              (of_Z 0) (of_Z 2) yellow eq_refl eq_refl
              ltac:(right; vm_compute; discriminate))
    as (w' & H1 & H2 & _).
  exists w'. split; [exact H1 | exact H2].
Defined.

(** Unguarded, [putPixel] does not know the rows: one step past the right
    edge is the first pixel of the next row.  For integer coordinates in the
    range of [>> 0], [putPixel(x + width, y)] and [putPixel(x, y + 1)] leave
    the same buffers and the same device. *)
Theorem putPixel_past_the_row_is_next_row :
  forall (w : World) (x y : Z) (color : Color4.t),
    - two31 <= x -> x + Z.of_N (workingWidth (device w)) < two31 ->
    - two31 <= y -> y + 1 < two31 ->
    let w1 := after (putPixel (of_Z (x + Z.of_N (workingWidth (device w)))) (of_Z y) color) w in
    let w2 := after (putPixel (of_Z x) (of_Z (y + 1)) color) w in
    arrays w1 = arrays w2 /\ device w1 = device w2 /\ canvas w1 = canvas w2.
Proof.
  intros w x y color Hx1 Hx2 Hy1 Hy2 w1 w2.
  assert (pixel_index (workingWidth (device w))
            (of_Z (x + Z.of_N (workingWidth (device w)))) (of_Z y)
          = pixel_index (workingWidth (device w)) (of_Z x) (of_Z (y + 1))) as Hi.
  { unfold pixel_index. rewrite !ToInt32_of_Z by (unfold two31 in *; lia). lia. }
  unfold w1, w2, after.
  destruct (backbuffer (device w)) as [l |] eqn:Hb.
  - rewrite !(putPixel_Some _ _ _ _ _ Hb). simpl final_world.
    rewrite !putPixel_world_arrays, Hi. repeat split.
  - rewrite !(putPixel_None _ _ _ _ Hb). repeat split.
Qed.

Lemma putPixel_past_the_row_is_next_row_witness :
  arrays (after (putPixel (of_Z 2) (of_Z 0) yellow) cleared_2x2)
  = arrays (after (putPixel (of_Z 0) (of_Z 1) yellow) cleared_2x2).
Proof.
  destruct (putPixel_past_the_row_is_next_row cleared_2x2 0 0 yellow
              ltac:(vm_compute; discriminate) ltac:(vm_compute; reflexivity)
              ltac:(vm_compute; discriminate) ltac:(vm_compute; reflexivity))
    as (H & _).
  exact H.
Defined.

(** ** What [render] paints *)

Lemma pixel_put4 (K : nat) (r g b a : Z) (data : list Z) (k : nat) :
  (4 * K + 3 < length data)%nat ->
  pixel (put4 (Z.of_nat (4 * K)) r g b a data) k
  = if decide (k = K) then [Some r; Some g; Some b; Some a] else pixel data k.
Proof.
  intros Hin. unfold pixel. case_decide as E.
  - subst k.
    destruct (put4_lookup (Z.of_nat (4 * K)) r g b a data ltac:(lia) ltac:(lia))
      as (Hr & Hg & Hb & Ha).
    replace (Z.to_nat (Z.of_nat (4 * K))) with (4 * K)%nat in Hr by lia.
    replace (Z.to_nat (Z.of_nat (4 * K) + 1)) with (4 * K + 1)%nat in Hg by lia.
    replace (Z.to_nat (Z.of_nat (4 * K) + 2)) with (4 * K + 2)%nat in Hb by lia.
    replace (Z.to_nat (Z.of_nat (4 * K) + 3)) with (4 * K + 3)%nat in Ha by lia.
    rewrite Hr, Hg, Hb, Ha. reflexivity.
  - rewrite !put4_lookup_other by lia. reflexivity.
Qed.

Lemma painted_refl (data : list Z) : painted data data.
Proof. split; [reflexivity | intros k; left; reflexivity]. Qed.

Lemma painted_trans (d1 d2 d3 : list Z) :
  painted d1 d2 -> painted d2 d3 -> painted d1 d3.
Proof.
  intros [L1 P1] [L2 P2]. split; [congruence |].
  intros k. destruct (P2 k) as [H | H]; [| right; exact H].
  rewrite H. apply P1.
Qed.

(** The four stores for a yellow pixel on the screen paint that pixel. *)
Lemma painted_put4 (width height : N) (x y : Z) (data : list Z) :
  0 <= x < Z.of_N width -> 0 <= y < Z.of_N height ->
  length data = image_bytes width height ->
  painted data
    (put4 ((x + y * Z.of_N width) * 4)
          (channel_byte (Color4.r yellow)) (channel_byte (Color4.g yellow))
          (channel_byte (Color4.b yellow)) (channel_byte (Color4.a yellow)) data).
Proof.
  intros Hx Hy Hlen. split; [apply put4_length |].
  intros k.
  destruct (cell_inside width height x y Hx Hy) as [H0 H3].
  rewrite <- Hlen in H3.
  replace ((x + y * Z.of_N width) * 4)
    with (Z.of_nat (4 * Z.to_nat (x + y * Z.of_N width))) by nia.
  rewrite pixel_put4 by nia.
  case_decide; [right; reflexivity | left; reflexivity].
Qed.

#[export] Instance drawn_kept : KeptDraw drawn.
Proof.
  split.
  - intros w. repeat split; try reflexivity.
    intros l data _ Hd _. exists data. split; [exact Hd | apply painted_refl].
  - intros w1 w2 w3 (A1 & A2 & A3 & A4 & A5 & A6 & A7 & A8 & A9)
                    (B1 & B2 & B3 & B4 & B5 & B6 & B7 & B8 & B9).
    repeat split; try congruence.
    + intros l' Hl'. rewrite B8 by congruence. apply A8. exact Hl'.
    + intros l data Hb Hd Hlen.
      destruct (A9 l data Hb Hd Hlen) as (d2 & Hd2 & P12).
      destruct (B9 l d2 ltac:(congruence) Hd2
                  ltac:(destruct P12 as [-> _]; congruence)) as (d3 & Hd3 & P23).
      exists d3. split; [exact Hd3 | eapply painted_trans; eassumption].
  - intros c w. repeat split; try reflexivity.
    intros l data _ Hd _. exists data. split; [exact Hd | apply painted_refl].
  - intros l x y w Hb Hx Hy Hx31 Hy31.
    assert (pixel_index (workingWidth (device w)) (of_Z x) (of_Z y)
            = (x + y * Z.of_N (workingWidth (device w))) * 4) as Hi.
    { unfold pixel_index. rewrite !ToInt32_of_Z by (unfold two31 in *; lia).
      reflexivity. }
    repeat split; try reflexivity.
    + rewrite putPixel_world_arrays. apply length_alter.
    + intros l' Hl'. rewrite putPixel_world_arrays.
      apply list_lookup_alter_ne. congruence.
    + intros l0 data Hb0 Hd Hlen.
      assert (l0 = l) as -> by congruence.
      eexists. split.
      * rewrite putPixel_world_arrays, list_lookup_alter_eq, Hd. reflexivity.
      * rewrite Hi. apply painted_put4 with (height := workingHeight (device w));
          assumption.
Qed.

(** [render] writes into the back buffer and nowhere else: whether it
    returns or throws, the canvas shows what it showed, the device has its
    size and its back buffer reference, no array is added or removed, and
    every array other than the back buffer is what it was. *)
Theorem render_writes_only_the_back_buffer :
  forall TransformCoordinates LookAtLH PerspectiveFovLH RotationYawPitchRoll
         Translation multiply (w : World),
    let w' := after (render TransformCoordinates LookAtLH PerspectiveFovLH
                            RotationYawPitchRoll Translation multiply) w in
    canvas w' = canvas w
    /\ workingWidth (device w') = workingWidth (device w)
    /\ workingHeight (device w') = workingHeight (device w)
    /\ backbuffer (device w') = backbuffer (device w)
    /\ length (arrays w') = length (arrays w)
    /\ (forall l' : loc, backbuffer (device w) <> Some l' ->
          arrays w' !! l' = arrays w !! l').
Proof.
  intros TC LA PF RY TR MU w w'.
  pose proof (stable_render_draw TC LA PF RY TR MU drawn w) as H.
  unfold w', after.
  destruct (render TC LA PF RY TR MU w) as [[] w1 | e w1 |]; simpl.
  - destruct H as (H1 & _ & _ & H4 & H5 & H6 & H7 & H8 & _). auto 10.
  - destruct H as (H1 & _ & _ & H4 & H5 & H6 & H7 & H8 & _). auto 10.
  - auto 10.
Qed.

(** On a device whose back buffer has the size of the device, [render]
    returns normally, whatever the scene and the transforms, and every pixel
    of the back buffer is afterwards what it was or yellow (255, 255, 0,
    255): points are only added, never erased or drawn in another colour. *)
Theorem render_paints_yellow_only :
  forall TransformCoordinates LookAtLH PerspectiveFovLH RotationYawPitchRoll
         Translation multiply (w : World) (l : loc) (data : list Z),
    backbuffer (device w) = Some l ->
    arrays w !! l = Some data ->
    length data = image_bytes (workingWidth (device w)) (workingHeight (device w)) ->
    exists (w' : World) (data' : list Z),
      render TransformCoordinates LookAtLH PerspectiveFovLH
             RotationYawPitchRoll Translation multiply w = Ok tt w'
      /\ arrays w' !! l = Some data'
      /\ length data' = length data
      /\ (forall k : nat, pixel data' k = pixel data k \/ pixel data' k = yellow_pixel).
Proof.
  intros TC LA PF RY TR MU w l data Hb Hd Hlen.
  pose proof (stable_render_draw TC LA PF RY TR MU drawn w) as H.
  pose proof (logs_render_spec TC LA PF RY TR MU w) as Hl.
  unfold logs in Hl. rewrite <- render_refines in Hl.
  destruct (render TC LA PF RY TR MU w) as [[] w1 | e w1 |].
  - destruct H as (_ & _ & _ & _ & _ & _ & _ & _ & H9).
    destruct (H9 l data Hb Hd Hlen) as (data' & Hd' & Hlen' & Hp).
    exists w1, data'. auto.
  - destruct Hl as (_ & Hnone & _). congruence.
  - destruct Hl.
Qed.

Lemma render_paints_yellow_only_witness :
  exists (w' : World) (data' : list Z),
    render MathSpec.TransformCoordinates
           (fun _ _ _ => MathSpec.Identity) (fun _ _ _ _ => MathSpec.Identity)
           (fun _ _ _ => MathSpec.Identity) (fun _ _ _ => MathSpec.Identity)
           (fun a _ => a) cleared_cube_2x2 = Ok tt w'
    /\ arrays w' !! 0%nat = Some data'
    /\ length data' = 16%nat.
Proof.
  destruct (render_paints_yellow_only MathSpec.TransformCoordinates
              (fun _ _ _ => MathSpec.Identity) (fun _ _ _ _ => MathSpec.Identity)
              (fun _ _ _ => MathSpec.Identity) (fun _ _ _ => MathSpec.Identity)
              (fun a _ => a) cleared_cube_2x2 0%nat (replicate 16 0)
              eq_refl eq_refl eq_refl)
    as (w' & data' & H1 & H2 & H3 & _).
  exists w', data'. split; [exact H1 |]. split; [exact H2 | exact H3].
Defined.

(** ** Drawing points one after the other *)

Lemma put4_lookup_full (index r g b a : Z) (data : list Z) (k : nat) :
  put4 index r g b a data !! k
  = if decide ((k < length data)%nat /\ index <= Z.of_nat k <= index + 3)
    then Some (if Z.of_nat k - index =? 0 then r
               else if Z.of_nat k - index =? 1 then g
               else if Z.of_nat k - index =? 2 then b
               else a)
    else data !! k.
Proof.
  unfold put4. rewrite !write_byte_lookup_full, !write_byte_length.
  destruct (decide ((k < length data)%nat /\ index <= Z.of_nat k <= index + 3))
    as [[Hk Hi] | Hn].
  - destruct (decide (Z.of_nat k = index + 3 /\ (k < length data)%nat)) as [[E _] | N3].
    { replace (Z.of_nat k - index) with 3 by lia. reflexivity. }
    destruct (decide (Z.of_nat k = index + 2 /\ (k < length data)%nat)) as [[E _] | N2].
    { replace (Z.of_nat k - index) with 2 by lia. reflexivity. }
    destruct (decide (Z.of_nat k = index + 1 /\ (k < length data)%nat)) as [[E _] | N1].
    { replace (Z.of_nat k - index) with 1 by lia. reflexivity. }
    rewrite decide_True by lia.
    replace (Z.of_nat k - index) with 0 by lia. reflexivity.
  - rewrite !decide_False by lia. reflexivity.
Qed.

(** Two pixels of one colour can be stored in either order. *)
Lemma put4_commute (i j r g b a : Z) (data : list Z) :
  i mod 4 = 0 -> j mod 4 = 0 ->
  put4 i r g b a (put4 j r g b a data) = put4 j r g b a (put4 i r g b a data).
Proof.
  intros Hi Hj. apply list_eq. intros k.
  rewrite !put4_lookup_full, !put4_length.
  destruct (decide ((k < length data)%nat /\ i <= Z.of_nat k <= i + 3)) as [[Hk Hki] | Ni];
    destruct (decide ((k < length data)%nat /\ j <= Z.of_nat k <= j + 3)) as [[Hk' Hkj] | Nj];
    try reflexivity.
  pose proof (Z.div_mod i 4 ltac:(lia)) as Di.
  pose proof (Z.div_mod j 4 ltac:(lia)) as Dj.
  assert (i = j) as -> by lia. reflexivity.
Qed.

Lemma put4_twice (i r g b a : Z) (data : list Z) :
  put4 i r g b a (put4 i r g b a data) = put4 i r g b a data.
Proof.
  apply list_eq. intros k. rewrite !put4_lookup_full, !put4_length.
  case_decide; reflexivity.
Qed.

Lemma pixel_index_aligned (width : N) (x y : number) : pixel_index width x y mod 4 = 0.
Proof. unfold pixel_index. apply Z.mod_mul. lia. Qed.

(** [drawPoint], case by case. *)
Lemma drawPoint_run (point : Vector2.t) (w : World) :
  drawPoint point w
  = if on_screen (device w) point
    then match backbuffer (device w) with
         | Some l =>
             Ok tt (putPixel_world l (Vector2.x point) (Vector2.y point) yellow
                      (add_call (CallDrawPoint point) w))
         | None =>
             Throw TypeError
               (add_call (CallPutPixel (Vector2.x point) (Vector2.y point) yellow)
                  (add_call (CallDrawPoint point) w))
         end
    else Ok tt (add_call (CallDrawPoint point) w).
Proof.
  destruct (on_screen (device w) point) eqn:Hon.
  - rewrite (drawPoint_on _ _ Hon).
    destruct (backbuffer (device w)) as [l |] eqn:Hb.
    + apply putPixel_Some. exact Hb.
    + apply putPixel_None. exact Hb.
  - apply drawPoint_off. exact Hon.
Qed.

(** The picture after [drawPoint]: the arrays, the device and the canvas. *)
Lemma drawPoint_picture (point : Vector2.t) (w : World) :
  let w' := after (drawPoint point) w in
  canvas w' = canvas w
  /\ workingWidth (device w') = workingWidth (device w)
  /\ workingHeight (device w') = workingHeight (device w)
  /\ backbuffer (device w') = backbuffer (device w)
  /\ match backbuffer (device w) with
     | Some l =>
         if on_screen (device w) point
         then backbufferdata (device w') = Some l
              /\ arrays w'
                 = alter (put4 (pixel_index (workingWidth (device w))
                                            (Vector2.x point) (Vector2.y point))
                               (channel_byte (Color4.r yellow))
                               (channel_byte (Color4.g yellow))
                               (channel_byte (Color4.b yellow))
                               (channel_byte (Color4.a yellow)))
                         l (arrays w)
         else backbufferdata (device w') = backbufferdata (device w)
              /\ arrays w' = arrays w
     | None => backbufferdata (device w') = backbufferdata (device w)
               /\ arrays w' = arrays w
     end.
Proof.
  unfold after. rewrite drawPoint_run.
  destruct (backbuffer (device w)) as [l |] eqn:Hb;
    destruct (on_screen (device w) point); cbn [final_world];
    repeat split; try reflexivity; try exact Hb.
  rewrite putPixel_world_arrays. reflexivity.
Qed.

Lemma Device_eq (d1 d2 : Device) :
  workingWidth d1 = workingWidth d2 -> workingHeight d1 = workingHeight d2 ->
  backbuffer d1 = backbuffer d2 -> backbufferdata d1 = backbufferdata d2 ->
  d1 = d2.
Proof. destruct d1, d2; simpl; congruence. Qed.

Lemma point_stores_commute (d : Device) (p q : Vector2.t) (data : list Z) :
  point_stores d p (point_stores d q data) = point_stores d q (point_stores d p data).
Proof.
  unfold point_stores.
  destruct (on_screen d p), (on_screen d q); try reflexivity.
  apply put4_commute; apply pixel_index_aligned.
Qed.

Lemma point_stores_twice (d : Device) (p : Vector2.t) (data : list Z) :
  point_stores d p (point_stores d p data) = point_stores d p data.
Proof.
  unfold point_stores. destruct (on_screen d p); [apply put4_twice | reflexivity].
Qed.

(** With a back buffer, [drawPoint] returns, and the back buffer gets the
    stores of the point. *)
Lemma drawPoint_with_buffer (point : Vector2.t) (w : World) (l : loc) :
  backbuffer (device w) = Some l ->
  exists w',
    drawPoint point w = Ok tt w'
    /\ canvas w' = canvas w
    /\ workingWidth (device w') = workingWidth (device w)
    /\ workingHeight (device w') = workingHeight (device w)
    /\ backbuffer (device w') = Some l
    /\ backbufferdata (device w')
       = (if on_screen (device w) point then Some l else backbufferdata (device w))
    /\ arrays w' = alter (point_stores (device w) point) l (arrays w).
Proof.
  intros Hb. rewrite drawPoint_run, Hb. unfold point_stores.
  destruct (on_screen (device w) point); eexists; (split; [reflexivity |]).
  - repeat split; try reflexivity; try exact Hb.
    rewrite putPixel_world_arrays. reflexivity.
  - repeat split; try reflexivity; try exact Hb.
    simpl. symmetry. apply list_alter_id. reflexivity.
Qed.

(** Without a back buffer, [drawPoint] changes no array, nor the device. *)
Lemma drawPoint_without_buffer (point : Vector2.t) (w : World) :
  backbuffer (device w) = None ->
  match drawPoint point w with
  | Ok _ w' | Throw _ w' =>
      arrays w' = arrays w /\ device w' = device w /\ canvas w' = canvas w
  | OutOfFuel => False
  end.
Proof.
  intros Hb. rewrite drawPoint_run, Hb.
  destruct (on_screen (device w) point); repeat split.
Qed.

Lemma on_screen_same_size (d d' : Device) (point : Vector2.t) :
  workingWidth d' = workingWidth d -> workingHeight d' = workingHeight d ->
  on_screen d' point = on_screen d point.
Proof. intros H1 H2. unfold on_screen. rewrite H1, H2. reflexivity. Qed.

Lemma point_stores_same_size (d d' : Device) (point : Vector2.t) (data : list Z) :
  workingWidth d' = workingWidth d -> workingHeight d' = workingHeight d ->
  point_stores d' point data = point_stores d point data.
Proof.
  intros H1 H2. unfold point_stores.
  rewrite (on_screen_same_size d d' point H1 H2), H1. reflexivity.
Qed.

(** Two points drawn one after the other, on a device with a back buffer. *)
Lemma drawPoint_twice_with_buffer (p q : Vector2.t) (w : World) (l : loc) :
  backbuffer (device w) = Some l ->
  exists w',
    (drawPoint p ;; drawPoint q) w = Ok tt w'
    /\ canvas w' = canvas w
    /\ workingWidth (device w') = workingWidth (device w)
    /\ workingHeight (device w') = workingHeight (device w)
    /\ backbuffer (device w') = Some l
    /\ backbufferdata (device w')
       = (if on_screen (device w) p || on_screen (device w) q
          then Some l else backbufferdata (device w))
    /\ arrays w'
       = alter (fun data => point_stores (device w) q (point_stores (device w) p data))
               l (arrays w).
Proof.
  intros Hb.
  destruct (drawPoint_with_buffer p w l Hb) as (w1 & R1 & C1 & W1 & H1 & B1 & D1 & A1).
  destruct (drawPoint_with_buffer q w1 l B1) as (w2 & R2 & C2 & W2 & H2 & B2 & D2 & A2).
  exists w2. rewrite (bind_Ok _ _ _ _ _ R1). split; [exact R2 |].
  rewrite (on_screen_same_size _ _ q W1 H1) in D2.
  repeat split; try congruence.
  - rewrite D2, D1.
    destruct (on_screen (device w) p), (on_screen (device w) q); reflexivity.
  - rewrite A2, A1, alter_twice. apply list_alter_ext; [| reflexivity].
    intros data _. apply point_stores_same_size; assumption.
Qed.

Lemma drawPoint_twice_without_buffer (p q : Vector2.t) (w : World) :
  backbuffer (device w) = None ->
  let w' := after (drawPoint p ;; drawPoint q) w in
  arrays w' = arrays w /\ device w' = device w /\ canvas w' = canvas w.
Proof.
  intros Hb. unfold after. rewrite bind_run.
  pose proof (drawPoint_without_buffer p w Hb) as H1.
  destruct (drawPoint p w) as [[] w1 | e w1 |]; [| exact H1 | destruct H1].
  destruct H1 as (A1 & D1 & C1).
  pose proof (drawPoint_without_buffer q w1 ltac:(rewrite D1; exact Hb)) as H2.
  destruct (drawPoint q w1) as [[] w2 | e w2 |]; [| | destruct H2];
    destruct H2 as (A2 & D2 & C2); simpl; repeat split; congruence.
Qed.

(** The picture does not depend on the order in which two points are drawn:
    [drawPoint(p); drawPoint(q)] and [drawPoint(q); drawPoint(p)] leave the
    same buffers, the same device and the same canvas, whatever the points
    and whether or not the device has a back buffer. *)
Theorem drawPoint_order_does_not_matter :
  forall (p q : Vector2.t) (w : World),
    let w1 := after (drawPoint p ;; drawPoint q) w in
    let w2 := after (drawPoint q ;; drawPoint p) w in
    arrays w1 = arrays w2 /\ device w1 = device w2 /\ canvas w1 = canvas w2.
Proof.
  intros p q w w1 w2.
  destruct (backbuffer (device w)) as [l |] eqn:Hb.
  - destruct (drawPoint_twice_with_buffer p q w l Hb)
      as (u1 & R1 & C1 & W1 & H1 & B1 & D1 & A1).
    destruct (drawPoint_twice_with_buffer q p w l Hb)
      as (u2 & R2 & C2 & W2 & H2 & B2 & D2 & A2).
    assert (w1 = u1) as -> by (unfold w1, after; rewrite R1; reflexivity).
    assert (w2 = u2) as -> by (unfold w2, after; rewrite R2; reflexivity).
    split; [| split].
    + rewrite A1, A2. apply list_alter_ext; [| reflexivity].
      intros data _. symmetry. apply point_stores_commute.
    + apply Device_eq; try congruence.
      rewrite D1, D2, orb_comm. reflexivity.
    + congruence.
  - destruct (drawPoint_twice_without_buffer p q w Hb) as (A1 & D1 & C1).
    destruct (drawPoint_twice_without_buffer q p w Hb) as (A2 & D2 & C2).
    fold w1 in A1, D1, C1. fold w2 in A2, D2, C2.
    repeat split; congruence.
Qed.

(** Drawing a point a second time changes nothing more: the buffers, the
    device and the canvas after [drawPoint(p); drawPoint(p)] are those after
    one [drawPoint(p)]. *)
Theorem drawPoint_again_changes_nothing :
  forall (p : Vector2.t) (w : World),
    let w1 := after (drawPoint p) w in
    let w2 := after (drawPoint p ;; drawPoint p) w in
    arrays w2 = arrays w1 /\ device w2 = device w1 /\ canvas w2 = canvas w1.
Proof.
  intros p w w1 w2.
  destruct (backbuffer (device w)) as [l |] eqn:Hb.
  - destruct (drawPoint_with_buffer p w l Hb)
      as (u1 & R1 & C1 & W1 & H1 & B1 & D1 & A1).
    destruct (drawPoint_twice_with_buffer p p w l Hb)
      as (u2 & R2 & C2 & W2 & H2 & B2 & D2 & A2).
    assert (w1 = u1) as -> by (unfold w1, after; rewrite R1; reflexivity).
    assert (w2 = u2) as -> by (unfold w2, after; rewrite R2; reflexivity).
    split; [| split].
    + rewrite A1, A2. apply list_alter_ext; [| reflexivity].
      intros data _. apply point_stores_twice.
    + apply Device_eq; try congruence.
      rewrite D1, D2, orb_diag. reflexivity.
    + congruence.
  - destruct (drawPoint_twice_without_buffer p p w Hb) as (A2 & D2 & C2).
    fold w2 in A2, D2, C2.
    pose proof (drawPoint_without_buffer p w Hb) as H1.
    unfold w1, after.
    destruct (drawPoint p w) as [[] u | e u |]; [| | destruct H1];
      destruct H1 as (A1 & D1 & C1); simpl; repeat split; congruence.
Qed.

(** ** Which vertices are drawn *)

Lemma truncate_nonneg_iff (q : Q) : 0 <= truncate q <-> (-1 < q)%Q.
Proof.
  destruct (Qlt_le_dec q 0) as [Hneg | Hpos].
  - rewrite truncate_nonpos_ceiling by (apply Qlt_le_weak; exact Hneg).
    split; intros H.
    + pose proof (Qceiling_lt q) as Hc.
      eapply Qle_lt_trans; [| exact Hc].
      change (-1)%Q with (inject_Z (-1)). rewrite <- Zle_Qle. lia.
    + pose proof (Qle_ceiling q) as Hc.
      assert (inject_Z (-1) < inject_Z (Qceiling q))%Q as Hlt
        by (eapply Qlt_le_trans; [exact H | exact Hc]).
      rewrite <- Zlt_Qlt in Hlt. lia.
  - rewrite truncate_nonneg_floor by exact Hpos.
    split; intros H.
    + eapply Qlt_le_trans; [| exact Hpos]. reflexivity.
    + apply (Qfloor_resp_le 0 q). exact Hpos.
Qed.

Lemma truncate_lt_iff (q : Q) (n : Z) :
  0 < n -> (truncate q < n <-> (q < inject_Z n)%Q).
Proof.
  intros Hn. destruct (Qlt_le_dec q 0) as [Hneg | Hpos].
  - rewrite truncate_nonpos_ceiling by (apply Qlt_le_weak; exact Hneg).
    assert (Qceiling q <= 0) as Hc
      by (apply (Qceiling_resp_le q 0), Qlt_le_weak, Hneg).
    split; intros _; [| lia].
    eapply Qlt_trans; [exact Hneg |].
    change 0%Q with (inject_Z 0). rewrite <- Zlt_Qlt. exact Hn.
  - rewrite truncate_nonneg_floor by exact Hpos.
    split; intros H.
    + pose proof (Qlt_floor q) as Hf.
      eapply Qlt_le_trans; [exact Hf |]. rewrite <- Zle_Qle. lia.
    + assert (inject_Z (Qfloor q) < inject_Z n)%Q as Hlt
        by (eapply Qle_lt_trans; [apply Qfloor_le | exact H]).
      rewrite <- Zlt_Qlt in Hlt. exact Hlt.
Qed.

(** On a device with no empty side, a vertex whose transformed point is
    finite, with screen values [vx = x * width + width / 2] and
    [vy = - y * height + height / 2], as binary64 arithmetic gives them, in
    the range of [>> 0], passes the clipping test of [drawPoint] exactly
    when [-1 < vx < width] and [-1 < vy < height]: truncation toward zero
    lets the strip of one pixel left of and above the screen fall on
    column 0 and row 0. *)
Theorem vertex_is_on_screen_iff :
  forall (TransformCoordinates : Vector3.t -> Matrix.t -> Vector3.t)
         (coord : Vector3.t) (transMat : Matrix.t) (w : World)
         (px py : Q) (pz : number) (vx vy : Q),
    TransformCoordinates coord transMat = Vector3.mk (Fin px) (Fin py) pz ->
    workingWidth (device w) <> 0%N ->
    workingHeight (device w) <> 0%N ->
    let width := of_N (workingWidth (device w)) in
    let height := of_N (workingHeight (device w)) in
    js_add (js_mul (Fin px) width) (js_div width (of_Z 2)) = Fin vx ->
    js_add (js_mul (js_neg (Fin py)) height) (js_div height (of_Z 2)) = Fin vy ->
    in_int32 vx -> in_int32 vy ->
    exists (p : Vector2.t) (w' : World),
      project TransformCoordinates coord transMat w = Ok p w'
      /\ (on_screen (device w') p = true
          <-> (-1 < vx)%Q /\ (vx < inject_Z (Z.of_N (workingWidth (device w))))%Q
              /\ (-1 < vy)%Q /\ (vy < inject_Z (Z.of_N (workingHeight (device w))))%Q).
Proof.
  intros TC coord M w px py pz vx vy Hp Hw Hh width height Hvx Hvy Hx Hy.
  eexists _, _. rewrite project_run, Hp, screen_x_Fin, screen_y_Fin.
  fold width height. rewrite Hvx, Hvy. unfold shr0.
  rewrite !ToInt32_small by (apply in_int32_truncate; assumption).
  split; [reflexivity |].
  change (device (add_call _ (add_call _ w))) with (device w).
  unfold on_screen, of_N, of_Z. simpl Vector2.x. simpl Vector2.y.
  rewrite !andb_true_iff, !js_ge_Fin, !js_lt_Fin, <- !Zle_Qle, <- !Zlt_Qlt.
  rewrite !truncate_nonneg_iff.
  rewrite (truncate_lt_iff vx (Z.of_N (workingWidth (device w)))) by lia.
  rewrite (truncate_lt_iff vy (Z.of_N (workingHeight (device w)))) by lia.
  tauto.
Qed.

Lemma vertex_is_on_screen_iff_witness :
  exists (p : Vector2.t) (w' : World),
    project MathSpec.TransformCoordinates
      (Vector3.mk (Fin (-3 # 4)) (Fin (1 # 4)) (of_Z 0)) MathSpec.Identity cleared_2x2
    = Ok p w'
    /\ on_screen (device w') p = true.
Proof.
  destruct (vertex_is_on_screen_iff MathSpec.TransformCoordinates
              (Vector3.mk (Fin (-3 # 4)) (Fin (1 # 4)) (of_Z 0)) MathSpec.Identity
              cleared_2x2 (-3 # 4) (1 # 4) (of_Z 0) (-1 # 2) (1 # 2)
              ltac:(vm_compute; reflexivity)
              ltac:(vm_compute; discriminate) ltac:(vm_compute; discriminate)
              ltac:(vm_compute; reflexivity) ltac:(vm_compute; reflexivity)
              (conj eq_refl eq_refl) (conj eq_refl eq_refl))
    as (p & w' & H1 & H2).
  exists p, w'. split; [exact H1 |].
  apply H2. repeat split; reflexivity.
Defined.

(** The literal [0.5 - 2^-54] on a device 5 pixels wide: the exact screen
    abscissa is below 5, the binary64 one is 5, and the vertex is clipped. *)
Example vertex_on_the_right_edge :
  js_add (js_mul (round64 ((1 # 2) - (1 # 2 ^ 54))) (of_N 5)) (js_div (of_N 5) (of_Z 2))
  = of_Z 5.
Proof. vm_compute. reflexivity. Qed.

Lemma screen_not_finite (size : N) (a : number) :
  is_finite a = false ->
  is_finite (js_add (js_mul a (of_N size)) (js_div (of_N size) (of_Z 2))) = false.
Proof.
  intros H. generalize (js_div (of_N size) (of_Z 2)). intros d.
  unfold of_N, of_Z.
  destruct a as [q | | |]; [discriminate | | |]; cbn [js_mul];
    unfold inf_times, signed_inf; cbn [negb];
    destruct (Qsign (inject_Z (Z.of_N size))); destruct d; reflexivity.
Qed.

Lemma ToInt32_not_finite_zero (a : number) : is_finite a = false -> ToInt32 a = 0.
Proof. destruct a; [discriminate | reflexivity | reflexivity | reflexivity]. Qed.

Lemma js_neg_finite (a : number) : is_finite (js_neg a) = is_finite a.
Proof. destruct a; reflexivity. Qed.

(** A vertex whose transformed x and y are not finite (NaN or an infinity,
    as a degenerate transform gives) is projected onto the point (0, 0),
    and that point passes the clipping test of every device with no empty
    side: such a vertex is drawn on the top left pixel. *)
Theorem degenerate_vertex_falls_on_top_left :
  forall (TransformCoordinates : Vector3.t -> Matrix.t -> Vector3.t)
         (coord : Vector3.t) (transMat : Matrix.t) (w : World),
    is_finite (Vector3.x (TransformCoordinates coord transMat)) = false ->
    is_finite (Vector3.y (TransformCoordinates coord transMat)) = false ->
    exists w',
      project TransformCoordinates coord transMat w
      = Ok (Vector2.mk (of_Z 0) (of_Z 0)) w'
      /\ on_screen (device w') (Vector2.mk (of_Z 0) (of_Z 0))
         = negb (workingWidth (device w) =? 0)%N
           && negb (workingHeight (device w) =? 0)%N.
Proof.
  intros TC coord M w Hx Hy. eexists. rewrite project_run.
  unfold shr0, screen_x, screen_y.
  rewrite (ToInt32_not_finite_zero _ (screen_not_finite _ _ Hx)).
  rewrite (ToInt32_not_finite_zero _
             (screen_not_finite _ _ ltac:(rewrite js_neg_finite; exact Hy))).
  split; [reflexivity |].
  change (device (add_call _ (add_call _ w))) with (device w).
  unfold on_screen, of_N, of_Z. simpl.
  destruct (workingWidth (device w)) as [| pw], (workingHeight (device w)) as [| ph];
    reflexivity.
Qed.

Lemma degenerate_vertex_falls_on_top_left_witness :
  exists w',
    project MathSpec.TransformCoordinates
      (Vector3.mk (of_Z 1) (of_Z 1) (of_Z 1)) (Matrix.mk (replicate 16 (of_Z 0)))
      cleared_2x2
    = Ok (Vector2.mk (of_Z 0) (of_Z 0)) w'
    /\ on_screen (device w') (Vector2.mk (of_Z 0) (of_Z 0)) = true.
Proof.
  destruct (degenerate_vertex_falls_on_top_left MathSpec.TransformCoordinates
              (Vector3.mk (of_Z 1) (of_Z 1) (of_Z 1)) (Matrix.mk (replicate 16 (of_Z 0)))
              cleared_2x2 eq_refl eq_refl)
    as (w' & H1 & H2).
  exists w'. split; [exact H1 | exact H2].
Defined.

(** ** [present] *)

#[export] Instance same_canvas_length_kept : Kept same_canvas_length.
Proof. unfold same_canvas_length. split; intros; simpl; congruence. Qed.

Lemma bitmap_ind4 (P : list Z -> Prop) :
  (forall data, (length data < 4)%nat -> P data) ->
  (forall r g b a rest, P rest -> P (r :: g :: b :: a :: rest)) ->
  forall data, P data.
Proof.
  intros Hs Hc. fix IH 1.
  intros [| r [| g [| b [| a rest]]]]; try (apply Hs; simpl; lia).
  apply Hc, IH.
Qed.

Lemma bitmap_short (lossy : Lossy) (data : list Z) :
  (length data < 4)%nat -> bitmap lossy data = data.
Proof.
  destruct data as [| r [| g [| b [| a rest]]]]; try reflexivity.
  simpl. lia.
Qed.

Lemma bitmap_pixel_length (lossy : Lossy) (r g b a : Z) :
  length (bitmap_pixel lossy r g b a) = 4%nat.
Proof.
  unfold bitmap_pixel. destruct (a =? 255); [reflexivity |].
  destruct (a =? 0); [reflexivity |].
  rewrite length_map, length_resize. reflexivity.
Qed.

Lemma bitmap_length (lossy : Lossy) (data : list Z) :
  length (bitmap lossy data) = length data.
Proof.
  induction data as [data Hs | r g b a rest IH] using bitmap_ind4.
  - rewrite bitmap_short by exact Hs. reflexivity.
  - cbn [bitmap]. rewrite length_app, bitmap_pixel_length, IH. reflexivity.
Qed.

Lemma pixel_cons4 (r g b a : Z) (rest : list Z) (k : nat) :
  pixel (r :: g :: b :: a :: rest) (S k) = pixel rest k.
Proof.
  unfold pixel.
  replace (4 * S k)%nat with (S (S (S (S (4 * k))))) by lia.
  replace (S (S (S (S (4 * k)))) + 1)%nat with (S (S (S (S (4 * k + 1))))) by lia.
  replace (S (S (S (S (4 * k)))) + 2)%nat with (S (S (S (S (4 * k + 2))))) by lia.
  replace (S (S (S (S (4 * k)))) + 3)%nat with (S (S (S (S (4 * k + 3))))) by lia.
  reflexivity.
Qed.

Lemma pixel_app4 (px rest : list Z) (k : nat) :
  length px = 4%nat -> pixel (px ++ rest) (S k) = pixel rest k.
Proof.
  intros H. destruct px as [| r [| g [| b [| a [| c px]]]]]; try discriminate H.
  apply pixel_cons4.
Qed.

Lemma pixel_app4_first (px rest : list Z) :
  length px = 4%nat -> pixel (px ++ rest) 0 = map Some px.
Proof.
  intros H. destruct px as [| r [| g [| b [| a [| c px]]]]]; try discriminate H.
  reflexivity.
Qed.

(** What the bitmap keeps of pixel [k] of an image. *)
Lemma pixel_bitmap (lossy : Lossy) (data : list Z) (k : nat) :
  pixel (bitmap lossy data) k
  = match pixel data k with
    | [Some r; Some g; Some b; Some a] => map Some (bitmap_pixel lossy r g b a)
    | _ => pixel data k
    end.
Proof.
  revert k. induction data as [data Hs | r g b a rest IH] using bitmap_ind4; intros k.
  - rewrite bitmap_short by exact Hs. unfold pixel.
    destruct (data !! (4 * k + 3)%nat) as [a |] eqn:E.
    + apply lookup_lt_Some in E. lia.
    + destruct (data !! (4 * k)%nat), (data !! (4 * k + 1)%nat),
        (data !! (4 * k + 2)%nat); reflexivity.
  - cbn [bitmap]. destruct k as [| k].
    + rewrite pixel_app4_first by apply bitmap_pixel_length. reflexivity.
    + rewrite pixel_app4 by apply bitmap_pixel_length.
      rewrite pixel_cons4. apply IH.
Qed.

(** An image whose pixels are transparent black or yellow is kept as it
    is. *)
Lemma bitmap_yellow_on_black (lossy : Lossy) (data : list Z) :
  (forall k : nat, (4 * k + 3 < length data)%nat ->
     pixel data k = blank_pixel \/ pixel data k = yellow_pixel) ->
  bitmap lossy data = data.
Proof.
  induction data as [data Hs | r g b a rest IH] using bitmap_ind4; intros H.
  - apply bitmap_short, Hs.
  - cbn [bitmap]. rewrite IH.
    + destruct (H 0%nat ltac:(simpl; lia)) as [E | E];
        injection E as -> -> -> ->; reflexivity.
    + intros k Hk. rewrite <- (pixel_cons4 r g b a rest k).
      apply H. simpl. lia.
Qed.

Lemma present_run (lossy : Lossy) (w : World) :
  present lossy w
  = match backbuffer (device w) with
    | Some l =>
        match arrays w !! l with
        | Some data =>
            Ok tt (set_canvas (bitmap lossy (resize (length (canvas w)) 0 data))
                              (add_call CallPresent w))
        | None => Throw TypeError (add_call CallPresent w)
        end
    | None => Throw TypeError (add_call CallPresent w)
    end.
Proof.
  unfold present, putImageData. rewrite record_bind, gets_bind. simpl.
  destruct (backbuffer (device w)) as [l |]; reflexivity.
Qed.

Section Reachable.

Variable TransformCoordinates : Vector3.t -> Matrix.t -> Vector3.t.
Variable LookAtLH : Vector3.t -> Vector3.t -> Vector3.t -> Matrix.t.
Variable PerspectiveFovLH : number -> number -> number -> number -> Matrix.t.
Variable RotationYawPitchRoll : number -> number -> number -> Matrix.t.
Variable Translation : number -> number -> number -> Matrix.t.
Variable multiply : Matrix.t -> Matrix.t -> Matrix.t.
Variable lossy : Lossy.

Lemma canvas_length_run_op (op : Op) :
  stable same_canvas_length
    (run_op TransformCoordinates LookAtLH PerspectiveFovLH RotationYawPitchRoll
            Translation multiply lossy op).
Proof.
  destruct op; simpl.
  - intros w. rewrite clear_run. unfold same_canvas_length, clear_world.
    destruct ((workingWidth (device w) =? 0) || (workingHeight (device w) =? 0))%N;
      simpl; apply length_replicate.
  - intros w. rewrite present_run. unfold same_canvas_length.
    destruct (backbuffer (device w)) as [l |]; [| reflexivity].
    destruct (arrays w !! l); [| reflexivity].
    simpl. rewrite bitmap_length. apply length_resize.
  - apply stable_putPixel. exact _.
  - apply stable_drawPoint. exact _.
  - apply stable_render; [exact _ |]. intros c w. reflexivity.
  - intros w. reflexivity.
Qed.

Lemma canvas_length_run_ops (ops : list Op) :
  forall w,
    length (canvas (run_ops TransformCoordinates LookAtLH PerspectiveFovLH
                            RotationYawPitchRoll Translation multiply lossy ops w))
    = length (canvas w).
Proof.
  induction ops as [| op ops IH]; intros w; simpl; [reflexivity |].
  rewrite IH. pose proof (canvas_length_run_op op w) as H.
  destruct (run_op _ _ _ _ _ _ _ op w); simpl; auto.
Qed.

End Reachable.

(** After any sequence of operations from construction, [present] throws a
    [TypeError] exactly when the device has never cleared, leaving the
    canvas as it is; otherwise it returns and the canvas shows the back
    buffer as its bitmap keeps it: pixel for pixel, an opaque pixel as it
    is and a fully transparent one as transparent black, while how a partly
    transparent pixel reads back is left to the implementation.  The
    buffers, the device and the scene stay as they are. *)
Theorem present_shows_the_back_buffer :
  forall TransformCoordinates LookAtLH PerspectiveFovLH RotationYawPitchRoll
         Translation multiply (lossy : Lossy)
         (width height : N) (cam : Camera.t) (ms : list Mesh.t) (ops : list Op),
    let w := run_ops TransformCoordinates LookAtLH PerspectiveFovLH
                     RotationYawPitchRoll Translation multiply lossy ops
                     (init_world width height cam ms) in
    match present lossy w with
    | Ok _ w' =>
        (exists (l : loc) (data : list Z),
           backbuffer (device w) = Some l
           /\ arrays w !! l = Some data
           /\ canvas w' = bitmap lossy data
           /\ length (canvas w') = length data
           /\ forall (k : nat) (r g b a : Z),
                pixel data k = [Some r; Some g; Some b; Some a] ->
                (a = 255 -> pixel (canvas w') k = pixel data k)
                /\ (a = 0 -> pixel (canvas w') k = blank_pixel))
        /\ arrays w' = arrays w
        /\ device w' = device w
        /\ mera w' = mera w
        /\ meshes w' = meshes w
    | Throw e w' =>
        e = TypeError
        /\ backbuffer (device w) = None
        /\ canvas w' = canvas w
        /\ arrays w' = arrays w
    | OutOfFuel => False
    end.
Proof.
  intros TC LA PF RY TR MU LO width height cam ms ops w.
  pose proof (sized_run_ops TC LA PF RY TR MU LO width height ops _
                (sized_init_world width height cam ms)) as Hs.
  pose proof (canvas_length_run_ops TC LA PF RY TR MU LO ops
                (init_world width height cam ms)) as Hc.
  fold w in Hs, Hc. simpl in Hc. rewrite length_replicate in Hc.
  destruct Hs as (Hw & Hh & Hall & Hbb & _).
  rewrite present_run.
  destruct (backbuffer (device w)) as [l |] eqn:Hb; [| repeat split].
  destruct (lookup_lt_is_Some_2 (arrays w) l (Hbb l eq_refl)) as [data Hd].
  rewrite Hd. split; [| repeat split].
  exists l, data. split; [reflexivity |]. split; [exact Hd |].
  rewrite Forall_lookup in Hall. specialize (Hall l data Hd).
  cbn [canvas set_canvas add_call]. rewrite Hc, <- Hall, resize_all.
  split; [reflexivity |]. split; [apply bitmap_length |].
  intros k r g b a Hp. rewrite pixel_bitmap, Hp. unfold bitmap_pixel.
  split; intros ->; reflexivity.
Qed.

(** ** One frame, and many *)

Lemma rotate_mesh_run (w : World) (mesh : Mesh.t) (rest : list Mesh.t) :
  meshes w = mesh :: rest ->
  rotate_mesh w
  = Ok tt (mkWorld (canvas w) (device w) (arrays w) (mera w) (rotate mesh :: rest)
                   (calls w)).
Proof. intros H. unfold rotate_mesh. rewrite gets_bind, H. reflexivity. Qed.

Lemma pixel_replicate_zero (n k : nat) :
  (4 * k + 3 < n)%nat -> pixel (replicate n 0) k = blank_pixel.
Proof.
  intros H. unfold pixel, blank_pixel.
  rewrite !lookup_replicate_2 by lia. reflexivity.
Qed.

Section FrameProperties.

Variable TransformCoordinates : Vector3.t -> Matrix.t -> Vector3.t.
Variable LookAtLH : Vector3.t -> Vector3.t -> Vector3.t -> Matrix.t.
Variable PerspectiveFovLH : number -> number -> number -> number -> Matrix.t.
Variable RotationYawPitchRoll : number -> number -> number -> Matrix.t.
Variable Translation : number -> number -> number -> Matrix.t.
Variable multiply : Matrix.t -> Matrix.t -> Matrix.t.
Variable lossy : Lossy.

Local Abbreviation render' :=
  (render TransformCoordinates LookAtLH PerspectiveFovLH RotationYawPitchRoll
          Translation multiply).
Local Abbreviation drawingLoop' :=
  (drawingLoop TransformCoordinates LookAtLH PerspectiveFovLH RotationYawPitchRoll
               Translation multiply lossy).
Local Abbreviation animation' :=
  (animation TransformCoordinates LookAtLH PerspectiveFovLH RotationYawPitchRoll
             Translation multiply lossy).

(** With a back buffer, [render] returns, and the world is drawn. *)
Lemma render_with_buffer (w : World) (l : loc) :
  backbuffer (device w) = Some l ->
  exists w', render' w = Ok tt w' /\ drawn w w'.
Proof.
  intros Hb.
  pose proof (stable_render_draw TransformCoordinates LookAtLH PerspectiveFovLH
                RotationYawPitchRoll Translation multiply drawn w) as H.
  pose proof (logs_render_spec TransformCoordinates LookAtLH PerspectiveFovLH
                RotationYawPitchRoll Translation multiply w) as Hl.
  unfold logs in Hl. rewrite <- render_refines in Hl.
  destruct (render' w) as [[] w1 | e w1 |].
  - exists w1. split; [reflexivity | exact H].
  - destruct Hl as (_ & Hnone & _). congruence.
  - destruct Hl.
Qed.

(** One frame of a device with no empty side and a scene with a first
    mesh. *)
Lemma drawingLoop_run (w : World) (mesh : Mesh.t) (rest : list Mesh.t) :
  workingWidth (device w) <> 0%N ->
  workingHeight (device w) <> 0%N ->
  meshes w = mesh :: rest ->
  length (canvas w) = image_bytes (workingWidth (device w)) (workingHeight (device w)) ->
  exists (w' : World) (data : list Z),
    drawingLoop' w = Ok tt w'
    /\ backbuffer (device w') = Some (length (arrays w))
    /\ arrays w' !! length (arrays w) = Some data
    /\ length (arrays w') = S (length (arrays w))
    /\ canvas w' = data
    /\ painted (replicate (image_bytes (workingWidth (device w))
                                       (workingHeight (device w))) 0) data
    /\ meshes w' = rotate mesh :: rest
    /\ mera w' = mera w
    /\ workingWidth (device w') = workingWidth (device w)
    /\ workingHeight (device w') = workingHeight (device w).
Proof.
  intros Hw Hh Hm Hc.
  set (n := image_bytes (workingWidth (device w)) (workingHeight (device w))) in *.
  assert (clear w = Ok tt (clear_world w)) as Hclear.
  { rewrite clear_run.
    destruct (N.eqb_spec (workingWidth (device w)) 0); [contradiction |].
    destruct (N.eqb_spec (workingHeight (device w)) 0); [contradiction |].
    reflexivity. }
  set (w1 := clear_world w) in *.
  set (w2 := mkWorld (canvas w1) (device w1) (arrays w1) (mera w1)
                     (rotate mesh :: rest) (calls w1)).
  assert (rotate_mesh w1 = Ok tt w2) as Hrot by (apply rotate_mesh_run; exact Hm).
  destruct (render_with_buffer w2 (length (arrays w)) eq_refl)
    as (w3 & Hren & D1 & D2 & D3 & D4 & D5 & D6 & D7 & D8 & D9).
  destruct (D9 (length (arrays w)) (replicate n 0) eq_refl) as (data & Hd & Hp).
  { unfold w2, w1, clear_world. simpl. apply list_lookup_middle. reflexivity. }
  { apply length_replicate. }
  assert (present lossy w3
          = Ok tt (set_canvas (bitmap lossy (resize (length (canvas w3)) 0 data))
                              (add_call CallPresent w3))) as Hpres.
  { rewrite present_run, D6. simpl. rewrite Hd. reflexivity. }
  eexists _, data. unfold drawingLoop.
  rewrite (bind_Ok _ _ _ _ _ Hclear), (bind_Ok _ _ _ _ _ Hrot),
    (bind_Ok _ _ _ _ _ Hren).
  split; [exact Hpres |].
  simpl. repeat split.
  - exact D6.
  - exact Hd.
  - rewrite D7. unfold w2, w1, clear_world. simpl. rewrite length_app. simpl. lia.
  - rewrite D1. unfold w2, w1, clear_world. simpl. rewrite length_replicate.
    destruct Hp as [Hlen Hpix]. rewrite length_replicate in Hlen.
    rewrite Hc. fold n. rewrite <- Hlen, resize_all.
    apply bitmap_yellow_on_black. intros k Hk.
    destruct (Hpix k) as [E | E]; [left | right; exact E].
    rewrite E. apply pixel_replicate_zero. lia.
  - apply Hp.
  - apply Hp.
  - exact D3.
  - exact D2.
  - exact D4.
  - exact D5.
Qed.

End FrameProperties.

(** One frame on a device with no empty side, for a scene with a first mesh:
    [drawingLoop] returns normally; the back buffer is an array allocated by
    this frame; the canvas shows it cell for cell; each of its pixels is
    transparent black (0, 0, 0, 0) or yellow (255, 255, 0, 255); the first
    mesh has been rotated once and the camera is as it was. *)
Theorem drawingLoop_shows_yellow_on_black :
  forall TransformCoordinates LookAtLH PerspectiveFovLH RotationYawPitchRoll
         Translation multiply (lossy : Lossy) (w : World) (mesh : Mesh.t) (rest : list Mesh.t),
    workingWidth (device w) <> 0%N ->
    workingHeight (device w) <> 0%N ->
    meshes w = mesh :: rest ->
    length (canvas w) = image_bytes (workingWidth (device w)) (workingHeight (device w)) ->
    exists (w' : World) (data : list Z),
      drawingLoop TransformCoordinates LookAtLH PerspectiveFovLH RotationYawPitchRoll
                  Translation multiply lossy w = Ok tt w'
      /\ backbuffer (device w') = Some (length (arrays w))
      /\ arrays w' !! length (arrays w) = Some data
      /\ canvas w' = data
      /\ length data = image_bytes (workingWidth (device w)) (workingHeight (device w))
      /\ (forall k : nat, (4 * k + 3 < length data)%nat ->
            pixel data k = blank_pixel \/ pixel data k = yellow_pixel)
      /\ meshes w' = rotate mesh :: rest
      /\ mera w' = mera w.
Proof.
  intros TC LA PF RY TR MU LO w mesh rest Hw Hh Hm Hc.
  destruct (drawingLoop_run TC LA PF RY TR MU LO w mesh rest Hw Hh Hm Hc)
    as (w' & data & Hrun & Hb & Hd & _ & Hcan & [Hlen Hp] & Hms & Hcam & _).
  rewrite length_replicate in Hlen.
  exists w', data. repeat split; try assumption.
  intros k Hk. destruct (Hp k) as [H | H]; [left | right; exact H].
  rewrite H. apply pixel_replicate_zero. lia.
Qed.

Lemma drawingLoop_shows_yellow_on_black_witness :
  exists (w' : World) (data : list Z),
    drawingLoop MathSpec.TransformCoordinates
      (fun _ _ _ => MathSpec.Identity) (fun _ _ _ _ => MathSpec.Identity)
      (fun _ _ _ => MathSpec.Identity) (fun _ _ _ => MathSpec.Identity)
      (fun a _ => a) (fun _ _ _ _ => []) (init 2 2) = Ok tt w'
    /\ canvas w' = data
    /\ length data = 16%nat.
Proof.
  destruct (drawingLoop_shows_yellow_on_black MathSpec.TransformCoordinates
              (fun _ _ _ => MathSpec.Identity) (fun _ _ _ _ => MathSpec.Identity)
              (fun _ _ _ => MathSpec.Identity) (fun _ _ _ => MathSpec.Identity)
              (fun a _ => a) (fun _ _ _ _ => []) (init 2 2) cube []
              ltac:(vm_compute; discriminate) ltac:(vm_compute; discriminate)
              eq_refl eq_refl)
    as (w' & data & H1 & _ & _ & H2 & H3 & _).
  exists w', data. split; [exact H1 |]. split; [exact H2 | exact H3].
Defined.

Lemma animation_run TransformCoordinates LookAtLH PerspectiveFovLH RotationYawPitchRoll
    Translation multiply (lossy : Lossy) (n : nat) :
  forall (w : World) (mesh : Mesh.t) (rest : list Mesh.t),
    workingWidth (device w) <> 0%N ->
    workingHeight (device w) <> 0%N ->
    meshes w = mesh :: rest ->
    length (canvas w) = image_bytes (workingWidth (device w)) (workingHeight (device w)) ->
    exists w',
      animation TransformCoordinates LookAtLH PerspectiveFovLH RotationYawPitchRoll
                Translation multiply lossy n w = Ok tt w'
      /\ meshes w' = Nat.iter n rotate mesh :: rest
      /\ mera w' = mera w
      /\ workingWidth (device w') = workingWidth (device w)
      /\ workingHeight (device w') = workingHeight (device w)
      /\ length (arrays w') = (length (arrays w) + n)%nat.
Proof.
  induction n as [| n IH]; intros w mesh rest Hw Hh Hm Hc.
  - exists w. simpl. repeat split; auto.
  - destruct (drawingLoop_run TransformCoordinates LookAtLH PerspectiveFovLH
                RotationYawPitchRoll Translation multiply lossy w mesh rest Hw Hh Hm Hc)
      as (w1 & data & Hrun & _ & _ & Hlen & Hcan & [Hd _] & Hms & Hcam & Hw1 & Hh1).
    rewrite length_replicate in Hd.
    destruct (IH w1 (rotate mesh) rest) as (w2 & Hrun2 & Hms2 & Hcam2 & Hw2 & Hh2 & Hlen2).
    + congruence.
    + congruence.
    + exact Hms.
    + rewrite Hcan, Hd, Hw1, Hh1. reflexivity.
    + exists w2. simpl animation. rewrite (bind_Ok _ _ _ _ _ Hrun).
      split; [exact Hrun2 |].
      repeat split; try congruence.
      * rewrite Hms2. rewrite Nat.iter_succ_r. reflexivity.
      * rewrite Hlen2, Hlen. lia.
Qed.

(** The animation never stops by itself: on a device with no empty side and
    a scene with a first mesh, every one of the first [n] frames returns
    normally, for every [n]; the device keeps its size, and each frame has
    allocated one array, its back buffer. *)
Theorem animation_never_stops :
  forall TransformCoordinates LookAtLH PerspectiveFovLH RotationYawPitchRoll
         Translation multiply (lossy : Lossy) (n : nat) (w : World) (mesh : Mesh.t) (rest : list Mesh.t),
    workingWidth (device w) <> 0%N ->
    workingHeight (device w) <> 0%N ->
    meshes w = mesh :: rest ->
    length (canvas w) = image_bytes (workingWidth (device w)) (workingHeight (device w)) ->
    exists w',
      animation TransformCoordinates LookAtLH PerspectiveFovLH RotationYawPitchRoll
                Translation multiply lossy n w = Ok tt w'
      /\ workingWidth (device w') = workingWidth (device w)
      /\ workingHeight (device w') = workingHeight (device w)
      /\ length (arrays w') = (length (arrays w) + n)%nat.
Proof.
  intros TC LA PF RY TR MU LO n w mesh rest Hw Hh Hm Hc.
  destruct (animation_run TC LA PF RY TR MU LO n w mesh rest Hw Hh Hm Hc)
    as (w' & H1 & _ & _ & H4 & H5 & H6).
  exists w'. auto.
Qed.

Lemma animation_never_stops_witness :
  exists w',
    animation MathSpec.TransformCoordinates
      (fun _ _ _ => MathSpec.Identity) (fun _ _ _ _ => MathSpec.Identity)
      (fun _ _ _ => MathSpec.Identity) (fun _ _ _ => MathSpec.Identity)
      (fun a _ => a) (fun _ _ _ _ => []) 3 (init 2 2) = Ok tt w'
    /\ length (arrays w') = 3%nat.
Proof.
  destruct (animation_never_stops MathSpec.TransformCoordinates
              (fun _ _ _ => MathSpec.Identity) (fun _ _ _ _ => MathSpec.Identity)
              (fun _ _ _ => MathSpec.Identity) (fun _ _ _ => MathSpec.Identity)
              (fun a _ => a) (fun _ _ _ _ => []) 3 (init 2 2) cube []
              ltac:(vm_compute; discriminate) ltac:(vm_compute; discriminate)
              eq_refl eq_refl)
    as (w' & H1 & _ & _ & H2).
  exists w'. split; [exact H1 | exact H2].
Defined.

Lemma iter_rotate_keeps (n : nat) (mesh : Mesh.t) :
  Mesh.name (Nat.iter n rotate mesh) = Mesh.name mesh
  /\ Mesh.Position (Nat.iter n rotate mesh) = Mesh.Position mesh
  /\ Mesh.Vertices (Nat.iter n rotate mesh) = Mesh.Vertices mesh
  /\ Vector3.z (Mesh.Rotation (Nat.iter n rotate mesh)) = Vector3.z (Mesh.Rotation mesh).
Proof.
  induction n as [| n (H1 & H2 & H3 & H4)]; simpl; auto.
Qed.

Lemma iter_rotate_angles (n : nat) (mesh : Mesh.t) :
  Vector3.x (Mesh.Rotation (Nat.iter n rotate mesh))
  = Nat.iter n (fun a => js_add a rotation_step) (Vector3.x (Mesh.Rotation mesh))
  /\ Vector3.y (Mesh.Rotation (Nat.iter n rotate mesh))
     = Nat.iter n (fun a => js_add a rotation_step) (Vector3.y (Mesh.Rotation mesh)).
Proof.
  induction n as [| n [IHx IHy]]; [split; reflexivity |].
  rewrite !Nat.iter_succ. set (m := Nat.iter n rotate mesh) in *.
  unfold rotate. cbn [Mesh.Rotation Vector3.x Vector3.y].
  rewrite IHx, IHy. split; reflexivity.
Qed.

(** What the animation does to the scene: after [n] frames the first mesh
    has had [mesh.Rotation.x += 0.01; mesh.Rotation.y += 0.01] applied [n]
    times, each a binary64 addition of the literal [0.01], so that the
    angles are not [n / 100] added to the first ones: six frames from 0 give
    [0.060000000000000005].  Its name, Position, Vertices and Rotation.z,
    the other meshes and the camera are what they were. *)
Theorem animation_only_rotates_the_first_mesh :
  forall TransformCoordinates LookAtLH PerspectiveFovLH RotationYawPitchRoll
         Translation multiply (lossy : Lossy) (n : nat) (w : World) (mesh : Mesh.t)
         (rest : list Mesh.t),
    workingWidth (device w) <> 0%N ->
    workingHeight (device w) <> 0%N ->
    meshes w = mesh :: rest ->
    length (canvas w) = image_bytes (workingWidth (device w)) (workingHeight (device w)) ->
    exists (w' : World) (mesh' : Mesh.t),
      animation TransformCoordinates LookAtLH PerspectiveFovLH RotationYawPitchRoll
                Translation multiply lossy n w = Ok tt w'
      /\ meshes w' = mesh' :: rest
      /\ mera w' = mera w
      /\ mesh' = Nat.iter n rotate mesh
      /\ Mesh.name mesh' = Mesh.name mesh
      /\ Mesh.Position mesh' = Mesh.Position mesh
      /\ Mesh.Vertices mesh' = Mesh.Vertices mesh
      /\ Vector3.z (Mesh.Rotation mesh') = Vector3.z (Mesh.Rotation mesh)
      /\ Vector3.x (Mesh.Rotation mesh')
         = Nat.iter n (fun a => js_add a rotation_step) (Vector3.x (Mesh.Rotation mesh))
      /\ Vector3.y (Mesh.Rotation mesh')
         = Nat.iter n (fun a => js_add a rotation_step) (Vector3.y (Mesh.Rotation mesh)).
Proof.
  intros TC LA PF RY TR MU LO n w mesh rest Hw Hh Hm Hc.
  destruct (animation_run TC LA PF RY TR MU LO n w mesh rest Hw Hh Hm Hc)
    as (w' & H1 & H2 & H3 & _).
  destruct (iter_rotate_keeps n mesh) as (K1 & K2 & K3 & K4).
  destruct (iter_rotate_angles n mesh) as (Ex & Ey).
  exists w', (Nat.iter n rotate mesh). repeat split; assumption.
Qed.

(** Six frames of the cube on a 2 x 2 canvas: both angles are
    [0.060000000000000005]. *)
Lemma animation_only_rotates_the_first_mesh_witness :
  exists (w' : World) (mesh' : Mesh.t),
    animation MathSpec.TransformCoordinates
      (fun _ _ _ => MathSpec.Identity) (fun _ _ _ _ => MathSpec.Identity)
      (fun _ _ _ => MathSpec.Identity) (fun _ _ _ => MathSpec.Identity)
      (fun a _ => a) (fun _ _ _ _ => []) 6 (init 2 2) = Ok tt w'
    /\ meshes w' = [mesh']
    /\ Mesh.Vertices mesh' = Mesh.Vertices cube
    /\ Vector3.x (Mesh.Rotation mesh')
       = round64 (60000000000000005 # 1000000000000000000)
    /\ Vector3.x (Mesh.Rotation mesh') <> round64 (6 # 100).
Proof.
  destruct (animation_only_rotates_the_first_mesh MathSpec.TransformCoordinates
              (fun _ _ _ => MathSpec.Identity) (fun _ _ _ _ => MathSpec.Identity)
              (fun _ _ _ => MathSpec.Identity) (fun _ _ _ => MathSpec.Identity)
              (fun a _ => a) (fun _ _ _ _ => []) 6 (init 2 2) cube []
              ltac:(vm_compute; discriminate) ltac:(vm_compute; discriminate)
              eq_refl eq_refl)
    as (w' & mesh' & H1 & H2 & _ & _ & _ & _ & H3 & _ & H4 & _).
  exists w', mesh'. split; [exact H1 |]. split; [exact H2 |]. split; [exact H3 |].
  rewrite H4. split; [vm_compute; reflexivity | vm_compute; discriminate].
Defined.

(** On a device with an empty side the animation stops in its first frame:
    [clear] throws an [IndexSizeError] from [getImageData] before the mesh
    is rotated or anything is rendered, so that the scene and the buffers
    are untouched and no further frame is asked for. *)
Theorem animation_stops_on_an_empty_canvas :
  forall TransformCoordinates LookAtLH PerspectiveFovLH RotationYawPitchRoll
         Translation multiply (lossy : Lossy) (n : nat) (w : World),
    workingWidth (device w) = 0%N \/ workingHeight (device w) = 0%N ->
    exists w',
      animation TransformCoordinates LookAtLH PerspectiveFovLH RotationYawPitchRoll
                Translation multiply lossy (S n) w = Throw IndexSizeError w'
      /\ meshes w' = meshes w
      /\ mera w' = mera w
      /\ arrays w' = arrays w
      /\ device w' = device w
      /\ calls w' = calls w ++ [CallClear].
Proof.
  intros TC LA PF RY TR MU LO n w H.
  eexists. simpl animation. unfold drawingLoop. rewrite !bind_run, clear_run.
  assert (((workingWidth (device w) =? 0) || (workingHeight (device w) =? 0))%N = true)
    as ->.
  { apply orb_true_iff. destruct H as [H | H]; [left | right]; apply N.eqb_eq; exact H. }
  split; [reflexivity | repeat split].
Qed.

Lemma animation_stops_on_an_empty_canvas_witness :
  exists w',
    animation MathSpec.TransformCoordinates
      (fun _ _ _ => MathSpec.Identity) (fun _ _ _ _ => MathSpec.Identity)
      (fun _ _ _ => MathSpec.Identity) (fun _ _ _ => MathSpec.Identity)
      (fun a _ => a) (fun _ _ _ _ => []) 5 (init 0 2) = Throw IndexSizeError w'
    /\ meshes w' = [cube].
Proof.
  destruct (animation_stops_on_an_empty_canvas MathSpec.TransformCoordinates
              (fun _ _ _ => MathSpec.Identity) (fun _ _ _ _ => MathSpec.Identity)
              (fun _ _ _ => MathSpec.Identity) (fun _ _ _ => MathSpec.Identity)
              (fun a _ => a) (fun _ _ _ _ => []) 4 (init 0 2) (or_introl eq_refl))
    as (w' & H1 & H2 & _).
  exists w'. split; [exact H1 | exact H2].
Defined.

(** ** Bytes stay bytes *)

Lemma ToUint8Clamp_range (a : number) : 0 <= ToUint8Clamp a <= 255.
Proof.
  destruct a as [q | | |]; simpl; try lia.
  destruct (Qle_bool q 0) eqn:E0; [lia |].
  destruct (Qle_bool 255 q) eqn:E255; [lia |].
  assert (0 < q)%Q as Hpos.
  { destruct (Qlt_le_dec 0 q) as [H | H]; [exact H |].
    apply Qle_bool_iff in H. congruence. }
  assert (q < 255)%Q as Hlt.
  { destruct (Qlt_le_dec q 255) as [H | H]; [exact H |].
    apply Qle_bool_iff in H. congruence. }
  assert (0 <= Qfloor q <= 254) as Hrange.
  { split.
    - apply (Qfloor_resp_le 0 q), Qlt_le_weak, Hpos.
    - assert (inject_Z (Qfloor q) < inject_Z 255)%Q as Hc.
      { eapply Qle_lt_trans; [apply Qfloor_le | exact Hlt]. }
      rewrite <- Zlt_Qlt in Hc. lia. }
  destruct (q ?= inject_Z (Qfloor q) + (1 # 2))%Q; [| lia | lia].
  destruct (Z.even (Qfloor q)); lia.
Qed.

Lemma channel_byte_range (c : number) : 0 <= channel_byte c <= 255.
Proof. apply ToUint8Clamp_range. Qed.

Lemma bytes_write_byte (index byte : Z) (data : list Z) :
  0 <= byte <= 255 -> bytes data -> bytes (write_byte index byte data).
Proof.
  intros Hb Hd. unfold write_byte. destruct (index <? 0); [exact Hd |].
  apply Forall_insert; assumption.
Qed.

Lemma bytes_put4 (index : Z) (r g b a : number) (data : list Z) :
  bytes data ->
  bytes (put4 index (channel_byte r) (channel_byte g) (channel_byte b) (channel_byte a)
              data).
Proof.
  intros Hd. unfold put4.
  repeat apply bytes_write_byte; try apply channel_byte_range. exact Hd.
Qed.

Lemma all_bytes_putPixel_world (l : loc) (x y : number) (color : Color4.t) (w : World) :
  all_bytes w -> all_bytes (putPixel_world l x y color w).
Proof.
  intros [Ha Hc]. split; [| exact Hc].
  rewrite putPixel_world_arrays. apply Forall_alter; [exact Ha |].
  intros data _ Hd. apply bytes_put4. exact Hd.
Qed.

#[export] Instance keeps_bytes_kept : KeptDraw keeps_bytes.
Proof.
  unfold keeps_bytes. split.
  - auto.
  - auto.
  - intros c w H. exact H.
  - intros l x y w _ _ _ _ _. apply all_bytes_putPixel_world.
Qed.

Lemma bytes_replicate_zero (n : nat) : bytes (replicate n 0).
Proof. apply Forall_replicate. lia. Qed.

Lemma bytes_bitmap (lossy : Lossy) (data : list Z) :
  bytes data -> bytes (bitmap lossy data).
Proof.
  unfold bytes.
  induction data as [data Hs | r g b a rest IH] using bitmap_ind4; intros H.
  - rewrite bitmap_short by exact Hs. exact H.
  - cbn [bitmap]. apply Forall_app.
    inversion H as [| ? ? Hr H1]; subst. inversion H1 as [| ? ? Hg H2]; subst.
    inversion H2 as [| ? ? Hb H3]; subst. inversion H3 as [| ? ? Ha H4]; subst.
    split; [| apply IH; exact H4].
    unfold bitmap_pixel.
    destruct (a =? 255);
      [repeat (constructor; [simpl; lia |]); constructor |].
    destruct (a =? 0);
      [repeat (constructor; [simpl; lia |]); constructor |].
    apply Forall_map. apply Forall_forall. intros z _. unfold clamp_byte. simpl. lia.
Qed.

Section BytesReachable.

Variable TransformCoordinates : Vector3.t -> Matrix.t -> Vector3.t.
Variable LookAtLH : Vector3.t -> Vector3.t -> Vector3.t -> Matrix.t.
Variable PerspectiveFovLH : number -> number -> number -> number -> Matrix.t.
Variable RotationYawPitchRoll : number -> number -> number -> Matrix.t.
Variable Translation : number -> number -> number -> Matrix.t.
Variable multiply : Matrix.t -> Matrix.t -> Matrix.t.
Variable lossy : Lossy.

Lemma bytes_run_op (op : Op) :
  stable keeps_bytes
    (run_op TransformCoordinates LookAtLH PerspectiveFovLH RotationYawPitchRoll
            Translation multiply lossy op).
Proof.
  destruct op; simpl.
  - intros w. rewrite clear_run. unfold keeps_bytes, all_bytes, clear_world.
    destruct ((workingWidth (device w) =? 0) || (workingHeight (device w) =? 0))%N;
      simpl; intros [Ha Hc].
    + split; [exact Ha | apply bytes_replicate_zero].
    + split; [| apply bytes_replicate_zero].
      apply Forall_app. split; [exact Ha |].
      constructor; [apply bytes_replicate_zero | constructor].
  - intros w. rewrite present_run. unfold keeps_bytes, all_bytes.
    destruct (backbuffer (device w)) as [l |]; [| intros H; exact H].
    destruct (arrays w !! l) as [data |] eqn:Hd; [| intros H; exact H].
    simpl. intros [Ha Hc]. split; [exact Ha |].
    apply bytes_bitmap. apply Forall_resize; [lia |].
    rewrite Forall_lookup in Ha. exact (Ha l data Hd).
  - intros w. unfold keeps_bytes.
    destruct (backbuffer (device w)) as [l |] eqn:Hb.
    + rewrite (putPixel_Some _ _ _ _ _ Hb). apply all_bytes_putPixel_world.
    + rewrite (putPixel_None _ _ _ _ Hb). intros H; exact H.
  - intros w. rewrite drawPoint_run. unfold keeps_bytes.
    destruct (on_screen (device w) point); [| intros H; exact H].
    destruct (backbuffer (device w)) as [l |]; [| intros H; exact H].
    intros H. apply all_bytes_putPixel_world. exact H.
  - apply stable_render_draw. exact _.
  - intros w H. exact H.
Qed.

Lemma bytes_run_ops (ops : list Op) :
  forall w,
    all_bytes w ->
    all_bytes (run_ops TransformCoordinates LookAtLH PerspectiveFovLH
                       RotationYawPitchRoll Translation multiply lossy ops w).
Proof.
  induction ops as [| op ops IH]; intros w H; simpl; [exact H |].
  apply IH. pose proof (bytes_run_op op w) as Hs.
  destruct (run_op _ _ _ _ _ _ _ op w); simpl; auto.
Qed.

End BytesReachable.

(** After any sequence of operations from construction, every cell of every
    buffer of the device and of the canvas holds a value between 0 and 255,
    whatever coordinates and colours [putPixel] was given: channels out of
    [0, 1], [NaN] and infinities included. *)
Theorem buffers_always_hold_bytes :
  forall TransformCoordinates LookAtLH PerspectiveFovLH RotationYawPitchRoll
         Translation multiply (lossy : Lossy)
         (width height : N) (cam : Camera.t) (ms : list Mesh.t) (ops : list Op),
    let w := run_ops TransformCoordinates LookAtLH PerspectiveFovLH
                     RotationYawPitchRoll Translation multiply lossy ops
                     (init_world width height cam ms) in
    Forall (Forall (fun b => 0 <= b <= 255)) (arrays w)
    /\ Forall (fun b => 0 <= b <= 255) (canvas w).
Proof.
  intros TC LA PF RY TR MU LO width height cam ms ops w.
  apply (bytes_run_ops TC LA PF RY TR MU LO ops).
  split; [constructor | apply bytes_replicate_zero].
Qed.

(** ** Colours out of range *)

Lemma channel_byte_saturated (c : number) : saturated c (channel_byte c).
Proof.
  split; [apply channel_byte_range |].
  destruct c as [q | | |]; try reflexivity.
  rewrite channel_byte_Fin. unfold of_Z. cbn [js_mul].
  change (inject_Z 255) with 255%Q. split; intros H.
  - pose proof (round64_mono (q * 255) 0 ltac:(lra)) as Hm.
    change (round64 0) with (Fin 0) in Hm.
    destruct (round64 (q * 255)) as [v | | |]; simpl in Hm; try discriminate;
      [| reflexivity].
    unfold ToUint8Clamp. rewrite Hm. reflexivity.
  - pose proof (round64_mono 255 (q * 255) ltac:(lra)) as Hm.
    replace (round64 255) with (Fin 255) in Hm by (vm_compute; reflexivity).
    destruct (round64 (q * 255)) as [v | | |]; simpl in Hm; try discriminate;
      [| reflexivity].
    unfold ToUint8Clamp.
    destruct (Qle_bool v 0) eqn:E0.
    { apply Qle_bool_iff in E0, Hm. lra. }
    rewrite Hm. reflexivity.
Qed.

(** [putPixel] saturates the colour: for an in-bounds pixel of a device with
    a back buffer of its size, the four bytes stored are in 0..255; a
    channel at or below 0, [NaN] or minus infinity stores 0, and a channel at
    or above 1 or plus infinity stores 255, without wrapping around. *)
Theorem putPixel_saturates_the_colour :
  forall (w : World) (l : loc) (data : list Z) (x y : Z) (color : Color4.t),
    backbuffer (device w) = Some l ->
    arrays w !! l = Some data ->
    length data = image_bytes (workingWidth (device w)) (workingHeight (device w)) ->
    0 <= x < Z.of_N (workingWidth (device w)) ->
    0 <= y < Z.of_N (workingHeight (device w)) ->
    Z.of_N (workingWidth (device w)) <= two31 ->
    Z.of_N (workingHeight (device w)) <= two31 ->
    let index := ((y * Z.of_N (workingWidth (device w))) + x) * 4 in
    exists (w' : World) (br bg bb ba : Z),
      putPixel (of_Z x) (of_Z y) color w = Ok tt w'
      /\ byte_at w' l (Z.to_nat index) = Some br
      /\ byte_at w' l (Z.to_nat (index + 1)) = Some bg
      /\ byte_at w' l (Z.to_nat (index + 2)) = Some bb
      /\ byte_at w' l (Z.to_nat (index + 3)) = Some ba
      /\ saturated (Color4.r color) br
      /\ saturated (Color4.g color) bg
      /\ saturated (Color4.b color) bb
      /\ saturated (Color4.a color) ba.
Proof.
  intros w l data x y color Hb Hd Hlen Hx Hy Hw Hh index.
  assert (pixel_index (workingWidth (device w)) (of_Z x) (of_Z y) = index) as Hi.
  { unfold pixel_index. rewrite !ToInt32_of_Z by (unfold two31 in *; lia).
    unfold index. lia. }
  destruct (cell_inside _ _ _ _ Hx Hy) as [H0 H3]. fold index in H0, H3.
  rewrite <- Hlen in H3.
  destruct (put4_lookup index (channel_byte (Color4.r color))
              (channel_byte (Color4.g color)) (channel_byte (Color4.b color))
              (channel_byte (Color4.a color)) data H0 H3)
    as (Lr & Lg & Lb & La).
  exists (putPixel_world l (of_Z x) (of_Z y) color w),
    (channel_byte (Color4.r color)), (channel_byte (Color4.g color)),
    (channel_byte (Color4.b color)), (channel_byte (Color4.a color)).
  split; [apply putPixel_Some; exact Hb |].
  unfold byte_at. rewrite putPixel_world_arrays, list_lookup_alter_eq, Hd, Hi. simpl.
  repeat (split; [assumption |]).
  repeat split; apply channel_byte_saturated.
Qed.

Lemma putPixel_saturates_the_colour_witness :
  exists w',
    putPixel (of_Z 1) (of_Z 1) (Color4.mk (Fin 2) (Fin (-1)) NaN PosInf) cleared_2x2
    = Ok tt w'
    /\ byte_at w' 0%nat 12%nat = Some 255
    /\ byte_at w' 0%nat 13%nat = Some 0
    /\ byte_at w' 0%nat 14%nat = Some 0
    /\ byte_at w' 0%nat 15%nat = Some 255.
Proof.
  destruct (putPixel_saturates_the_colour cleared_2x2 0%nat (replicate 16 0) 1 1
              (Color4.mk (Fin 2) (Fin (-1)) NaN PosInf) eq_refl eq_refl eq_refl
              ltac:(vm_compute; split; discriminate || reflexivity)
              ltac:(vm_compute; split; discriminate || reflexivity)
              ltac:(vm_compute; discriminate) ltac:(vm_compute; discriminate))
    as (w' & br & bg & bb & ba & Hrun & _).
  exists w'. split; [exact Hrun |].
  rewrite (putPixel_Some _ _ _ cleared_2x2 0%nat eq_refl) in Hrun. injection Hrun as <-.
  repeat split; reflexivity.
Defined.

(** ** The centre of the screen *)

Lemma truncate_comp (p q : Q) : (p == q)%Q -> truncate p = truncate q.
Proof.
  intros H. destruct (Qlt_le_dec p 0) as [Hneg | Hpos].
  - rewrite !truncate_nonpos_ceiling by lra. apply Qceiling_comp. exact H.
  - rewrite !truncate_nonneg_floor by lra. apply Qfloor_comp. exact H.
Qed.

Lemma truncate_half (n : N) : truncate (inject_Z (Z.of_N n) / 2) = Z.of_N n / 2.
Proof.
  rewrite truncate_nonneg_floor.
  - unfold Qdiv, Qmult, Qinv, inject_Z, Qfloor. simpl. rewrite Z.mul_1_r. reflexivity.
  - apply Qle_shift_div_l; [reflexivity |]. rewrite Qmult_0_l.
    change 0%Q with (inject_Z 0). rewrite <- Zle_Qle. lia.
Qed.

Lemma round64_zero (q : Q) : (q == 0)%Q -> round64 q = Fin 0.
Proof.
  intros H. destruct (round64_cases q) as [[_ E] | [[Hq _] | [Hq _]]];
    [exact E | lra | lra].
Qed.

(** At the origin the screen value is half the size, exactly. *)
Lemma screen_value_at_origin (n : N) (p : Q) :
  (p == 0)%Q -> Z.of_N n < two32 ->
  exists v : Q,
    js_add (js_mul (Fin p) (of_N n)) (js_div (of_N n) (of_Z 2)) = Fin v
    /\ (v == inject_Z (Z.of_N n) / 2)%Q.
Proof.
  intros Hp Hn. unfold of_N, of_Z. set (z := Z.of_N n) in *.
  assert (0 <= z) as Hz by (unfold z; lia).
  cbn [js_mul]. rewrite (round64_zero (p * inject_Z z)) by (rewrite Hp; ring).
  assert (forall q : Q, (q == inject_Z z / 2)%Q -> round64 q = Fin (Qred q)) as Hex.
  { intros q Hq. apply (round64_exact q z (-1)).
    - rewrite Hq. change (2 ^ (-1))%Q with (1 # 2). field.
    - unfold two32 in Hn. lia.
    - lia.
    - rewrite Hq. apply Qlt_le_trans with 0%Q; [reflexivity |].
      apply Qle_shift_div_l; [reflexivity |]. rewrite Qmult_0_l.
      change 0%Q with (inject_Z 0). rewrite <- Zle_Qle. exact Hz.
    - rewrite Hq. apply Qlt_shift_div_r; [reflexivity |].
      apply Qlt_le_trans with (inject_Z two32).
      + rewrite <- Zlt_Qlt. exact Hn.
      + unfold two32. vm_compute. discriminate. }
  assert (js_div (Fin (inject_Z z)) (Fin (inject_Z 2)) = Fin (Qred (inject_Z z / 2))) as ->.
  { unfold js_div. change (Qsign (inject_Z 2)) with Lt. apply Hex. reflexivity. }
  cbn [js_add]. rewrite Hex by (rewrite Qred_correct; ring).
  eexists. split; [reflexivity |]. rewrite !Qred_correct. ring.
Qed.

(** A vertex transformed to the origin of the normalised space falls on the
    pixel in the middle of the screen, [(floor(width / 2), floor(height /
    2))], for every canvas size below 2^32, and that pixel passes the
    clipping test whenever the device has no empty side. *)
Theorem origin_falls_on_the_centre :
  forall (TransformCoordinates : Vector3.t -> Matrix.t -> Vector3.t)
         (coord : Vector3.t) (transMat : Matrix.t) (w : World)
         (px py : Q) (pz : number),
    TransformCoordinates coord transMat = Vector3.mk (Fin px) (Fin py) pz ->
    (px == 0)%Q -> (py == 0)%Q ->
    Z.of_N (workingWidth (device w)) < two32 ->
    Z.of_N (workingHeight (device w)) < two32 ->
    let centre := Vector2.mk (of_Z (Z.of_N (workingWidth (device w)) / 2))
                             (of_Z (Z.of_N (workingHeight (device w)) / 2)) in
    exists w',
      project TransformCoordinates coord transMat w = Ok centre w'
      /\ on_screen (device w') centre
         = negb (workingWidth (device w) =? 0)%N
           && negb (workingHeight (device w) =? 0)%N.
Proof.
  intros TC coord M w px py pz Hp Hx Hy Hw Hh centre.
  pose proof (truncate_half (workingWidth (device w))) as Tw.
  pose proof (truncate_half (workingHeight (device w))) as Th.
  set (W := Z.of_N (workingWidth (device w))) in *.
  set (H := Z.of_N (workingHeight (device w))) in *.
  destruct (screen_value_at_origin (workingWidth (device w)) px Hx Hw) as (vx & Ex & Vx).
  destruct (screen_value_at_origin (workingHeight (device w)) (- py)
              ltac:(rewrite Hy; reflexivity) Hh) as (vy & Ey & Vy).
  fold W in Vx. fold H in Vy.
  assert (truncate vx = W / 2) as Tx by (rewrite <- Tw; apply truncate_comp, Vx).
  assert (truncate vy = H / 2) as Ty by (rewrite <- Th; apply truncate_comp, Vy).
  assert (0 <= W / 2 < two31 /\ 0 <= H / 2 < two31) as [Rx Ry].
  { unfold two31, two32 in *. split; split;
      try (apply Z.div_pos; lia); apply Z.div_lt_upper_bound; lia. }
  eexists. rewrite project_run, Hp, screen_x_Fin, screen_y_Fin.
  cbn [js_neg]. rewrite Ex, Ey. unfold shr0.
  rewrite !ToInt32_small by (rewrite ?Tx, ?Ty; unfold two31 in *; lia).
  rewrite Tx, Ty. split; [reflexivity |].
  change (device (add_call _ (add_call _ w))) with (device w).
  unfold on_screen, centre, of_N, of_Z. simpl Vector2.x. simpl Vector2.y.
  fold W H.
  assert (js_ge (Fin (inject_Z (W / 2))) (Fin (inject_Z 0)) = true) as ->
    by (apply js_ge_Fin; rewrite <- Zle_Qle; lia).
  assert (js_ge (Fin (inject_Z (H / 2))) (Fin (inject_Z 0)) = true) as ->
    by (apply js_ge_Fin; rewrite <- Zle_Qle; lia).
  simpl andb.
  assert (forall n : N,
            js_lt (Fin (inject_Z (Z.of_N n / 2))) (Fin (inject_Z (Z.of_N n)))
            = negb (n =? 0)%N) as Hlt.
  { intros n. destruct (N.eqb_spec n 0) as [-> | Hn]; [reflexivity |].
    apply js_lt_Fin. rewrite <- Zlt_Qlt. apply Z.div_lt; lia. }
  unfold W, H.
  rewrite <- (Hlt (workingWidth (device w))), <- (Hlt (workingHeight (device w))).
  reflexivity.
Qed.

Lemma origin_falls_on_the_centre_witness :
  exists w',
    project MathSpec.TransformCoordinates
      (Vector3.mk (of_Z 0) (of_Z 0) (of_Z 5)) MathSpec.Identity cleared_2x2
    = Ok (Vector2.mk (of_Z 1) (of_Z 1)) w'.
Proof.
  destruct (origin_falls_on_the_centre MathSpec.TransformCoordinates
              (Vector3.mk (of_Z 0) (of_Z 0) (of_Z 5)) MathSpec.Identity cleared_2x2
              0 0 (of_Z 5) ltac:(vm_compute; reflexivity)
              eq_refl eq_refl eq_refl eq_refl)
    as (w' & H & _).
  exists w'. exact H.
Defined.

(** ** The direction of the axes *)

Lemma truncate_mono (p q : Q) : (p <= q)%Q -> truncate p <= truncate q.
Proof.
  intros H. destruct (Qlt_le_dec p 0) as [Hp | Hp]; destruct (Qlt_le_dec q 0) as [Hq | Hq].
  - rewrite !truncate_nonpos_ceiling by lra. apply Qceiling_resp_le. exact H.
  - rewrite truncate_nonpos_ceiling by lra. rewrite truncate_nonneg_floor by lra.
    assert (Qceiling p <= 0) by (apply (Qceiling_resp_le p 0); lra).
    assert (0 <= Qfloor q) by (apply (Qfloor_resp_le 0 q); lra).
    lia.
  - lra.
  - rewrite !truncate_nonneg_floor by lra. apply Qfloor_resp_le. exact H.
Qed.

(** The screen value grows with the coordinate, in binary64 arithmetic as
    in exact arithmetic. *)
Lemma screen_value_mono (n : N) (d : number) (p q vp vq : Q) :
  (p <= q)%Q ->
  js_add (js_mul (Fin p) (of_N n)) d = Fin vp ->
  js_add (js_mul (Fin q) (of_N n)) d = Fin vq ->
  (vp <= vq)%Q.
Proof.
  intros H Hp Hq. unfold of_N, of_Z in *. cbn [js_mul] in *.
  set (z := inject_Z (Z.of_N n)) in *.
  assert (0 <= z)%Q as Hz
    by (unfold z; change 0%Q with (inject_Z 0); rewrite <- Zle_Qle; lia).
  pose proof (round64_mono (p * z) (q * z)
                ltac:(apply Qmult_le_compat_r; assumption)) as Hm.
  destruct (round64 (p * z)) as [a | | |]; destruct d as [dd | | |];
    try discriminate Hp.
  destruct (round64 (q * z)) as [b | | |]; try discriminate Hq.
  cbn [js_add] in Hp, Hq. simpl in Hm. apply Qle_bool_iff in Hm.
  pose proof (round64_mono (a + dd) (b + dd) ltac:(lra)) as Hs.
  rewrite Hp, Hq in Hs. simpl in Hs. apply Qle_bool_iff in Hs. exact Hs.
Qed.

(** [project] keeps the order of the points along x and reverses it along y:
    of two vertices with finite transformed points whose screen values, as
    binary64 arithmetic gives them, are in the range of [>> 0], the one with
    the larger x is never left of the other, and the one with the larger y
    is never below the other (rows count downward). *)
Theorem project_keeps_x_and_flips_y :
  forall (TransformCoordinates : Vector3.t -> Matrix.t -> Vector3.t)
         (c1 c2 : Vector3.t) (transMat : Matrix.t) (w : World)
         (x1 y1 x2 y2 : Q) (z1 z2 : number) (vx1 vy1 vx2 vy2 : Q),
    TransformCoordinates c1 transMat = Vector3.mk (Fin x1) (Fin y1) z1 ->
    TransformCoordinates c2 transMat = Vector3.mk (Fin x2) (Fin y2) z2 ->
    let width := of_N (workingWidth (device w)) in
    let height := of_N (workingHeight (device w)) in
    js_add (js_mul (Fin x1) width) (js_div width (of_Z 2)) = Fin vx1 ->
    js_add (js_mul (Fin x2) width) (js_div width (of_Z 2)) = Fin vx2 ->
    js_add (js_mul (js_neg (Fin y1)) height) (js_div height (of_Z 2)) = Fin vy1 ->
    js_add (js_mul (js_neg (Fin y2)) height) (js_div height (of_Z 2)) = Fin vy2 ->
    in_int32 vx1 -> in_int32 vx2 -> in_int32 vy1 -> in_int32 vy2 ->
    exists (a1 b1 a2 b2 : Z) (w1 w2 : World),
      project TransformCoordinates c1 transMat w = Ok (Vector2.mk (of_Z a1) (of_Z b1)) w1
      /\ project TransformCoordinates c2 transMat w = Ok (Vector2.mk (of_Z a2) (of_Z b2)) w2
      /\ ((x1 <= x2)%Q -> a1 <= a2)
      /\ ((y1 <= y2)%Q -> b2 <= b1).
Proof.
  intros TC c1 c2 M w x1 y1 x2 y2 z1 z2 vx1 vy1 vx2 vy2 H1 H2 width height
    Ex1 Ex2 Ey1 Ey2 I1 I2 J1 J2.
  eexists _, _, _, _, _, _.
  rewrite !project_run, H1, H2, !screen_x_Fin, !screen_y_Fin.
  fold width height. rewrite Ex1, Ex2, Ey1, Ey2. unfold shr0.
  rewrite !ToInt32_small by (apply in_int32_truncate; assumption).
  split; [reflexivity |]. split; [reflexivity |]. split; intros H.
  - apply truncate_mono.
    exact (screen_value_mono _ _ _ _ _ _ H Ex1 Ex2).
  - apply truncate_mono. cbn [js_neg] in Ey1, Ey2.
    apply (screen_value_mono _ _ (- y2) (- y1) _ _ ltac:(lra) Ey2 Ey1).
Qed.

Lemma project_keeps_x_and_flips_y_witness :
  exists (a1 b1 a2 b2 : Z) (w1 w2 : World),
    project MathSpec.TransformCoordinates
      (Vector3.mk (Fin (-1 # 4)) (Fin (-1 # 4)) (of_Z 0)) MathSpec.Identity cleared_2x2
    = Ok (Vector2.mk (of_Z a1) (of_Z b1)) w1
    /\ project MathSpec.TransformCoordinates
         (Vector3.mk (Fin (1 # 4)) (Fin (1 # 4)) (of_Z 0)) MathSpec.Identity cleared_2x2
       = Ok (Vector2.mk (of_Z a2) (of_Z b2)) w2
    /\ a1 <= a2 /\ b2 <= b1.
Proof.
  destruct (project_keeps_x_and_flips_y MathSpec.TransformCoordinates
              (Vector3.mk (Fin (-1 # 4)) (Fin (-1 # 4)) (of_Z 0))
              (Vector3.mk (Fin (1 # 4)) (Fin (1 # 4)) (of_Z 0))
              MathSpec.Identity cleared_2x2
              (-1 # 4) (-1 # 4) (1 # 4) (1 # 4) (of_Z 0) (of_Z 0)
              (1 # 2) (3 # 2) (3 # 2) (1 # 2)
              ltac:(vm_compute; reflexivity) ltac:(vm_compute; reflexivity)
              ltac:(vm_compute; reflexivity) ltac:(vm_compute; reflexivity)
              ltac:(vm_compute; reflexivity) ltac:(vm_compute; reflexivity)
              (conj eq_refl eq_refl) (conj eq_refl eq_refl)
              (conj eq_refl eq_refl) (conj eq_refl eq_refl))
    as (a1 & b1 & a2 & b2 & w1 & w2 & P1 & P2 & Hx & Hy).
  exists a1, b1, a2, b2, w1, w2.
  split; [exact P1 |]. split; [exact P2 |].
  split; [apply Hx | apply Hy]; vm_compute; discriminate.
Defined.

(** A large abscissa on a device 3 pixels wide: the sum is rounded up to
    2^31, out of the range in which [>> 0] keeps the order. *)
Example screen_value_out_of_range :
  js_add (js_mul (round64 (7158278821666666 # 10000000)) (of_N 3))
         (js_div (of_N 3) (of_Z 2))
  = of_Z (2 ^ 31).
Proof. vm_compute. reflexivity. Qed.

(** ** The picture of a scene *)

Lemma stores_of_app (d : Device) (ps qs : list Vector2.t) (data : list Z) :
  stores_of d (ps ++ qs) data = stores_of d qs (stores_of d ps data).
Proof. apply fold_left_app. Qed.

Lemma stores_of_same_size (d d' : Device) (points : list Vector2.t) (data : list Z) :
  workingWidth d' = workingWidth d -> workingHeight d' = workingHeight d ->
  stores_of d' points data = stores_of d points data.
Proof.
  intros H1 H2. revert data. induction points as [| p ps IH]; intros data.
  - reflexivity.
  - simpl. rewrite (point_stores_same_size d d' p data H1 H2). apply IH.
Qed.

Lemma point_stores_length (d : Device) (p : Vector2.t) (data : list Z) :
  length (point_stores d p data) = length data.
Proof.
  unfold point_stores. destruct (on_screen d p); [apply put4_length | reflexivity].
Qed.

Lemma stores_of_length (d : Device) (points : list Vector2.t) (data : list Z) :
  length (stores_of d points data) = length data.
Proof.
  revert data. induction points as [| p ps IH]; intros data; [reflexivity |].
  simpl. rewrite IH. apply point_stores_length.
Qed.

Lemma draws_shift (c c1 : M unit) (w w1 : World) (l : loc) (points : list Vector2.t) :
  c w = c1 w1 -> keep w w1 -> arrays w1 = arrays w ->
  draws c1 w1 l points -> draws c w l points.
Proof.
  intros Heq Hk Ha (w' & Hr & Hk' & Ha').
  exists w'. rewrite Heq. split; [exact Hr |].
  split; [eapply keep_trans; eassumption |].
  rewrite Ha', Ha. apply list_alter_ext; [| reflexivity].
  intros data _. destruct Hk as (H1 & H2 & _).
  apply stores_of_same_size; assumption.
Qed.

Lemma draws_for_each {A : Type} (f : A -> M unit) (pts : A -> list Vector2.t)
    (w0 : World) (l : loc) :
  (forall a w, keep w0 w -> draws (f a) w l (pts a)) ->
  forall xs w, keep w0 w -> draws (for_each f xs) w l (concat (map pts xs)).
Proof.
  intros Hf. induction xs as [| a xs IH]; intros w Hk.
  - exists w. split; [reflexivity |]. split; [apply keep_refl |].
    symmetry. apply list_alter_id. reflexivity.
  - destruct (Hf a w Hk) as (w1 & Hr1 & Hk1 & Ha1).
    destruct (IH w1 (keep_trans _ _ _ Hk Hk1)) as (w2 & Hr2 & Hk2 & Ha2).
    exists w2. simpl for_each. rewrite bind_run, Hr1.
    split; [exact Hr2 |]. split; [eapply keep_trans; eassumption |].
    rewrite Ha2, Ha1, alter_twice. apply list_alter_ext; [| reflexivity].
    intros data _. simpl map. simpl concat. rewrite stores_of_app.
    destruct Hk1 as (H1 & H2 & _).
    apply stores_of_same_size; assumption.
Qed.

Lemma screen_point_same_size TransformCoordinates (d d' : Device) (T : Matrix.t)
    (v : Vector3.t) :
  workingWidth d' = workingWidth d -> workingHeight d' = workingHeight d ->
  screen_point TransformCoordinates d' T v = screen_point TransformCoordinates d T v.
Proof. intros H1 H2. unfold screen_point. rewrite H1, H2. reflexivity. Qed.

Section RenderPicture.

Variable TransformCoordinates : Vector3.t -> Matrix.t -> Vector3.t.
Variable LookAtLH : Vector3.t -> Vector3.t -> Vector3.t -> Matrix.t.
Variable PerspectiveFovLH : number -> number -> number -> number -> Matrix.t.
Variable RotationYawPitchRoll : number -> number -> number -> Matrix.t.
Variable Translation : number -> number -> number -> Matrix.t.
Variable multiply : Matrix.t -> Matrix.t -> Matrix.t.

Lemma draws_draw_vertex_spec (T : Matrix.t) (v : Vector3.t) (w : World) (l : loc) :
  backbuffer (device w) = Some l ->
  draws (draw_vertex_spec TransformCoordinates T v) w l
        [screen_point TransformCoordinates (device w) T v].
Proof.
  intros Hb. unfold draws, draw_vertex_spec. rewrite bind_run, project_run.
  fold (screen_point TransformCoordinates (device w) T v).
  set (p := screen_point TransformCoordinates (device w) T v).
  set (w1 := add_call (CallTransformCoordinates v T) (add_call (CallProject v T) w)).
  rewrite drawPoint_run. change (device w1) with (device w). rewrite Hb.
  destruct (on_screen (device w) p) eqn:Hon; eexists; (split; [reflexivity |]).
  - split; [repeat split; exact Hb |].
    rewrite putPixel_world_arrays. apply list_alter_ext; [| reflexivity].
    intros data _. unfold stores_of, point_stores. cbn [fold_left].
    rewrite Hon. reflexivity.
  - split; [repeat split |].
    symmetry. apply list_alter_id.
    intros data. unfold stores_of, point_stores. cbn [fold_left].
    rewrite Hon. reflexivity.
Qed.

Lemma draws_draw_mesh_spec (V P : Matrix.t) (mesh : Mesh.t) (w : World) (l : loc) :
  backbuffer (device w) = Some l ->
  draws (draw_mesh_spec TransformCoordinates RotationYawPitchRoll Translation multiply
                        V P mesh) w l
        (mesh_points TransformCoordinates RotationYawPitchRoll Translation multiply
                     (device w) V P mesh).
Proof.
  intros Hb. unfold mesh_points.
  set (rot := rotation_matrix RotationYawPitchRoll mesh).
  set (tra := translation_matrix Translation mesh).
  set (wor := world_matrix RotationYawPitchRoll Translation multiply mesh).
  set (T := transform_matrix RotationYawPitchRoll Translation multiply V P mesh).
  set (w5 :=
    add_call (CallMultiply (multiply wor V) P)
      (add_call (CallMultiply wor V)
        (add_call (CallMultiply rot tra)
          (add_call (CallTranslation (Vector3.x (Mesh.Position mesh))
                                     (Vector3.y (Mesh.Position mesh))
                                     (Vector3.z (Mesh.Position mesh)))
            (add_call (CallRotationYawPitchRoll (Vector3.y (Mesh.Rotation mesh))
                                                (Vector3.x (Mesh.Rotation mesh))
                                                (Vector3.z (Mesh.Rotation mesh)))
               w))))).
  apply draws_shift with
    (c1 := for_each (draw_vertex_spec TransformCoordinates T) (Mesh.Vertices mesh))
    (w1 := w5).
  - unfold draw_mesh_spec, Matrix_RotationYawPitchRoll, Matrix_Translation,
      Matrix_multiply.
    rewrite !record_ret_bind. reflexivity.
  - repeat split.
  - reflexivity.
  - replace (map (screen_point TransformCoordinates (device w) T) (Mesh.Vertices mesh))
      with (concat (map (fun v => [screen_point TransformCoordinates (device w) T v])
                        (Mesh.Vertices mesh))).
    2: { induction (Mesh.Vertices mesh) as [| v vs IH]; [reflexivity |].
         simpl. rewrite IH. reflexivity. }
    apply draws_for_each with (w0 := w); [| repeat split].
    intros v w' Hk.
    destruct Hk as (H1 & H2 & H3 & H4).
    rewrite <- (screen_point_same_size TransformCoordinates (device w) (device w') T v
                  H1 H2).
    apply draws_draw_vertex_spec. congruence.
Qed.

Lemma draws_render_spec (w : World) (l : loc) :
  backbuffer (device w) = Some l ->
  draws (render_spec TransformCoordinates LookAtLH PerspectiveFovLH
                     RotationYawPitchRoll Translation multiply) w l
        (scene_points TransformCoordinates LookAtLH PerspectiveFovLH
                      RotationYawPitchRoll Translation multiply w).
Proof.
  intros Hb. unfold scene_points.
  set (V := view_matrix LookAtLH (mera w)).
  set (P := projection_matrix PerspectiveFovLH (device w)).
  set (w4 :=
    add_call (CallPerspectiveFovLH fov
                (js_div (of_N (workingWidth (device w))) (of_N (workingHeight (device w))))
                znear zfar)
      (add_call (CallLookAtLH (Camera.Position (mera w)) (Camera.Target (mera w))
                              Vector3.Up)
        (add_call CallUp (add_call CallRender w)))).
  apply draws_shift with
    (c1 := for_each (draw_mesh_spec TransformCoordinates RotationYawPitchRoll
                                    Translation multiply V P) (meshes w))
    (w1 := w4).
  - unfold render_spec, Vector3_Up, Matrix_LookAtLH, Matrix_PerspectiveFovLH.
    repeat first [rewrite record_bind | rewrite gets_bind | rewrite record_ret_bind].
    reflexivity.
  - repeat split.
  - reflexivity.
  - apply draws_for_each with (w0 := w); [| repeat split].
    intros mesh w' Hk.
    destruct Hk as (H1 & H2 & H3 & H4).
    assert (mesh_points TransformCoordinates RotationYawPitchRoll Translation multiply
                        (device w) V P mesh
            = mesh_points TransformCoordinates RotationYawPitchRoll Translation multiply
                          (device w') V P mesh) as ->.
    { unfold mesh_points. apply map_ext. intros v.
      symmetry. apply screen_point_same_size; assumption. }
    apply draws_draw_mesh_spec. congruence.
Qed.

Lemma int_point_screen_point (d : Device) (T : Matrix.t) (v : Vector3.t) :
  int_point (screen_point TransformCoordinates d T v).
Proof.
  unfold screen_point, shr0. eexists _, _. split; [reflexivity |].
  split; apply ToInt32_range.
Qed.

Lemma int_point_scene_points (w : World) :
  Forall int_point
    (scene_points TransformCoordinates LookAtLH PerspectiveFovLH
                  RotationYawPitchRoll Translation multiply w).
Proof.
  unfold scene_points. apply Forall_concat. apply Forall_map.
  apply Forall_forall. intros mesh _. unfold mesh_points.
  apply Forall_map. apply Forall_forall. intros v _.
  apply int_point_screen_point.
Qed.

End RenderPicture.

Lemma pixel_point_stores (d : Device) (p : Vector2.t) (data : list Z) (k : nat) :
  int_point p ->
  length data = image_bytes (workingWidth d) (workingHeight d) ->
  pixel (point_stores d p data) k
  = if hits d k p then yellow_pixel else pixel data k.
Proof.
  intros (nx & ny & -> & Hx & Hy) Hlen. unfold point_stores, hits.
  destruct (on_screen d (Vector2.mk (of_Z nx) (of_Z ny))) eqn:Hon; [| reflexivity].
  destruct (on_screen_integers _ _ _ Hon) as [Bx By].
  unfold pixel_index. cbn [Vector2.x Vector2.y andb].
  rewrite !ToInt32_of_Z by assumption.
  destruct (cell_inside (workingWidth d) (workingHeight d) nx ny Bx By) as [H0 H3].
  rewrite <- Hlen in H3.
  set (K := Z.to_nat (nx + ny * Z.of_N (workingWidth d))).
  replace ((nx + ny * Z.of_N (workingWidth d)) * 4)
    with (Z.of_nat (4 * K)) by (unfold K; nia).
  rewrite pixel_put4 by (unfold K; nia).
  destruct (Z.eqb_spec (Z.of_nat (4 * K)) (Z.of_nat (4 * k))); case_decide;
    try lia; reflexivity.
Qed.

Lemma pixel_stores_of (d : Device) (points : list Vector2.t) (data : list Z) (k : nat) :
  Forall int_point points ->
  length data = image_bytes (workingWidth d) (workingHeight d) ->
  pixel (stores_of d points data) k
  = if existsb (hits d k) points then yellow_pixel else pixel data k.
Proof.
  intros Hint. revert data. induction Hint as [| p ps Hp _ IH]; intros data Hlen.
  - reflexivity.
  - change (stores_of d (p :: ps) data) with (stores_of d ps (point_stores d p data)).
    rewrite IH by (rewrite point_stores_length; exact Hlen).
    rewrite (pixel_point_stores d p data k Hp Hlen).
    cbn [existsb]. destruct (hits d k p), (existsb (hits d k) ps); reflexivity.
Qed.

Lemma stores_of_Permutation (d : Device) (ps qs : list Vector2.t) :
  ps ≡ₚ qs -> forall data, stores_of d ps data = stores_of d qs data.
Proof.
  induction 1 as [| p ps qs _ IH | p q ps | ps qs rs _ IH1 _ IH2]; intros data.
  - reflexivity.
  - apply IH.
  - change (stores_of d ps (point_stores d p (point_stores d q data))
            = stores_of d ps (point_stores d q (point_stores d p data))).
    rewrite point_stores_commute. reflexivity.
  - rewrite IH1. apply IH2.
Qed.

Lemma concat_map_Permutation {A B : Type} (f : A -> list B) (xs ys : list A) :
  xs ≡ₚ ys -> concat (map f xs) ≡ₚ concat (map f ys).
Proof.
  induction 1 as [| a xs ys _ IH | a b xs | xs ys zs _ IH1 _ IH2]; simpl.
  - reflexivity.
  - rewrite IH. reflexivity.
  - rewrite !app_assoc. apply Permutation_app_tail. apply Permutation_app_comm.
  - rewrite IH1. exact IH2.
Qed.

(** On a device whose back buffer has the size of the device, [render]
    returns normally, and the back buffer is afterwards exactly this: a pixel
    is yellow (255, 255, 0, 255) when the projected point of some vertex of
    the scene passes the test of [drawPoint] and has its cell there, and is
    what it was before otherwise. *)
Theorem render_paints_the_projected_vertices :
  forall TransformCoordinates LookAtLH PerspectiveFovLH RotationYawPitchRoll
         Translation multiply (w : World) (l : loc) (data : list Z),
    backbuffer (device w) = Some l ->
    arrays w !! l = Some data ->
    length data = image_bytes (workingWidth (device w)) (workingHeight (device w)) ->
    exists (w' : World) (data' : list Z),
      render TransformCoordinates LookAtLH PerspectiveFovLH
             RotationYawPitchRoll Translation multiply w = Ok tt w'
      /\ arrays w' !! l = Some data'
      /\ forall k : nat,
           pixel data' k
           = if existsb (hits (device w) k)
                  (scene_points TransformCoordinates LookAtLH PerspectiveFovLH
                                RotationYawPitchRoll Translation multiply w)
             then yellow_pixel
             else pixel data k.
Proof.
  intros TC LA PF RY TR MU w l data Hb Hd Hlen.
  destruct (draws_render_spec TC LA PF RY TR MU w l Hb) as (w' & Hr & _ & Ha).
  exists w', (stores_of (device w) (scene_points TC LA PF RY TR MU w) data).
  rewrite render_refines. split; [exact Hr |]. split.
  - rewrite Ha, list_lookup_alter_eq, Hd. reflexivity.
  - intros k. apply pixel_stores_of; [apply int_point_scene_points | exact Hlen].
Qed.

Lemma render_paints_the_projected_vertices_witness :
  exists (w' : World) (data' : list Z),
    render MathSpec.TransformCoordinates
           (fun _ _ _ => MathSpec.Identity) (fun _ _ _ _ => MathSpec.Identity)
           (fun _ _ _ => MathSpec.Identity) (fun _ _ _ => MathSpec.Identity)
           (fun a _ => a)
           (with_meshes [Mesh.mk "Point" Vector3.Zero Vector3.Zero [Vector3.Zero]]
                        cleared_cube_2x2) = Ok tt w'
    /\ arrays w' !! 0%nat = Some data'
    /\ pixel data' 0 = blank_pixel
    /\ pixel data' 3 = yellow_pixel.
Proof.
  destruct (render_paints_the_projected_vertices MathSpec.TransformCoordinates
              (fun _ _ _ => MathSpec.Identity) (fun _ _ _ _ => MathSpec.Identity)
              (fun _ _ _ => MathSpec.Identity) (fun _ _ _ => MathSpec.Identity)
              (fun a _ => a)
              (with_meshes [Mesh.mk "Point" Vector3.Zero Vector3.Zero [Vector3.Zero]]
                           cleared_cube_2x2)
              0%nat (replicate 16 0) eq_refl eq_refl eq_refl)
    as (w' & data' & H1 & H2 & H3).
  exists w', data'. split; [exact H1 |]. split; [exact H2 |].
  split; [rewrite (H3 0%nat) | rewrite (H3 3%nat)]; vm_compute; reflexivity.
Defined.

(** The picture does not depend on the order of the meshes: on a device with
    a back buffer, [render] of a scene and [render] of the same meshes in any
    other order both return and leave the same arrays. *)
Theorem render_ignores_the_order_of_the_meshes :
  forall TransformCoordinates LookAtLH PerspectiveFovLH RotationYawPitchRoll
         Translation multiply (w : World) (l : loc) (ms : list Mesh.t),
    backbuffer (device w) = Some l ->
    ms ≡ₚ meshes w ->
    exists w1 w2 : World,
      render TransformCoordinates LookAtLH PerspectiveFovLH
             RotationYawPitchRoll Translation multiply w = Ok tt w1
      /\ render TransformCoordinates LookAtLH PerspectiveFovLH
                RotationYawPitchRoll Translation multiply (with_meshes ms w) = Ok tt w2
      /\ arrays w2 = arrays w1.
Proof.
  intros TC LA PF RY TR MU w l ms Hb Hperm.
  destruct (draws_render_spec TC LA PF RY TR MU w l Hb) as (w1 & Hr1 & _ & Ha1).
  destruct (draws_render_spec TC LA PF RY TR MU (with_meshes ms w) l Hb)
    as (w2 & Hr2 & _ & Ha2).
  exists w1, w2. rewrite !render_refines.
  split; [exact Hr1 |]. split; [exact Hr2 |].
  rewrite Ha1, Ha2. apply list_alter_ext; [| reflexivity].
  intros data _. apply stores_of_Permutation.
  unfold scene_points. apply concat_map_Permutation. exact Hperm.
Qed.

Lemma render_ignores_the_order_of_the_meshes_witness :
  exists w1 w2 : World,
    render MathSpec.TransformCoordinates
           (fun _ _ _ => MathSpec.Identity) (fun _ _ _ _ => MathSpec.Identity)
           (fun _ _ _ => MathSpec.Identity) (fun _ _ _ => MathSpec.Identity)
           (fun a _ => a) (with_meshes [cube; rotate cube] cleared_cube_2x2) = Ok tt w1
    /\ render MathSpec.TransformCoordinates
              (fun _ _ _ => MathSpec.Identity) (fun _ _ _ _ => MathSpec.Identity)
              (fun _ _ _ => MathSpec.Identity) (fun _ _ _ => MathSpec.Identity)
              (fun a _ => a) (with_meshes [rotate cube; cube] cleared_cube_2x2) = Ok tt w2
    /\ arrays w2 = arrays w1.
Proof.
  exact (render_ignores_the_order_of_the_meshes MathSpec.TransformCoordinates
           (fun _ _ _ => MathSpec.Identity) (fun _ _ _ _ => MathSpec.Identity)
           (fun _ _ _ => MathSpec.Identity) (fun _ _ _ => MathSpec.Identity)
           (fun a _ => a) (with_meshes [cube; rotate cube] cleared_cube_2x2) 0%nat
           [rotate cube; cube] eq_refl (perm_swap _ _ [])).
Defined.

(** ** The picture of a frame *)

Lemma existsb_hits_same_size (d d' : Device) (k : nat) (points : list Vector2.t) :
  workingWidth d' = workingWidth d -> workingHeight d' = workingHeight d ->
  existsb (hits d' k) points = existsb (hits d k) points.
Proof.
  intros H1 H2. induction points as [| p ps IH]; [reflexivity |].
  cbn [existsb]. rewrite IH. unfold hits.
  rewrite (on_screen_same_size d d' p H1 H2), H1. reflexivity.
Qed.

Lemma scene_points_same_scene TransformCoordinates LookAtLH PerspectiveFovLH
    RotationYawPitchRoll Translation multiply (w w' : World) :
  workingWidth (device w') = workingWidth (device w) ->
  workingHeight (device w') = workingHeight (device w) ->
  mera w' = mera w -> meshes w' = meshes w ->
  scene_points TransformCoordinates LookAtLH PerspectiveFovLH
               RotationYawPitchRoll Translation multiply w'
  = scene_points TransformCoordinates LookAtLH PerspectiveFovLH
                 RotationYawPitchRoll Translation multiply w.
Proof.
  intros H1 H2 H3 H4. unfold scene_points, projection_matrix.
  rewrite H1, H2, H3, H4. f_equal. apply map_ext. intros mesh.
  unfold mesh_points. apply map_ext. intros v.
  apply screen_point_same_size; assumption.
Qed.

(** One frame on a device with no empty side, for a scene with a first mesh:
    [drawingLoop] returns normally, and a pixel of the canvas is afterwards
    yellow (255, 255, 0, 255) when a vertex of the scene, its first mesh
    rotated by this frame, is projected on it, and transparent black
    (0, 0, 0, 0) otherwise.  Nothing of the frames before is left. *)
Theorem drawingLoop_shows_the_rotated_scene :
  forall TransformCoordinates LookAtLH PerspectiveFovLH RotationYawPitchRoll
         Translation multiply (lossy : Lossy) (w : World) (mesh : Mesh.t) (rest : list Mesh.t),
    workingWidth (device w) <> 0%N ->
    workingHeight (device w) <> 0%N ->
    meshes w = mesh :: rest ->
    length (canvas w) = image_bytes (workingWidth (device w)) (workingHeight (device w)) ->
    exists w' : World,
      drawingLoop TransformCoordinates LookAtLH PerspectiveFovLH RotationYawPitchRoll
                  Translation multiply lossy w = Ok tt w'
      /\ forall k : nat,
           (4 * k + 3 < image_bytes (workingWidth (device w))
                                    (workingHeight (device w)))%nat ->
           pixel (canvas w') k
           = if existsb (hits (device w) k)
                  (scene_points TransformCoordinates LookAtLH PerspectiveFovLH
                                RotationYawPitchRoll Translation multiply
                                (with_meshes (rotate mesh :: rest) w))
             then yellow_pixel
             else blank_pixel.
Proof.
  intros TC LA PF RY TR MU LO w mesh rest Hw Hh Hm Hc.
  set (n := image_bytes (workingWidth (device w)) (workingHeight (device w))) in *.
  assert (clear w = Ok tt (clear_world w)) as Hclear.
  { rewrite clear_run.
    destruct (N.eqb_spec (workingWidth (device w)) 0); [contradiction |].
    destruct (N.eqb_spec (workingHeight (device w)) 0); [contradiction |].
    reflexivity. }
  set (w1 := clear_world w) in *.
  set (w2 := mkWorld (canvas w1) (device w1) (arrays w1) (mera w1)
                     (rotate mesh :: rest) (calls w1)).
  assert (rotate_mesh w1 = Ok tt w2) as Hrot by (apply rotate_mesh_run; exact Hm).
  destruct (draws_render_spec TC LA PF RY TR MU w2 (length (arrays w)) eq_refl)
    as (w3 & Hren & (_ & _ & Hb3 & _) & Ha).
  rewrite <- render_refines in Hren.
  destruct (render_with_buffer TC LA PF RY TR MU w2 (length (arrays w)) eq_refl)
    as (w3' & Hren' & D1 & _).
  assert (w3' = w3) as -> by congruence.
  set (points := scene_points TC LA PF RY TR MU w2) in *.
  set (data := stores_of (device w2) points (replicate n 0)).
  assert (arrays w3 !! length (arrays w) = Some data) as Hd.
  { rewrite Ha, list_lookup_alter_eq. unfold w2, w1, clear_world. simpl.
    rewrite list_lookup_middle by reflexivity. reflexivity. }
  assert (present LO w3
          = Ok tt (set_canvas (bitmap LO (resize (length (canvas w3)) 0 data))
                              (add_call CallPresent w3))) as Hpres.
  { rewrite present_run, Hb3. simpl. rewrite Hd. reflexivity. }
  eexists. unfold drawingLoop.
  rewrite (bind_Ok _ _ _ _ _ Hclear), (bind_Ok _ _ _ _ _ Hrot),
    (bind_Ok _ _ _ _ _ Hren).
  split; [exact Hpres |].
  intros k Hk. simpl canvas. rewrite D1.
  assert (length data = n) as Hlen
    by (unfold data; rewrite stores_of_length; apply length_replicate).
  replace (length (canvas w2)) with (length data).
  2: { rewrite Hlen. unfold w2, w1, clear_world. simpl.
       rewrite length_replicate. symmetry. exact Hc. }
  rewrite resize_all.
  assert (pixel data k
          = if existsb (hits (device w2) k) points then yellow_pixel else blank_pixel)
    as Hpix.
  { unfold data. rewrite pixel_stores_of;
      [| apply int_point_scene_points | rewrite length_replicate; reflexivity].
    rewrite (pixel_replicate_zero n k Hk). reflexivity. }
  rewrite pixel_bitmap, Hpix.
  assert ((if existsb (hits (device w2) k) points then yellow_pixel else blank_pixel)
          = if existsb (hits (device w) k) points then yellow_pixel else blank_pixel)
    as ->.
  { rewrite (existsb_hits_same_size (device w) (device w2) k points eq_refl eq_refl).
    reflexivity. }
  assert (forall c : bool,
            match (if c then yellow_pixel else blank_pixel) with
            | [Some r; Some g; Some b; Some a] => map Some (bitmap_pixel LO r g b a)
            | _ => if c then yellow_pixel else blank_pixel
            end = if c then yellow_pixel else blank_pixel) as -> by (intros []; reflexivity).
  unfold points.
  rewrite (scene_points_same_scene TC LA PF RY TR MU
             (with_meshes (rotate mesh :: rest) w) w2 eq_refl eq_refl eq_refl eq_refl).
  reflexivity.
Qed.

Lemma drawingLoop_shows_the_rotated_scene_witness :
  exists w' : World,
    drawingLoop MathSpec.TransformCoordinates
      (fun _ _ _ => MathSpec.Identity) (fun _ _ _ _ => MathSpec.Identity)
      (fun _ _ _ => MathSpec.Identity) (fun _ _ _ => MathSpec.Identity)
      (fun a _ => a) (fun _ _ _ _ => [])
      (with_meshes [Mesh.mk "Point" Vector3.Zero Vector3.Zero [Vector3.Zero]]
                   (init 2 2)) = Ok tt w'
    /\ pixel (canvas w') 0 = blank_pixel
    /\ pixel (canvas w') 3 = yellow_pixel.
Proof.
  destruct (drawingLoop_shows_the_rotated_scene MathSpec.TransformCoordinates
              (fun _ _ _ => MathSpec.Identity) (fun _ _ _ _ => MathSpec.Identity)
              (fun _ _ _ => MathSpec.Identity) (fun _ _ _ => MathSpec.Identity)
              (fun a _ => a) (fun _ _ _ _ => [])
              (with_meshes [Mesh.mk "Point" Vector3.Zero Vector3.Zero [Vector3.Zero]]
                           (init 2 2))
              (Mesh.mk "Point" Vector3.Zero Vector3.Zero [Vector3.Zero]) []
              ltac:(vm_compute; discriminate) ltac:(vm_compute; discriminate)
              eq_refl eq_refl)
    as (w' & H1 & H2).
  exists w'. split; [exact H1 |].
  split; [rewrite (H2 0%nat) | rewrite (H2 3%nat)];
    first [vm_compute; reflexivity | vm_compute; lia].
Defined.

(** ** Drawing without a back buffer *)

Lemma only_calls_refl (w : World) : only_calls w w.
Proof. repeat split. Qed.

Lemma only_calls_trans (w1 w2 w3 : World) :
  only_calls w1 w2 -> only_calls w2 w3 -> only_calls w1 w3.
Proof.
  intros (A1 & A2 & A3 & A4 & A5) (B1 & B2 & B3 & B4 & B5).
  repeat split; congruence.
Qed.

Lemma stops_shift (c c1 : M unit) (w w1 : World) (points : list Vector2.t) :
  c w = c1 w1 -> only_calls w w1 -> stops_at c1 w1 points -> stops_at c w points.
Proof.
  intros Heq Hk H. unfold stops_at in *. rewrite Heq.
  assert (device w1 = device w) as Hd by apply Hk. rewrite Hd in H.
  destruct (c1 w1) as [[] w' | e w' |]; [| | exact H].
  - destruct H as [H1 H2]. split; [exact H1 | eapply only_calls_trans; eassumption].
  - destruct H as (H0 & H1 & H2 & H3).
    split; [exact H0 |]. split; [exact H1 |].
    split; [eapply only_calls_trans; eassumption | exact H3].
Qed.

Lemma stops_for_each {A : Type} (f : A -> M unit) (pts : A -> list Vector2.t)
    (w0 : World) :
  (forall a w, only_calls w0 w -> stops_at (f a) w (pts a)) ->
  forall xs w, only_calls w0 w -> stops_at (for_each f xs) w (concat (map pts xs)).
Proof.
  intros Hf. induction xs as [| a xs IH]; intros w Hk.
  - unfold stops_at. simpl. split; [reflexivity | apply only_calls_refl].
  - specialize (Hf a w Hk). unfold stops_at in *. simpl for_each. rewrite bind_run.
    simpl map. simpl concat. rewrite existsb_app.
    destruct (f a w) as [[] w1 | e w1 |]; [| | exact Hf].
    + destruct Hf as [H1 H2].
      specialize (IH w1 (only_calls_trans _ _ _ Hk H2)).
      assert (device w1 = device w) as Hd by apply H2. rewrite Hd in IH.
      rewrite H1. cbn [orb].
      destruct (for_each f xs w1) as [[] w2 | e w2 |]; [| | exact IH].
      * destruct IH as [I1 I2].
        split; [exact I1 | eapply only_calls_trans; eassumption].
      * destruct IH as (I0 & I1 & I2 & I3).
        split; [exact I0 |]. split; [exact I1 |].
        split; [eapply only_calls_trans; eassumption | exact I3].
    + destruct Hf as (H0 & H1 & H2 & H3).
      split; [exact H0 |]. rewrite H1. split; [reflexivity |].
      split; [exact H2 | exact H3].
Qed.

Section RenderWithoutBuffer.

Variable TransformCoordinates : Vector3.t -> Matrix.t -> Vector3.t.
Variable LookAtLH : Vector3.t -> Vector3.t -> Vector3.t -> Matrix.t.
Variable PerspectiveFovLH : number -> number -> number -> number -> Matrix.t.
Variable RotationYawPitchRoll : number -> number -> number -> Matrix.t.
Variable Translation : number -> number -> number -> Matrix.t.
Variable multiply : Matrix.t -> Matrix.t -> Matrix.t.

Lemma stops_draw_vertex_spec (T : Matrix.t) (v : Vector3.t) (w : World) :
  backbuffer (device w) = None ->
  stops_at (draw_vertex_spec TransformCoordinates T v) w
           [screen_point TransformCoordinates (device w) T v].
Proof.
  intros Hb. unfold stops_at, draw_vertex_spec. rewrite bind_run, project_run.
  fold (screen_point TransformCoordinates (device w) T v).
  set (p := screen_point TransformCoordinates (device w) T v).
  set (w1 := add_call (CallTransformCoordinates v T) (add_call (CallProject v T) w)).
  rewrite drawPoint_run. change (device w1) with (device w). rewrite Hb.
  cbn [existsb]. rewrite orb_false_r.
  destruct (on_screen (device w) p); repeat split.
  exists (Vector2.x p), (Vector2.y p). apply last_snoc.
Qed.

Lemma stops_draw_mesh_spec (V P : Matrix.t) (mesh : Mesh.t) (w : World) :
  backbuffer (device w) = None ->
  stops_at (draw_mesh_spec TransformCoordinates RotationYawPitchRoll Translation
                           multiply V P mesh) w
           (mesh_points TransformCoordinates RotationYawPitchRoll Translation multiply
                        (device w) V P mesh).
Proof.
  intros Hb. unfold mesh_points.
  set (rot := rotation_matrix RotationYawPitchRoll mesh).
  set (tra := translation_matrix Translation mesh).
  set (wor := world_matrix RotationYawPitchRoll Translation multiply mesh).
  set (T := transform_matrix RotationYawPitchRoll Translation multiply V P mesh).
  set (w5 :=
    add_call (CallMultiply (multiply wor V) P)
      (add_call (CallMultiply wor V)
        (add_call (CallMultiply rot tra)
          (add_call (CallTranslation (Vector3.x (Mesh.Position mesh))
                                     (Vector3.y (Mesh.Position mesh))
                                     (Vector3.z (Mesh.Position mesh)))
            (add_call (CallRotationYawPitchRoll (Vector3.y (Mesh.Rotation mesh))
                                                (Vector3.x (Mesh.Rotation mesh))
                                                (Vector3.z (Mesh.Rotation mesh)))
               w))))).
  apply stops_shift with
    (c1 := for_each (draw_vertex_spec TransformCoordinates T) (Mesh.Vertices mesh))
    (w1 := w5).
  - unfold draw_mesh_spec, Matrix_RotationYawPitchRoll, Matrix_Translation,
      Matrix_multiply.
    rewrite !record_ret_bind. reflexivity.
  - repeat split.
  - replace (map (screen_point TransformCoordinates (device w) T) (Mesh.Vertices mesh))
      with (concat (map (fun v => [screen_point TransformCoordinates (device w) T v])
                        (Mesh.Vertices mesh))).
    2: { induction (Mesh.Vertices mesh) as [| v vs IH]; [reflexivity |].
         simpl. rewrite IH. reflexivity. }
    apply stops_for_each with (w0 := w); [| repeat split].
    intros v w' (_ & Hd & _). rewrite <- Hd.
    apply stops_draw_vertex_spec. rewrite Hd. exact Hb.
Qed.

Lemma stops_render_spec (w : World) :
  backbuffer (device w) = None ->
  stops_at (render_spec TransformCoordinates LookAtLH PerspectiveFovLH
                        RotationYawPitchRoll Translation multiply) w
           (scene_points TransformCoordinates LookAtLH PerspectiveFovLH
                         RotationYawPitchRoll Translation multiply w).
Proof.
  intros Hb. unfold scene_points.
  set (V := view_matrix LookAtLH (mera w)).
  set (P := projection_matrix PerspectiveFovLH (device w)).
  set (w4 :=
    add_call (CallPerspectiveFovLH fov
                (js_div (of_N (workingWidth (device w))) (of_N (workingHeight (device w))))
                znear zfar)
      (add_call (CallLookAtLH (Camera.Position (mera w)) (Camera.Target (mera w))
                              Vector3.Up)
        (add_call CallUp (add_call CallRender w)))).
  apply stops_shift with
    (c1 := for_each (draw_mesh_spec TransformCoordinates RotationYawPitchRoll
                                    Translation multiply V P) (meshes w))
    (w1 := w4).
  - unfold render_spec, Vector3_Up, Matrix_LookAtLH, Matrix_PerspectiveFovLH.
    repeat first [rewrite record_bind | rewrite gets_bind | rewrite record_ret_bind].
    reflexivity.
  - repeat split.
  - apply stops_for_each with (w0 := w); [| repeat split].
    intros mesh w' (_ & Hd & _). rewrite <- Hd.
    apply stops_draw_mesh_spec. rewrite Hd. exact Hb.
Qed.

End RenderWithoutBuffer.

(** On a device that has never cleared, and so has no back buffer, [render]
    returns normally when no vertex of the scene is projected on the screen,
    and throws a TypeError, at the first [putPixel], when one is.  Either way
    the canvas, the device, the arrays and the scene are left as they were. *)
Theorem render_before_clear_throws_on_a_visible_vertex :
  forall TransformCoordinates LookAtLH PerspectiveFovLH RotationYawPitchRoll
         Translation multiply (w : World),
    backbuffer (device w) = None ->
    let visible :=
      existsb (on_screen (device w))
        (scene_points TransformCoordinates LookAtLH PerspectiveFovLH
                      RotationYawPitchRoll Translation multiply w) in
    match render TransformCoordinates LookAtLH PerspectiveFovLH
                 RotationYawPitchRoll Translation multiply w with
    | Ok _ w' => visible = false /\ only_calls w w'
    | Throw e w' =>
        e = TypeError /\ visible = true /\ only_calls w w'
        /\ exists x y, last (calls w') = Some (CallPutPixel x y yellow)
    | OutOfFuel => False
    end.
Proof.
  intros TC LA PF RY TR MU w Hb visible.
  pose proof (stops_render_spec TC LA PF RY TR MU w Hb) as H.
  unfold stops_at in H. rewrite <- render_refines in H.
  fold visible in H.
  destruct (render TC LA PF RY TR MU w) as [[] w' | e w' |]; exact H.
Qed.

Lemma render_before_clear_throws_on_a_visible_vertex_witness :
  exists w' : World,
    render MathSpec.TransformCoordinates
           (fun _ _ _ => MathSpec.Identity) (fun _ _ _ _ => MathSpec.Identity)
           (fun _ _ _ => MathSpec.Identity) (fun _ _ _ => MathSpec.Identity)
           (fun a _ => a)
           (with_meshes [Mesh.mk "Point" Vector3.Zero Vector3.Zero [Vector3.Zero]]
                        (init 2 2)) = Throw TypeError w'
    /\ arrays w' = [].
Proof.
  pose proof (render_before_clear_throws_on_a_visible_vertex
                MathSpec.TransformCoordinates
                (fun _ _ _ => MathSpec.Identity) (fun _ _ _ _ => MathSpec.Identity)
                (fun _ _ _ => MathSpec.Identity) (fun _ _ _ => MathSpec.Identity)
                (fun a _ => a)
                (with_meshes [Mesh.mk "Point" Vector3.Zero Vector3.Zero [Vector3.Zero]]
                             (init 2 2))
                eq_refl) as H.
  cbv zeta in H.
  destruct (render MathSpec.TransformCoordinates
              (fun _ _ _ => MathSpec.Identity) (fun _ _ _ _ => MathSpec.Identity)
              (fun _ _ _ => MathSpec.Identity) (fun _ _ _ => MathSpec.Identity)
              (fun a _ => a)
              (with_meshes [Mesh.mk "Point" Vector3.Zero Vector3.Zero [Vector3.Zero]]
                           (init 2 2))) as [[] w' | e w' |].
  - destruct H as [H _]. vm_compute in H. discriminate H.
  - destruct H as (-> & _ & (_ & _ & Ha & _) & _).
    exists w'. split; [reflexivity | exact Ha].
  - destruct H.
Defined.
